(** * NSGA-II population manager of llm4ad: a shallow embedding

    Source: [src/llm4ad/method/nsga2/population.py], class [Population].

    The file first embeds the data model ([Function], [Population]), the
    numpy/pymoo routines the class calls, and the methods of the class,
    describing each held candidate by its value; module [Shared] then
    embeds registration once more with the candidates as objects on a
    heap, which also covers an object that is registered while it is
    held.  The theorems follow. *)

From Stdlib Require Import String.
From Stdlib Require Import List ZArith Bool Arith Lia Permutation Sorted.
From Stdlib Require QArith.
Import ListNotations.

Set Implicit Arguments.

(** ** Python floats

    Score components and crowding distances are Python floats.  Only
    negation, comparison and the infinity test are applied to them by
    the population class.  A finite double is an integer multiple of
    2^-1074, so [Fin z] stands for the double [z * 2^-1074]; negation
    and the order are exact on this representation.  NaN is not
    represented: evaluators return numeric scores. *)
Module PyFloat.

Inductive t : Type :=
| NegInf : t
| Fin : Z -> t
| PosInf : t.

(** [-x] *)
Definition neg (x : t) : t :=
  match x with
  | NegInf => PosInf
  | Fin z => Fin (- z)
  | PosInf => NegInf
  end.

(** [x == y] *)
Definition eqb (x y : t) : bool :=
  match x, y with
  | NegInf, NegInf => true
  | Fin a, Fin b => Z.eqb a b
  | PosInf, PosInf => true
  | _, _ => false
  end.

(** [x < y] *)
Definition ltb (x y : t) : bool :=
  match x, y with
  | NegInf, NegInf => false
  | NegInf, _ => true
  | Fin _, NegInf => false
  | Fin a, Fin b => Z.ltb a b
  | Fin _, PosInf => true
  | PosInf, _ => false
  end.

(** [x > y] *)
Definition gtb (x y : t) : bool := ltb y x.

(** [x <= y] *)
Definition leb (x y : t) : bool := negb (ltb y x).

(** [math.isinf(x)] / [np.isinf] on one entry *)
Definition isinf (x : t) : bool :=
  match x with
  | Fin _ => false
  | _ => true
  end.

Definition le (x y : t) : Prop := leb x y = true.

End PyFloat.

Abbreviation pyfloat := PyFloat.t.

(** ** Exceptions and results *)

Inductive exn : Type :=
| ValueError
| TypeError
| IndexError
| AttributeError.

Inductive result (A : Type) : Type :=
| Ok : A -> result A
| Raise : exn -> result A.

Arguments Ok {A} _.
Arguments Raise {A} _.

Definition rbind {A B} (r : result A) (k : A -> result B) : result B :=
  match r with
  | Ok a => k a
  | Raise e => Raise e
  end.

(** [l[i]] for a non-negative index: IndexError out of range. *)
Definition getitem {A} (l : list A) (i : nat) : result A :=
  match nth_error l i with
  | Some a => Ok a
  | None => Raise IndexError
  end.

(** numpy fancy indexing [A[I]] with an index array [I] (also the list
    comprehension [[pop[i] for i in survivors]]). *)
Fixpoint take {A} (l : list A) (I : list nat) : result (list A) :=
  match I with
  | [] => Ok []
  | i :: I' =>
      rbind (getitem l i) (fun a =>
      rbind (take l I') (fun r => Ok (a :: r)))
  end.

(** [I[:-n]] for [n > 0]: all but the last [n] entries (the empty list
    when [n >= len(I)]).  The only call site has [n_remove > 0]. *)
Definition drop_last {A} (n : nat) (I : list A) : list A :=
  firstn (length I - n) I.

(** ** Candidates *)

(** Modelled from the spec: the class [Function] ([llm4ad/base/code.py])
    is not under src/; only its import is.  The spec's data model gives
    a candidate a stringifiable [representation] (what [str(f)] returns)
    and a [score] that is absent ([None]) until evaluated.  [rank] and
    [crowding] are the attributes the population attaches during a
    survival computation; [None] means the attribute was never set. *)
Record Function : Type := mkFunction {
  representation : string;
  score : option (list pyfloat);
  rank : option nat;
  crowding : option pyfloat
}.

Definition str (f : Function) : string := representation f.

Definition set_score (f : Function) (s : list pyfloat) : Function :=
  {| representation := representation f; score := Some s;
     rank := rank f; crowding := crowding f |}.

Definition set_rank (f : Function) (k : nat) : Function :=
  {| representation := representation f; score := score f;
     rank := Some k; crowding := crowding f |}.

Definition set_crowding (f : Function) (c : pyfloat) : Function :=
  {| representation := representation f; score := score f;
     rank := rank f; crowding := Some c |}.

(** [[float('-inf'), float('-inf')]] *)
Definition neg_inf_score : list pyfloat := [PyFloat.NegInf; PyFloat.NegInf].

(** [a == b] on two lists of floats. *)
Fixpoint list_eqb (a b : list pyfloat) : bool :=
  match a, b with
  | [], [] => true
  | x :: a', y :: b' => PyFloat.eqb x y && list_eqb a' b'
  | _, _ => false
  end.

(** [a == b] on two scores, each a list of floats or [None]. *)
Definition score_eqb (a b : option (list pyfloat)) : bool :=
  match a, b with
  | None, None => true
  | Some x, Some y => list_eqb x y
  | _, _ => false
  end.

(** ** Lock and attribute accesses

    Each method also yields the sequence of lock operations and of
    accesses to the attributes of [self] that are assigned after
    construction, in program order ([self._pop_size] is constant and
    not recorded). *)

Inductive attribute : Type :=
| Members      (* self._population *)
| Pending      (* self._next_gen_pop *)
| Generation   (* self._generation *).

Inductive access : Type :=
| Acquire                   (* self._lock.acquire() *)
| Release                   (* self._lock.release() *)
| Read (a : attribute)
| Write (a : attribute).

(** ** The population object *)

Record Population : Type := mkPopulation {
  _population : list Function;
  _pop_size : nat;
  _next_gen_pop : list Function;
  _generation : nat
}.

(** [Population(pop_size)] with the default [generation=0], [pop=None]. *)
Definition init (pop_size : nat) : Population :=
  {| _population := []; _pop_size := pop_size;
     _next_gen_pop := []; _generation := 0 |}.

(** [has_duplicate_function] *)
Definition is_duplicate_of (func f : Function) : bool :=
  String.eqb (str f) (str func) || score_eqb (score func) (score f).

Definition has_duplicate_function (self : Population) (func : Function) : bool :=
  existsb (is_duplicate_of func) (_population self)
  || existsb (is_duplicate_of func) (_next_gen_pop self).

(** The attributes [has_duplicate_function] reads: the pending list
    only when no member is a duplicate. *)
Definition has_duplicate_accesses (self : Population) (func : Function)
  : list access :=
  Read Members
  :: (if existsb (is_duplicate_of func) (_population self) then []
      else [Read Pending]).

(** ** numpy and pymoo routines used by the survival computation *)

Definition matrix : Type := list (list pyfloat).

Fixpoint all_scored (objs : list (option (list pyfloat))) : option matrix :=
  match objs with
  | [] => Some []
  | None :: _ => None
  | Some r :: rest =>
      match all_scored rest with
      | Some rows => Some (r :: rows)
      | None => None
      end
  end.

Definition rectangular (rows : matrix) : bool :=
  match rows with
  | [] => true
  | r :: rest => forallb (fun r' => length r' =? length r) rest
  end.

(** [F = -np.array(objs)]: rows of different lengths make [np.array]
    raise ValueError (older numpy versions build an array of lists,
    whose negation raises TypeError); a score that is [None] cannot be
    negated either.  Which exception it is does not matter to the
    handler of line 115.  Otherwise the result is the entrywise
    negation. *)
Definition neg_array (objs : list (option (list pyfloat))) : result matrix :=
  match all_scored objs with
  | None => Raise TypeError
  | Some rows =>
      if rectangular rows then Ok (map (map PyFloat.neg) rows)
      else Raise ValueError
  end.

Definition row (F : matrix) (i : nat) : list pyfloat := nth i F [].

(** Modelled from the spec: pymoo's [NonDominatedSorting] is an external
    package, not under src/.  The spec (4.3, step 3) has it partition the
    pool into ordered non-dominated fronts under standard Pareto
    dominance on the minimisation scale: [a] dominates [b] iff [a] is no
    worse than [b] in every dimension and strictly better in at least
    one; sorting may stop once [n_stop_if_ranked] candidates are ranked. *)
Definition dominates (a b : list pyfloat) : bool :=
  forallb (fun p => PyFloat.leb (fst p) (snd p)) (combine a b)
  && existsb (fun p => PyFloat.ltb (fst p) (snd p)) (combine a b).

(** Modelled from the spec: row [i] is dominated by no row of the pool
    (a member of the pool's first front). *)
Definition non_dominated (F : matrix) (pool : list nat) (i : nat) : bool :=
  negb (existsb (fun j => dominates (row F j) (row F i)) pool).

(** Modelled from the spec: the ordered fronts F0, F1, ... of the pool,
    each the non-dominated rows of what the earlier fronts left.  The
    fuel bounds the number of fronts; the length of the pool suffices
    ([fronts_of_perm]). *)
Fixpoint fronts_of (fuel : nat) (F : matrix) (pool : list nat) : list (list nat) :=
  match fuel with
  | 0 => []
  | S fuel' =>
      match pool with
      | [] => []
      | _ :: _ =>
          filter (non_dominated F pool) pool
          :: fronts_of fuel' F (filter (fun i => negb (non_dominated F pool i)) pool)
      end
  end.

(** Modelled from the spec: the fronts of all rows of [F], as lists of
    row indices. *)
Definition non_dominated_sort (F : matrix) : list (list nat) :=
  fronts_of (length F) F (seq 0 (length F)).

(** Modelled from the spec: fronts are produced until [n_stop]
    candidates are ranked; the front that reaches the count is kept
    whole. *)
Fixpoint stop_if_ranked (n_stop n_ranked : nat) (fronts : list (list nat))
  : list (list nat) :=
  match fronts with
  | [] => []
  | front :: rest =>
      let n_ranked' := n_ranked + length front in
      front :: (if n_stop <=? n_ranked' then []
                else stop_if_ranked n_stop n_ranked' rest)
  end.

(** Modelled from the spec: [NonDominatedSorting().do(F,
    n_stop_if_ranked=n)] of pymoo, as line 72 calls it. *)
Definition NonDominatedSorting_do (F : matrix) (n_stop_if_ranked : nat)
  : list (list nat) :=
  stop_if_ranked n_stop_if_ranked 0 (non_dominated_sort F).

(** The dominance of the claims, on the maximisation scale of the stored
    scores: [a] is no worse than [b] in every dimension (higher is
    better) and strictly better in at least one. *)
Definition pareto_dominates_max (a b : list pyfloat) : bool :=
  forallb (fun p => PyFloat.leb (snd p) (fst p)) (combine a b)
  && existsb (fun p => PyFloat.ltb (snd p) (fst p)) (combine a b).

(** Candidate [i] of the pool is dominated by no candidate of the pool. *)
Definition non_dominated_max (rows : matrix) (pool : list nat) (i : nat) : bool :=
  negb (existsb (fun j => pareto_dominates_max (row rows j) (row rows i)) pool).

(** ** Sample instances of the external routines

    Concrete stand-ins for numpy's random generator, [np.argsort] and
    pymoo's crowding function; the theorems below hold for every
    instance meeting the stated contracts, and these are used to run
    the model on concrete inputs. *)
Module Sample.

(** The generator state is a counter; odd states reverse. *)
Definition random_permutation (g n : nat) : list nat * nat :=
  (if Nat.odd g then rev (seq 0 n) else seq 0 n, S g).

(** Two distinct positions, the first two in some order. *)
Definition random_choice (g n : nat) : (nat * nat) * nat :=
  (if Nat.odd g then (1, 0) else (0, 1), S g).

Fixpoint insert_by (A : list pyfloat) (i : nat) (l : list nat) : list nat :=
  match l with
  | [] => [i]
  | j :: l' =>
      if PyFloat.leb (nth i A PyFloat.NegInf) (nth j A PyFloat.NegInf)
      then i :: l else j :: insert_by A i l'
  end.

(** Insertion sort of the positions by their values. *)
Definition argsort (A : list pyfloat) : list nat :=
  fold_right (insert_by A) [] (seq 0 (length A)).

(** Boundary-style stand-in: up to two points are infinitely
    crowded, otherwise a point's first coordinate is used. *)
Definition crowding (F : matrix) (n_remove : nat) : list pyfloat :=
  if length F <=? 2 then map (fun _ => PyFloat.PosInf) F
  else map (fun r => nth 0 r PyFloat.PosInf) F.

End Sample.

(** ** The methods of [Population] *)

Section Population.

(** State of numpy's global random generator. *)
Variable rng : Type.
(** [np.random.permutation(n)] *)
Variable random_permutation : rng -> nat -> list nat * rng.
(** The positions drawn by [np.random.choice(funcs, size=2, replace=False)]
    on [n = len(funcs)] entries. *)
Variable random_choice : rng -> nat -> (nat * nat) * rng.
(** [np.argsort(A, kind='quicksort')] *)
Variable argsort : list pyfloat -> list nat.
(** [get_crowding_function("cd").do(F, n_remove=n)] *)
Variable crowding_distance : matrix -> nat -> list pyfloat.

(** *** A state and exception monad for the survival computation

    The pool [pop] holds the candidate objects themselves: the
    entries of [pop] are the objects in [self._population] and
    [self._next_gen_pop], so attribute writes made before an
    exception remain visible.  Distinct positions are distinct
    objects (every registered candidate is a fresh object). *)
Record store : Type := mkStore {
  objects : list Function;
  seed : rng
}.

Definition M (A : Type) : Type := store -> store * result A.

Definition ret {A} (a : A) : M A := fun s => (s, Ok a).

Definition bind {A B} (m : M A) (k : A -> M B) : M B :=
  fun s =>
    match m s with
    | (s', Ok a) => k a s'
    | (s', Raise e) => (s', Raise e)
    end.

Definition lift {A} (r : result A) : M A := fun s => (s, r).

Notation "x <- m ;; k" := (bind m (fun x => k))
  (at level 61, m at next level, right associativity).
Notation "m ;;; k" := (bind m (fun _ => k))
  (at level 61, right associativity).

Definition permutation (n : nat) : M (list nat) :=
  fun s =>
    let '(P, g) := random_permutation (seed s) n in
    ({| objects := objects s; seed := g |}, Ok P).

(** [pop[i].attr = v] *)
Definition setattr (i : nat) (upd : Function -> Function) : M unit :=
  fun s =>
    match nth_error (objects s) i with
    | Some f =>
        ({| objects := firstn i (objects s) ++ upd f :: skipn (S i) (objects s);
            seed := seed s |}, Ok tt)
    | None => (s, Raise IndexError)
    end.

(** [randomized_argsort(A, order='descending', method='numpy')]:
    [P = np.random.permutation(len(A)); I = np.argsort(A[P]); I = P[I]],
    then [np.flip(I)]. *)
Definition randomized_argsort (A : list pyfloat) : M (list nat) :=
  P <- permutation (length A) ;;
  AP <- lift (take A P) ;;
  I <- lift (take P (argsort AP)) ;;
  ret (rev I).

(** [for j, i in enumerate(front): pop[i].rank = k;
    pop[i].crowding = crowding_of_front[j]], from position [j] on. *)
Fixpoint save_rank_crowding (k : nat) (crowding_of_front : list pyfloat)
         (j : nat) (front : list nat) : M unit :=
  match front with
  | [] => ret tt
  | i :: rest =>
      setattr i (fun f => set_rank f k) ;;;
      c <- lift (getitem crowding_of_front j) ;;
      setattr i (fun f => set_crowding f c) ;;;
      save_rank_crowding k crowding_of_front (S j) rest
  end.

(** The positions [I] of the front that survive, with the crowding
    distances of the front. *)
Definition crowding_and_positions (pop_size : nat) (F : matrix)
           (front survivors : list nat) : M (list pyfloat * list nat) :=
  let I := seq 0 (length front) in
  if pop_size <? length survivors + length I then
    let n_remove := length survivors + length front - pop_size in
    Ff <- lift (take F front) ;;
    let crowding_of_front := crowding_distance Ff n_remove in
    I <- randomized_argsort crowding_of_front ;;
    ret (crowding_of_front, drop_last n_remove I)
  else
    Ff <- lift (take F front) ;;
    ret (crowding_distance Ff 0, I).

(** One iteration of [for k, front in enumerate(fronts)]. *)
Definition survival_front (pop_size k : nat) (F : matrix)
           (front survivors : list nat) : M (list nat) :=
  cI <- crowding_and_positions pop_size F front survivors ;;
  save_rank_crowding k (fst cI) 0 front ;;;
  sel <- lift (take front (snd cI)) ;;
  ret (survivors ++ sel).

Fixpoint survival_loop (pop_size k : nat) (F : matrix)
         (fronts : list (list nat)) (survivors : list nat) : M (list nat) :=
  match fronts with
  | [] => ret survivors
  | front :: rest =>
      survivors' <- survival_front pop_size k F front survivors ;;
      survival_loop pop_size (S k) F rest survivors'
  end.

(** Lines 62-111: the survival computation on [pop]; the result is the
    list assigned to [self._population]. *)
Definition survival (pop_size : nat) : M (list Function) :=
  pop <- (fun s => (s, Ok (objects s))) ;;
  F <- lift (neg_array (map score pop)) ;;
  survivors <- survival_loop pop_size 0 F (NonDominatedSorting_do F pop_size) [] ;;
  pop' <- (fun s => (s, Ok (objects s))) ;;
  lift (take pop' survivors).

Record outcome (A : Type) : Type := mkOutcome {
  value : A;
  rnd : rng;
  trace : list access
}.

(** Lines 51-52: [if func.score is None: func.score = [-inf, -inf]]. *)
Definition with_default_score (func : Function) : Function :=
  match score func with
  | None => set_score func neg_inf_score
  | Some _ => func
  end.

(** The candidate as appended to [self._next_gen_pop] (lines 51-56),
    for a candidate object that the population does not hold yet: the
    writes of lines 52 and 56 then show on this candidate only.  An
    object that is already held is registered by
    [Shared.register_function]. *)
Definition staged (self : Population) (func : Function) : Function :=
  let func := with_default_score func in
  if has_duplicate_function self func then set_score func neg_inf_score
  else func.

(** Lines 58-113: the append and, once the pending list has reached the
    capacity, the survival computation with its exception handler. *)
Definition append_and_update (self : Population) (g : rng) (func : Function)
  : outcome Population :=
  let next_gen_pop := _next_gen_pop self ++ [func] in
  if _pop_size self <=? length next_gen_pop then
    let pop := _population self ++ next_gen_pop in
    match survival (_pop_size self) {| objects := pop; seed := g |} with
    | (s, Ok survivors) =>
        {| value := {| _population := survivors;
                       _pop_size := _pop_size self;
                       _next_gen_pop := [];
                       _generation := _generation self + 1 |};
           rnd := seed s;
           trace := [Write Pending; Read Pending; Read Members; Read Pending;
                     Write Members; Write Pending; Read Generation;
                     Write Generation] |}
    | (s, Raise _) =>
        (* except Exception: return -- the attributes of [self] are not
           assigned; the objects they hold are those of the pool *)
        {| value := {| _population := firstn (length (_population self)) (objects s);
                       _pop_size := _pop_size self;
                       _next_gen_pop := skipn (length (_population self)) (objects s);
                       _generation := _generation self |};
           rnd := seed s;
           trace := [Write Pending; Read Pending; Read Members; Read Pending] |}
    end
  else
    {| value := {| _population := _population self;
                   _pop_size := _pop_size self;
                   _next_gen_pop := next_gen_pop;
                   _generation := _generation self |};
       rnd := g;
       trace := [Write Pending; Read Pending] |}.

Definition is_none {A} (o : option A) : bool :=
  match o with
  | None => true
  | Some _ => false
  end.

(** [register_function]: the early return of line 48, else the critical
    section between [acquire] (line 54) and the [release] of the
    [finally] clause (line 118). *)
Definition register_function (self : Population) (g : rng) (func : Function)
  : outcome Population :=
  if (_generation self =? 0) && is_none (score func)
  then {| value := self; rnd := g; trace := [Read Generation] |}
  else
    let o := append_and_update self g (staged self func) in
    {| value := value o;
       rnd := rnd o;
       trace := [Read Generation; Acquire]
                ++ has_duplicate_accesses self (with_default_score func)
                ++ trace o ++ [Release] |}.

(** [not np.isinf(np.array(f.score)).any()]; [np.isinf] raises
    TypeError on a score that is [None]. *)
Definition is_valid (f : Function) : result bool :=
  match score f with
  | None => Raise TypeError
  | Some s => Ok (negb (existsb PyFloat.isinf s))
  end.

Fixpoint valid_functions (l : list Function) : result (list Function) :=
  match l with
  | [] => Ok []
  | f :: l' =>
      rbind (is_valid f) (fun v =>
      rbind (valid_functions l') (fun r =>
      Ok (if v then f :: r else r)))
  end.

(** Reading an attribute that was never set raises AttributeError. *)
Definition getattr {A} (a : option A) : result A :=
  match a with
  | Some v => Ok v
  | None => Raise AttributeError
  end.

Definition tournament (p0 p1 : Function) : result Function :=
  rbind (getattr (rank p0)) (fun r0 =>
  rbind (getattr (rank p1)) (fun r1 =>
  if r0 <? r1 then Ok p0
  else if r1 <? r0 then Ok p1
  else
    rbind (getattr (crowding p0)) (fun c0 =>
    rbind (getattr (crowding p1)) (fun c1 =>
    if PyFloat.gtb c0 c1 then Ok p0 else Ok p1)))).

(** [selection] *)
Definition selection (self : Population) (g : rng) : outcome (result Function) :=
  match valid_functions (_population self) with
  | Raise e => {| value := Raise e; rnd := g; trace := [Read Members] |}
  | Ok funcs =>
      if 1 <? length funcs then
        let '((i, j), g') := random_choice g (length funcs) in
        {| value :=
             rbind (getitem funcs i) (fun p0 =>
             rbind (getitem funcs j) (fun p1 =>
             tournament p0 p1));
           rnd := g'; trace := [Read Members] |}
      else
        {| value := getitem funcs 0; rnd := g; trace := [Read Members] |}
  end.

(** A run: the candidates registered one after the other. *)
Fixpoint register_all (self : Population) (g : rng) (funcs : list Function)
  : Population * rng :=
  match funcs with
  | [] => (self, g)
  | func :: rest =>
      let o := register_function self g func in
      register_all (value o) (rnd o) rest
  end.

End Population.

(** ** Concrete candidates and runs *)
Module Ex.

Definition scored (name : string) (sc : list Z) : Function :=
  mkFunction name (Some (map PyFloat.Fin sc)) None None.

Definition unscored (name : string) : Function :=
  mkFunction name None None None.

Definition register : Population -> nat -> Function -> outcome nat Population :=
  register_function Sample.random_permutation Sample.argsort Sample.crowding.

Definition run : Population -> nat -> list Function -> Population * nat :=
  register_all Sample.random_permutation Sample.argsort Sample.crowding.

Definition select : Population -> nat -> outcome nat (result Function) :=
  selection Sample.random_choice.

(** Four bi-objective candidates: (3,1), (1,3), (2,2), (0,0). *)
Definition a : Function := scored "a" [3; 1]%Z.
Definition b : Function := scored "b" [1; 3]%Z.
Definition c : Function := scored "c" [2; 2]%Z.
Definition d : Function := scored "d" [0; 0]%Z.

(** Two candidates of a run with three objectives, and one whose
    evaluation gave no score. *)
Definition x3 : Function := scored "x" [1; 2; 3]%Z.
Definition y3 : Function := scored "y" [2; 1; 3]%Z.
Definition u : Function := unscored "u".
Definition v : Function := unscored "v".

(** A population of capacity 2 holding [a] in its pending list. *)
Definition one_pending : Population :=
  {| _population := []; _pop_size := 2; _next_gen_pop := [a]; _generation := 0 |}.


(** The three-objective run after its first generation, capacity 2. *)
Definition three_objectives : Population := fst (run (init 2) 0 [x3; y3]).

(** A three-objective run with capacity 1 after its first generation. *)
Definition first_generation : Population := fst (run (init 1) 0 [x3]).


(** Capacity 2 after [a] and [b]: two valid members. *)
Definition two_valid : Population := fst (run (init 2) 0 [a; b]).


(** The same run with capacity 1, after [x3] and the unscored [u]. *)
Definition jammed : Population := fst (run (init 1) 0 [x3; u]).

End Ex.

(** ** Predicates used in the statements *)

(** All rows of the matrix have one length. *)
Definition uniform (F : matrix) : Prop :=
  forall i j, i < length F -> j < length F -> length (row F i) = length (row F j).

(** [f'] is [f] after some attribute writes of the survival computation:
    same representation and score, and attributes once set stay set. *)
Definition updated (f f' : Function) : Prop :=
  representation f' = representation f /\ score f' = score f /\
  (rank f <> None -> rank f' <> None) /\
  (crowding f <> None -> crowding f' <> None).

(** A candidate the tournament can read: scored, ranked and crowded. *)
Definition evaluated (f : Function) : Prop :=
  score f <> None /\ rank f <> None /\ crowding f <> None.

(** Descending order of the positions [I] by the values of [A]. *)
Definition descending (A : list pyfloat) (I : list nat) : Prop :=
  StronglySorted
    (fun t u => PyFloat.le (nth u A PyFloat.NegInf) (nth t A PyFloat.NegInf)) I.

(** An object whose rank and crowding attributes are set. *)
Definition ranked_at (objs : list Function) (i : nat) : Prop :=
  exists f, nth_error objs i = Some f /\ rank f <> None /\ crowding f <> None.

(** A member is valid for parent selection when its score has no
    infinite component. *)
Definition valid (f : Function) : bool :=
  match score f with
  | Some sc => negb (existsb PyFloat.isinf sc)
  | None => false
  end.

(** Lock discipline of a sequence of accesses, [held] telling whether
    the lock is held at its start: the lock is acquired only when free
    and released only when held, every write to an attribute of [self]
    happens while it is held, and it is free at the end. *)
Fixpoint under_lock (held : bool) (t : list access) : bool :=
  match t with
  | [] => negb held
  | Acquire :: t' => negb held && under_lock true t'
  | Release :: t' => held && under_lock false t'
  | Write _ :: t' => held && under_lock held t'
  | Read _ :: t' => under_lock held t'
  end.

(** The accesses contain no lock operation. *)
Definition no_lock_operation (t : list access) : bool :=
  forallb (fun a => match a with
                    | Acquire | Release => false
                    | _ => true
                    end) t.

(** Every read of [self._population] happens while the lock is held. *)
Fixpoint members_read_under_lock (held : bool) (t : list access) : bool :=
  match t with
  | [] => true
  | Acquire :: t' => members_read_under_lock true t'
  | Release :: t' => members_read_under_lock false t'
  | Read Members :: t' => held && members_read_under_lock held t'
  | _ :: t' => members_read_under_lock held t'
  end.

(** ** The constructor and the container methods *)

(** The [pop] argument of [__init__]: [None], a list of candidates, or
    another population. *)
Inductive pop_argument : Type :=
| PopNone
| PopList (pop : list Function)
| PopPopulation (pop : Population).

(** [__init__(pop_size, generation, pop)] (lines 15-26). *)
Definition __init__ (pop_size generation : nat) (pop : pop_argument) : Population :=
  {| _population := match pop with
                    | PopNone => []
                    | PopList l => l
                    | PopPopulation p => _population p
                    end;
     _pop_size := pop_size;
     _next_gen_pop := [];
     _generation := generation |}.

(** [__len__] *)
Definition __len__ (self : Population) : nat := length (_population self).

(** The position a Python list of length [n] gives to the integer index
    [i]: [i] itself from 0 to [n-1], [n+i] from [-n] to [-1], IndexError
    elsewhere. *)
Definition list_index (n : nat) (i : Z) : result nat :=
  if (0 <=? i)%Z then
    if (i <? Z.of_nat n)%Z then Ok (Z.to_nat i) else Raise IndexError
  else
    if (- Z.of_nat n <=? i)%Z then Ok (Z.to_nat (Z.of_nat n + i))
    else Raise IndexError.

(** [__getitem__] on an integer index. *)
Definition __getitem__ (self : Population) (item : Z) : result Function :=
  rbind (list_index (length (_population self)) item)
        (fun k => getitem (_population self) k).

(** [__setitem__] on an integer index: [self._population[key] = value]. *)
Definition __setitem__ (self : Population) (key : Z) (value : Function)
  : result Population :=
  rbind (list_index (length (_population self)) key)
        (fun k =>
           Ok {| _population := firstn k (_population self) ++ value
                                :: skipn (S k) (_population self);
                 _pop_size := _pop_size self;
                 _next_gen_pop := _next_gen_pop self;
                 _generation := _generation self |}).

(** The score of a candidate as a row (empty when it has none). *)
Definition score_row (f : Function) : list pyfloat :=
  match score f with
  | Some r => r
  | None => []
  end.

(** The rank attribute as a number (0 when it was never set). *)
Definition rank_index (f : Function) : nat :=
  match rank f with
  | Some k => k
  | None => 0
  end.

(** The score is a vector of two floats. *)
Definition two_objectives (f : Function) : Prop :=
  exists x y, score f = Some [x; y].

(** What the loop of lines 74-109 keeps of each front, [s] candidates
    having survived before: a front that fits is kept whole, a front
    that overflows leaves [cap - s] of its candidates. *)
Inductive taken (cap : nat) : nat -> list (list nat) -> list (list nat) -> Prop :=
| taken_nil : forall s, taken cap s [] []
| taken_whole : forall s front fronts sels,
    s + length front <= cap ->
    taken cap (s + length front) fronts sels ->
    taken cap s (front :: fronts) (front :: sels)
| taken_part : forall s front fronts sel sels,
    cap < s + length front ->
    incl sel front ->
    (NoDup front -> NoDup sel) ->
    length sel = cap - s ->
    taken cap (s + length sel) fronts sels ->
    taken cap s (front :: fronts) (sel :: sels).


(** The candidate carries the invalid score [[-inf, -inf]]. *)
Definition neutralized (f : Function) : bool :=
  score_eqb (score f) (Some neg_inf_score).


(** No candidate of the pool dominates [f] on the maximisation scale. *)
Definition pareto_optimal (pool : list Function) (f : Function) : bool :=
  negb (existsb (fun g0 => pareto_dominates_max (score_row g0) (score_row f)) pool).


(** The candidates a population holds: its members, then its pending
    list. *)
Definition held (self : Population) : list Function :=
  _population self ++ _next_gen_pop self.

(** No two candidates at different positions of [l] share their string
    or their score, unless one of them carries the score
    [[-inf, -inf]]. *)
Definition unique_valid (l : list Function) : Prop :=
  forall i j f f',
    i <> j -> nth_error l i = Some f -> nth_error l j = Some f' ->
    neutralized f = false -> neutralized f' = false ->
    str f <> str f' /\ score f <> score f'.


(** * Candidates as shared objects

    [self._population] and [self._next_gen_pop] hold references to
    candidate objects, and [register_function] writes to the object it
    is given (lines 52 and 56) and to the objects of the pool (lines
    105 and 106).  The definitions above describe every held candidate
    by its value, which is exact as long as every registered candidate
    is an object the population does not hold yet (proved below for
    every run of such registrations).  In this module the candidate
    objects live in a heap and the lists hold their addresses, so that
    an object can be registered again and a write to it shows wherever
    it is held. *)
Module Shared.

(** The population with the objects it refers to: [heap] holds the
    candidate objects, [members] is [self._population], [pending] is
    [self._next_gen_pop], both as lists of addresses. *)
Record t : Type := mk {
  heap : list Function;
  members : list nat;
  pop_size : nat;
  pending : list nat;
  generation : nat
}.

Definition null : Function := mkFunction EmptyString None None None.

(** The object at address [a]. *)
Definition object (h : list Function) (a : nat) : Function := nth a h null.

(** The objects a list of references refers to. *)
Definition load (h : list Function) (l : list nat) : list Function :=
  map (object h) l.

(** An attribute write to the object at address [a], which becomes [f]. *)
Definition write (h : list Function) (a : nat) (f : Function) : list Function :=
  if a <? length h then firstn a h ++ f :: skipn (S a) h else h.

Definition set_heap (self : t) (h : list Function) : t :=
  {| heap := h; members := members self; pop_size := pop_size self;
     pending := pending self; generation := generation self |}.

(** The population as the value model sees it: every reference replaced
    by the object it refers to. *)
Definition view (self : t) : Population :=
  {| _population := load (heap self) (members self);
     _pop_size := pop_size self;
     _next_gen_pop := load (heap self) (pending self);
     _generation := generation self |}.

(** The addresses the population holds: members, then pending. *)
Definition held (self : t) : list nat := members self ++ pending self.

(** Every held address is the address of an object. *)
Definition well_formed (self : t) : Prop :=
  Forall (fun a => a < length (heap self)) (held self).

(** A new object enters the program: its address is the next free
    one. *)
Definition alloc (self : t) (f : Function) : t * nat :=
  (set_heap self (heap self ++ [f]), length (heap self)).

Section Methods.

Variable rng : Type.
Variable random_permutation : rng -> nat -> list nat * rng.
Variable argsort : list pyfloat -> list nat.
Variable crowding_distance : matrix -> nat -> list pyfloat.

(** [pop[i].attr = v], where [pop[i]] is the object at address
    [pool[i]]. *)
Definition setattr (pool : list nat) (i : nat) (upd : Function -> Function)
  : M rng unit :=
  bind (lift (getitem pool i)) (fun a => setattr a upd).

(** Lines 104-106. *)
Fixpoint save_rank_crowding (pool : list nat) (k : nat)
         (crowding_of_front : list pyfloat) (j : nat) (front : list nat)
  : M rng unit :=
  match front with
  | [] => ret tt
  | i :: rest =>
      bind (setattr pool i (fun f => set_rank f k)) (fun _ =>
      bind (lift (getitem crowding_of_front j)) (fun c =>
      bind (setattr pool i (fun f => set_crowding f c)) (fun _ =>
      save_rank_crowding pool k crowding_of_front (S j) rest)))
  end.

(** One iteration of [for k, front in enumerate(fronts)]. *)
Definition survival_front (pool : list nat) (pop_size k : nat) (F : matrix)
           (front survivors : list nat) : M rng (list nat) :=
  bind (crowding_and_positions random_permutation argsort crowding_distance
                               pop_size F front survivors) (fun cI =>
  bind (save_rank_crowding pool k (fst cI) 0 front) (fun _ =>
  bind (lift (take front (snd cI))) (fun sel =>
  ret (survivors ++ sel)))).

Fixpoint survival_loop (pool : list nat) (pop_size k : nat) (F : matrix)
         (fronts : list (list nat)) (survivors : list nat) : M rng (list nat) :=
  match fronts with
  | [] => ret survivors
  | front :: rest =>
      bind (survival_front pool pop_size k F front survivors) (fun survivors' =>
      survival_loop pool pop_size (S k) F rest survivors')
  end.

(** Lines 62-111 on the pool [pop], a list of references: the result
    is the list of references assigned to [self._population]. *)
Definition survival (pool : list nat) (pop_size : nat) : M rng (list nat) :=
  bind (fun s => (s, Ok (objects s))) (fun h =>
  bind (lift (neg_array (map (fun a => score (object h a)) pool))) (fun F =>
  bind (survival_loop pool pop_size 0 F (NonDominatedSorting_do F pop_size) [])
       (fun survivors =>
  lift (take pool survivors)))).

(** Lines 58-113: the append of the reference and, once the pending
    list has reached the capacity, the survival computation with its
    exception handler. *)
Definition append_and_update (self : t) (g : rng) (a : nat) : t * rng :=
  let next_gen_pop := pending self ++ [a] in
  if pop_size self <=? length next_gen_pop then
    let pop := members self ++ next_gen_pop in
    match survival pop (pop_size self) {| objects := heap self; seed := g |} with
    | (s, Ok survivors) =>
        ({| heap := objects s; members := survivors; pop_size := pop_size self;
            pending := []; generation := generation self + 1 |}, seed s)
    | (s, Raise _) =>
        ({| heap := objects s; members := members self; pop_size := pop_size self;
            pending := next_gen_pop; generation := generation self |}, seed s)
    end
  else
    ({| heap := heap self; members := members self; pop_size := pop_size self;
        pending := next_gen_pop; generation := generation self |}, g).

(** What lines 51-56 leave in the heap: the object at [a] gets the
    score [[-inf, -inf]] when it has none, and again when the
    population holds a duplicate of it; the duplicate check runs over
    the held objects, the object itself among them when it is held. *)
Definition stage (self : t) (a : nat) : list Function :=
  let h1 := write (heap self) a (with_default_score (object (heap self) a)) in
  if has_duplicate_function (view (set_heap self h1)) (object h1 a)
  then write h1 a (set_score (object h1 a) neg_inf_score)
  else h1.

(** [register_function(func)], [func] being the object at address
    [a]. *)
Definition register_function (self : t) (g : rng) (a : nat) : t * rng :=
  if (generation self =? 0) && is_none (score (object (heap self) a))
  then (self, g)
  else append_and_update (set_heap self (stage self a)) g a.

(** A run: the objects at the given addresses registered one after the
    other. *)
Fixpoint register_all (self : t) (g : rng) (addresses : list nat) : t * rng :=
  match addresses with
  | [] => (self, g)
  | a :: rest =>
      let '(self', g') := register_function self g a in
      register_all self' g' rest
  end.

End Methods.

End Shared.


(** A computation on the store leaves every object with its string and
    its score (it may set rank and crowding). *)
Definition preserving {rng A : Type} (m : M rng A) : Prop :=
  forall s, Forall2 updated (objects s) (objects (fst (m s))).


(** A store of the value model describes a store of shared objects
    through the pool: the generator states coincide, and position [i]
    of the value pool holds the object at address [pool[i]]. *)
Definition represents {rng : Type} (pool : list nat) (sv sh : store rng) : Prop :=
  seed sv = seed sh /\
  objects sv = Shared.load (objects sh) pool /\
  Forall (fun a => a < length (objects sh)) pool.

(** A computation of the value model and one on shared objects agree:
    from stores that correspond they give the same result and reach
    stores that correspond. *)
Definition agree {rng A : Type} (pool : list nat) (mv mh : M rng A) : Prop :=
  forall sv sh,
    represents pool sv sh ->
    snd (mv sv) = snd (mh sh) /\ represents pool (fst (mv sv)) (fst (mh sh)).

(** A computation on shared objects writes to objects of the pool
    only. *)
Definition confined {rng A : Type} (pool : list nat) (m : M rng A) : Prop :=
  forall s b, ~ In b pool ->
              nth_error (objects (fst (m s))) b = nth_error (objects s) b.


(** ** More concrete populations *)
Module Cases.

(** Capacity 2 with the dominated candidate (0,0) pending. *)
Definition dominated_pending : Population :=
  {| _population := []; _pop_size := 2; _next_gen_pop := [Ex.d];
     _generation := 0 |}.

(** Capacity 3 after (3,1), (1,3), (2,2), (0,0) and an unscored
    candidate: three members, two pending, one of them invalid. *)
Definition filler_pending : Population :=
  fst (Ex.run (init 3) 0 [Ex.a; Ex.b; Ex.c; Ex.d; Ex.u]).

(** The generator state reached by that run. *)
Definition filler_seed : nat :=
  snd (Ex.run (init 3) 0 [Ex.a; Ex.b; Ex.c; Ex.d; Ex.u]).

(** A second candidate with the string of [Ex.b] and another score. *)
Definition b_again : Function := Ex.scored "b" [7; 7]%Z.

(** Two ranked candidates of one front, the second more crowded. *)
Definition ranked_low : Function :=
  mkFunction "p" (Some [PyFloat.Fin 1; PyFloat.Fin 3]) (Some 1)
             (Some (PyFloat.Fin 2)).
Definition ranked_high : Function :=
  mkFunction "q" (Some [PyFloat.Fin 3; PyFloat.Fin 1]) (Some 1)
             (Some PyFloat.PosInf).

(** [Ex.two_valid] after [self[-1] = Ex.c]. *)
Definition last_replaced : Population :=
  {| _population := firstn 1 (_population Ex.two_valid) ++ [Ex.c];
     _pop_size := 2; _next_gen_pop := []; _generation := 1 |}.

(** Capacity 2 after (3,1), (1,3) and (2,2): two members and (2,2)
    pending, so that the next candidate triggers a survival computation
    whose first front has three candidates. *)
Definition third_pending : Population :=
  fst (Ex.run (init 2) 0 [Ex.a; Ex.b; Ex.c]).

(** The generator state reached by that run. *)
Definition third_seed : nat :=
  snd (Ex.run (init 2) 0 [Ex.a; Ex.b; Ex.c]).

(** Registration of shared objects with the sample routines. *)
Definition register_object : Shared.t -> nat -> nat -> Shared.t * nat :=
  Shared.register_function Sample.random_permutation Sample.argsort Sample.crowding.

Definition register_objects : Shared.t -> nat -> list nat -> Shared.t * nat :=
  Shared.register_all Sample.random_permutation Sample.argsort Sample.crowding.

(** Two objects, (3,1) and another candidate with the same score;
    capacity 3, the first one pending. *)
Definition shared_roomy : Shared.t :=
  {| Shared.heap := [Ex.a; Ex.scored "b" [3; 1]%Z]; Shared.members := [];
     Shared.pop_size := 3; Shared.pending := [0]; Shared.generation := 0 |}.

(** The population [Ex.jammed] with its objects, and two more objects
    that it does not hold. *)
Definition shared_jammed : Shared.t :=
  {| Shared.heap := _population Ex.jammed ++ _next_gen_pop Ex.jammed
                    ++ [Ex.v; Ex.y3];
     Shared.members := [0]; Shared.pop_size := 1; Shared.pending := [1];
     Shared.generation := 1 |}.

(** A population of shared objects before any registration, with the
    four candidates (3,1), (1,3), (2,2), (0,0) as objects 0 to 3. *)
Definition shared_init : Shared.t :=
  {| Shared.heap := [Ex.a; Ex.b; Ex.c; Ex.d]; Shared.members := [];
     Shared.pop_size := 2; Shared.pending := []; Shared.generation := 0 |}.

End Cases.


(** ** The draw of [np.random.choice] *)





(** [members] are the candidates of [pool] at the positions [idx], in
    that order, each as the survival computation left it. *)
Definition installed (pool : list Function) (idx : list nat)
           (members : list Function) : Prop :=
  Forall2 (fun i f' => exists f, nth_error pool i = Some f /\ updated f f')
          idx members.

(** * Properties *)

(** ** The order on floats *)

Lemma pyfloat_eqb_eq (x y : pyfloat) : PyFloat.eqb x y = true <-> x = y.
Proof.
  destruct x, y; simpl; split; intros H; try congruence; try discriminate.
  - apply Z.eqb_eq in H. now subst.
  - inversion H. apply Z.eqb_refl.
Qed.

Lemma pyfloat_ltb_irrefl (x : pyfloat) : PyFloat.ltb x x = false.
Proof. destruct x; simpl; auto using Z.ltb_irrefl. Qed.

Lemma pyfloat_leb_refl (x : pyfloat) : PyFloat.leb x x = true.
Proof. unfold PyFloat.leb. now rewrite pyfloat_ltb_irrefl. Qed.

Ltac float_cases :=
  unfold PyFloat.gtb, PyFloat.leb, PyFloat.le in *; simpl in *;
  repeat match goal with
         | H : negb _ = true |- _ => apply negb_true_iff in H
         | H : negb _ = false |- _ => apply negb_false_iff in H
         | |- negb _ = true => apply negb_true_iff
         | |- negb _ = false => apply negb_false_iff
         | H : Z.ltb _ _ = true |- _ => apply Z.ltb_lt in H
         | H : Z.ltb _ _ = false |- _ => apply Z.ltb_ge in H
         | |- Z.ltb _ _ = true => apply Z.ltb_lt
         | |- Z.ltb _ _ = false => apply Z.ltb_ge
         end;
  try congruence; try lia.

Lemma pyfloat_leb_trans (x y z : pyfloat) :
  PyFloat.leb x y = true -> PyFloat.leb y z = true -> PyFloat.leb x z = true.
Proof. destruct x, y, z; intros; float_cases. Qed.

Lemma pyfloat_ltb_leb_trans (x y z : pyfloat) :
  PyFloat.ltb x y = true -> PyFloat.leb y z = true -> PyFloat.ltb x z = true.
Proof. destruct x, y, z; intros; float_cases. Qed.

Lemma pyfloat_leb_ltb_trans (x y z : pyfloat) :
  PyFloat.leb x y = true -> PyFloat.ltb y z = true -> PyFloat.ltb x z = true.
Proof. destruct x, y, z; intros; float_cases. Qed.

Lemma pyfloat_ltb_leb_false (x y : pyfloat) :
  PyFloat.ltb x y = true -> PyFloat.leb y x = false.
Proof. destruct x, y; intros; float_cases. Qed.

Lemma pyfloat_leb_total (x y : pyfloat) :
  PyFloat.leb x y = true \/ PyFloat.leb y x = true.
Proof.
  destruct x, y; simpl; auto.
  unfold PyFloat.leb; simpl.
  destruct (Z.ltb_spec z0 z), (Z.ltb_spec z z0); auto; lia.
Qed.

Lemma pyfloat_neg_ltb (x y : pyfloat) :
  PyFloat.ltb (PyFloat.neg x) (PyFloat.neg y) = PyFloat.ltb y x.
Proof.
  destruct x, y; simpl; auto.
  destruct (Z.ltb_spec (- z) (- z0)), (Z.ltb_spec z0 z); auto; lia.
Qed.

Lemma pyfloat_neg_leb (x y : pyfloat) :
  PyFloat.leb (PyFloat.neg x) (PyFloat.neg y) = PyFloat.leb y x.
Proof. unfold PyFloat.leb. now rewrite pyfloat_neg_ltb. Qed.

Lemma list_eqb_eq (a b : list pyfloat) : list_eqb a b = true <-> a = b.
Proof.
  revert b; induction a as [|x a IH]; intros [|y b]; simpl;
    split; intros H; try congruence; try discriminate.
  - apply andb_true_iff in H as [Hx Hab].
    apply pyfloat_eqb_eq in Hx. apply IH in Hab. now subst.
  - inversion H; subst. apply andb_true_iff; split.
    + now apply pyfloat_eqb_eq.
    + now apply IH.
Qed.

Lemma score_eqb_eq (a b : option (list pyfloat)) : score_eqb a b = true <-> a = b.
Proof.
  destruct a as [a|], b as [b|]; simpl; split; intros H;
    try congruence; try discriminate.
  - apply list_eqb_eq in H. now subst.
  - inversion H. now apply list_eqb_eq.
Qed.

(** ** Dominance is a strict partial order on rows of one length *)

Lemma dominates_irrefl (a : list pyfloat) : dominates a a = false.
Proof.
  unfold dominates. apply andb_false_iff. right.
  induction a as [|x a IH]; simpl; auto.
  now rewrite pyfloat_ltb_irrefl.
Qed.

Lemma dominates_trans (a b c : list pyfloat) :
  length a = length b -> length b = length c ->
  dominates a b = true -> dominates b c = true -> dominates a c = true.
Proof.
  unfold dominates.
  revert b c; induction a as [|x a IH]; intros [|y b] [|z c]; simpl;
    try discriminate; auto.
  intros Hab Hbc H1 H2.
  injection Hab as Hab. injection Hbc as Hbc.
  apply andb_true_iff in H1 as [H1 E1]. apply andb_true_iff in H1 as [L1 A1].
  apply andb_true_iff in H2 as [H2 E2]. apply andb_true_iff in H2 as [L2 A2].
  assert (Lxz : PyFloat.leb x z = true) by eauto using pyfloat_leb_trans.
  rewrite Lxz. simpl.
  assert (Hall : forallb (fun p => PyFloat.leb (fst p) (snd p)) (combine a c) = true).
  { clear - A1 A2 Hab Hbc.
    revert b c Hab Hbc A1 A2.
    induction a as [|x a IH]; intros [|y b] [|z c]; simpl; try discriminate; auto.
    intros Hab Hbc A1 A2. injection Hab as Hab. injection Hbc as Hbc.
    apply andb_true_iff in A1 as [L1 A1]. apply andb_true_iff in A2 as [L2 A2].
    apply andb_true_iff; split; eauto using pyfloat_leb_trans. }
  rewrite Hall. simpl.
  apply orb_true_iff in E1 as [E1|E1].
  - rewrite (pyfloat_ltb_leb_trans _ _ _ E1 L2). reflexivity.
  - apply orb_true_iff in E2 as [E2|E2].
    + rewrite (pyfloat_leb_ltb_trans _ _ _ L1 E2). reflexivity.
    + apply orb_true_iff. right.
      assert (G := IH b c Hab Hbc).
      rewrite A1, A2, E1, E2 in G. simpl in G.
      specialize (G eq_refl eq_refl).
      now apply andb_true_iff in G as [_ G].
Qed.

(** ** Fancy indexing *)

Lemma getitem_ok {A} (l : list A) (i : nat) (d : A) :
  i < length l -> getitem l i = Ok (nth i l d).
Proof.
  intros H. unfold getitem.
  now rewrite (nth_error_nth' l d H).
Qed.

Lemma getitem_inv {A} (l : list A) (i : nat) (a : A) :
  getitem l i = Ok a -> i < length l /\ nth_error l i = Some a.
Proof.
  unfold getitem. destruct (nth_error l i) eqn:E; intros H; inversion H; subst.
  split; auto. apply nth_error_Some. congruence.
Qed.

Lemma take_ok {A} (l : list A) (I : list nat) (d : A) :
  Forall (fun i => i < length l) I ->
  take l I = Ok (map (fun i => nth i l d) I).
Proof.
  induction 1 as [|i I Hi _ IH]; simpl; auto.
  now rewrite (getitem_ok l d Hi), IH.
Qed.

Lemma take_inv {A} (l : list A) (I : list nat) (r : list A) :
  take l I = Ok r ->
  Forall (fun i => i < length l) I /\ length r = length I /\
  forall d, r = map (fun i => nth i l d) I.
Proof.
  revert r; induction I as [|i I IH]; simpl; intros r H.
  - inversion H. repeat split; auto.
  - destruct (getitem l i) as [a|] eqn:Ei; simpl in H; try discriminate.
    destruct (take l I) as [r'|] eqn:Er; simpl in H; try discriminate.
    inversion H; subst. destruct (IH _ eq_refl) as (F & L & M).
    apply getitem_inv in Ei as [Hi Hn].
    repeat split; auto; simpl; try congruence.
    intros d. rewrite <- (M d). f_equal.
    symmetry. now apply nth_error_nth.
Qed.

Lemma Forall_lt_perm_seq (n : nat) (l : list nat) :
  Permutation l (seq 0 n) -> Forall (fun i => i < n) l.
Proof.
  intros P. apply Forall_forall. intros i Hi.
  apply (Permutation_in _ P) in Hi. apply in_seq in Hi. lia.
Qed.

Lemma map_nth_seq {A} (l : list A) (d : A) :
  map (fun i => nth i l d) (seq 0 (length l)) = l.
Proof.
  induction l as [|a l IH]; simpl; auto.
  f_equal. rewrite <- seq_shift, map_map. exact IH.
Qed.

(** ** The fronts partition the pool *)

Lemma rectangular_uniform (rows : matrix) :
  rectangular rows = true -> uniform rows.
Proof.
  destruct rows as [|r rest]; simpl; intros H i j Hi Hj; simpl in *; try lia.
  assert (E : forall k, k < S (length rest) -> length (row (r :: rest) k) = length r).
  { intros [|k] Hk; simpl; auto. unfold row; simpl.
    rewrite forallb_forall in H.
    apply Nat.eqb_eq, H, nth_In. lia. }
  now rewrite (E i Hi), (E j Hj).
Qed.

Lemma uniform_neg (rows : matrix) :
  uniform rows -> uniform (map (map PyFloat.neg) rows).
Proof.
  intros U i j Hi Hj. rewrite length_map in Hi, Hj.
  unfold row in *.
  rewrite (nth_indep _ [] (map PyFloat.neg []))
    by (rewrite length_map; exact Hi).
  rewrite (nth_indep _ [] (map PyFloat.neg []) (n := j))
    by (rewrite length_map; exact Hj).
  rewrite !map_nth, !length_map. now apply U.
Qed.

Lemma neg_array_inv (objs : list (option (list pyfloat))) (F : matrix) :
  neg_array objs = Ok F ->
  exists rows, objs = map Some rows /\ F = map (map PyFloat.neg) rows /\
               uniform F /\ length F = length objs.
Proof.
  unfold neg_array. destruct (all_scored objs) as [rows|] eqn:E; try discriminate.
  destruct (rectangular rows) eqn:R; try discriminate.
  intros H; inversion H; subst. exists rows.
  assert (Hobjs : objs = map Some rows).
  { clear R H. revert rows E. induction objs as [|[r|] objs IH]; simpl; intros rows E.
    - now inversion E.
    - destruct (all_scored objs) as [rows'|]; try discriminate.
      inversion E; subst. simpl. f_equal. now apply IH.
    - discriminate. }
  repeat split; auto.
  - apply uniform_neg. now apply rectangular_uniform.
  - subst objs. now rewrite !length_map.
Qed.

Lemma minimal_exists (F : matrix) (pool : list nat) :
  uniform F -> Forall (fun i => i < length F) pool -> pool <> [] ->
  exists m, In m pool /\ non_dominated F pool m = true.
Proof.
  intros U. unfold non_dominated.
  induction pool as [|a pool IH]; intros Hp Hne; try congruence.
  inversion Hp as [|? ? Ha Hp']; subst.
  destruct pool as [|b pool].
  - exists a. split; simpl; auto. now rewrite dominates_irrefl.
  - destruct (IH Hp' ltac:(discriminate)) as (m & Hm & Hmin).
    apply negb_true_iff in Hmin.
    assert (Hml : m < length F).
    { rewrite Forall_forall in Hp'. now apply Hp'. }
    destruct (dominates (row F a) (row F m)) eqn:Dam.
    + exists a. split; [now left|].
      apply negb_true_iff.
      change (existsb (fun j => dominates (row F j) (row F a)) (a :: b :: pool))
        with (dominates (row F a) (row F a)
              || existsb (fun j => dominates (row F j) (row F a)) (b :: pool)).
      rewrite dominates_irrefl. rewrite orb_false_l.
      apply not_true_is_false. intros Hex.
      apply existsb_exists in Hex as (y & Hy & Dya).
      assert (Hyl : y < length F).
      { rewrite Forall_forall in Hp'. now apply Hp'. }
      assert (Dym : dominates (row F y) (row F m) = true).
      { apply (dominates_trans (row F y) (row F a) (row F m)); auto. }
      assert (Hc : existsb (fun j => dominates (row F j) (row F m)) (b :: pool) = true).
      { apply existsb_exists. eauto. }
      congruence.
    + exists m. split; [now right|].
      apply negb_true_iff.
      change (existsb (fun j => dominates (row F j) (row F m)) (a :: b :: pool))
        with (dominates (row F a) (row F m)
              || existsb (fun j => dominates (row F j) (row F m)) (b :: pool)).
      now rewrite Dam.
Qed.

Lemma filter_split_perm {A} (p : A -> bool) (l : list A) :
  Permutation (filter p l ++ filter (fun x => negb (p x)) l) l.
Proof.
  induction l as [|a l IH]; simpl; auto.
  destruct (p a); simpl.
  - now constructor.
  - rewrite <- Permutation_middle. now constructor.
Qed.

Lemma fronts_of_perm (F : matrix) (fuel : nat) (pool : list nat) :
  uniform F -> Forall (fun i => i < length F) pool -> length pool <= fuel ->
  Permutation (concat (fronts_of fuel F pool)) pool.
Proof.
  intros U. revert pool.
  induction fuel as [|fuel IH]; intros pool Hp Hl.
  - destruct pool; simpl in *; auto; lia.
  - destruct pool as [|a pool]; [simpl; auto|].
    cbn [fronts_of concat].
    set (pl := a :: pool) in *.
    destruct (minimal_exists U Hp ltac:(discriminate)) as (m & Hm & Hmin).
    assert (Hlt : length (filter (fun i => negb (non_dominated F pl i)) pl) < length pl).
    { pose proof (Permutation_length (filter_split_perm (non_dominated F pl) pl)) as E.
      rewrite length_app in E.
      assert (0 < length (filter (non_dominated F pl) pl)).
      { assert (In m (filter (non_dominated F pl) pl)) by (apply filter_In; auto).
        destruct (filter (non_dominated F pl) pl); simpl in *; [tauto|lia]. }
      lia. }
    rewrite IH.
    + apply filter_split_perm.
    + apply Forall_forall. intros i Hi. apply filter_In in Hi as [Hi _].
      rewrite Forall_forall in Hp. now apply Hp.
    + subst pl. simpl in Hl, Hlt |- *. simpl in Hlt. lia.
Qed.

Lemma non_dominated_sort_perm (F : matrix) :
  uniform F -> Permutation (concat (non_dominated_sort F)) (seq 0 (length F)).
Proof.
  intros U. apply fronts_of_perm; auto.
  - apply Forall_forall. intros i Hi. apply in_seq in Hi. lia.
  - now rewrite length_seq.
Qed.

Lemma stop_if_ranked_incl (n s : nat) (fronts : list (list nat)) :
  incl (stop_if_ranked n s fronts) fronts.
Proof.
  revert s; induction fronts as [|f fs IH]; intros s; simpl.
  - apply incl_refl.
  - destruct (n <=? s + length f).
    + intros x [<-|[]]. now left.
    + apply incl_cons; [now left|]. apply incl_tl, IH.
Qed.

Lemma stop_if_ranked_count (n s : nat) (fronts : list (list nat)) :
  Nat.min n (s + length (concat (stop_if_ranked n s fronts)))
  = Nat.min n (s + length (concat fronts)).
Proof.
  revert s; induction fronts as [|f fs IH]; intros s; simpl; auto.
  rewrite !length_app.
  destruct (Nat.leb_spec n (s + length f)); simpl.
  - lia.
  - rewrite !Nat.add_assoc. apply IH.
Qed.

Lemma stop_if_ranked_head (n : nat) (f : list nat) (fs : list (list nat)) :
  exists rest, stop_if_ranked n 0 (f :: fs) = f :: rest.
Proof. simpl. eauto. Qed.

(** ** Sortedness helpers *)

Lemma StronglySorted_app_inv {A} (R : A -> A -> Prop) (l1 l2 : list A) :
  StronglySorted R (l1 ++ l2) ->
  StronglySorted R l1 /\ StronglySorted R l2 /\
  forall a b, In a l1 -> In b l2 -> R a b.
Proof.
  induction l1 as [|x l1 IH]; simpl; intros H.
  - repeat split; auto; try constructor. intros a b [].
  - inversion H as [|? ? Hs Hf]; subst.
    destruct (IH Hs) as (S1 & S2 & C).
    rewrite Forall_app in Hf. destruct Hf as [F1 F2].
    repeat split; auto.
    + now constructor.
    + intros a b [<-|Ha] Hb; auto.
      rewrite Forall_forall in F2. now apply F2.
Qed.

Lemma StronglySorted_app {A} (R : A -> A -> Prop) (l1 l2 : list A) :
  StronglySorted R l1 -> StronglySorted R l2 ->
  (forall a b, In a l1 -> In b l2 -> R a b) ->
  StronglySorted R (l1 ++ l2).
Proof.
  induction l1 as [|x l1 IH]; simpl; intros S1 S2 C; auto.
  inversion S1 as [|? ? Hs Hf]; subst. constructor.
  - apply IH; auto.
  - apply Forall_app; split; auto.
    apply Forall_forall. intros b Hb. apply C; auto.
Qed.

Lemma StronglySorted_rev {A} (R : A -> A -> Prop) (l : list A) :
  StronglySorted R l -> StronglySorted (fun a b => R b a) (rev l).
Proof.
  induction 1 as [|x l Hs IH Hf]; simpl; [constructor|].
  apply StronglySorted_app; auto.
  - repeat constructor.
  - intros a b Ha [<-|[]]. apply in_rev in Ha.
    rewrite Forall_forall in Hf. now apply Hf.
Qed.

Lemma StronglySorted_map_inv {A B} (R : B -> B -> Prop) (f : A -> B) (l : list A) :
  StronglySorted R (map f l) -> StronglySorted (fun a b => R (f a) (f b)) l.
Proof.
  induction l as [|x l IH]; simpl; intros H; [constructor|].
  inversion H as [|? ? Hs Hf]; subst. constructor; auto.
  rewrite Forall_map in Hf. exact Hf.
Qed.

(** ** Attribute updates keep the candidates *)

Lemma updated_refl (f : Function) : updated f f.
Proof. unfold updated; auto. Qed.

Lemma updated_trans (f g h : Function) : updated f g -> updated g h -> updated f h.
Proof.
  unfold updated. intros (A1 & B1 & C1 & D1) (A2 & B2 & C2 & D2).
  repeat split; try congruence; auto.
Qed.

Lemma Forall2_updated_refl (l : list Function) : Forall2 updated l l.
Proof. induction l; constructor; auto using updated_refl. Qed.

Lemma Forall2_updated_trans (l1 l2 l3 : list Function) :
  Forall2 updated l1 l2 -> Forall2 updated l2 l3 -> Forall2 updated l1 l3.
Proof.
  intros H; revert l3; induction H; intros l3 H3; inversion H3; subst;
    constructor; eauto using updated_trans.
Qed.

Lemma Forall2_updated_scores (l l' : list Function) :
  Forall2 updated l l' -> map score l' = map score l.
Proof.
  induction 1 as [|f f' l l' (_ & E & _) _ IH]; simpl; auto. now rewrite E, IH.
Qed.

Lemma Forall2_nth_error {A B} (R : A -> B -> Prop) (l : list A) (l' : list B)
      (i : nat) (a : A) :
  Forall2 R l l' -> nth_error l i = Some a ->
  exists b, nth_error l' i = Some b /\ R a b.
Proof.
  intros H; revert i; induction H as [|x y l l' Hxy _ IH]; intros [|i] E;
    simpl in *; try discriminate.
  - inversion E; subst. eauto.
  - now apply IH.
Qed.

Lemma Forall2_point_update (R : Function -> Function -> Prop)
      (l : list Function) (i : nat) (f f' : Function) :
  (forall x, R x x) -> nth_error l i = Some f -> R f f' ->
  Forall2 R l (firstn i l ++ f' :: skipn (S i) l).
Proof.
  intros Hr. revert i; induction l as [|x l IH]; intros [|i] E Hf;
    simpl in *; try discriminate.
  - inversion E; subst. constructor; auto.
    clear - Hr. induction l; constructor; auto.
  - constructor; auto.
Qed.

Lemma nth_error_point_update {A} (l : list A) (i : nat) (a : A) :
  i < length l ->
  nth_error (firstn i l ++ a :: skipn (S i) l) i = Some a.
Proof.
  intros H. rewrite nth_error_app2; rewrite length_firstn, Nat.min_l by lia; try lia.
  now rewrite Nat.sub_diag.
Qed.

(** ** Front 0 is the non-dominated set on the maximisation scale *)

Lemma existsb_ext {A} (f g : A -> bool) (l : list A) :
  (forall x, f x = g x) -> existsb f l = existsb g l.
Proof. intros H. induction l; simpl; auto. now rewrite H, IHl. Qed.

Lemma dominates_neg (a b : list pyfloat) :
  dominates (map PyFloat.neg a) (map PyFloat.neg b) = pareto_dominates_max a b.
Proof.
  unfold dominates, pareto_dominates_max. f_equal.
  - revert b; induction a as [|x a IH]; intros [|y b]; simpl; auto.
    now rewrite pyfloat_neg_leb, IH.
  - revert b; induction a as [|x a IH]; intros [|y b]; simpl; auto.
    now rewrite pyfloat_neg_ltb, IH.
Qed.

Lemma row_neg (rows : matrix) (i : nat) :
  row (map (map PyFloat.neg) rows) i = map PyFloat.neg (row rows i).
Proof. unfold row. exact (map_nth (map PyFloat.neg) rows [] i). Qed.

Lemma non_dominated_neg (rows : matrix) (pool : list nat) (i : nat) :
  non_dominated (map (map PyFloat.neg) rows) pool i
  = non_dominated_max rows pool i.
Proof.
  unfold non_dominated, non_dominated_max. f_equal.
  apply existsb_ext. intros j. now rewrite !row_neg, dominates_neg.
Qed.

(** ** The survival computation under the contracts of numpy and pymoo *)

Section Properties.

Variable rng : Type.
Variable random_permutation : rng -> nat -> list nat * rng.
Variable random_choice : rng -> nat -> (nat * nat) * rng.
Variable argsort : list pyfloat -> list nat.
Variable crowding_distance : matrix -> nat -> list pyfloat.

(** [np.random.permutation(n)] is a permutation of [range(n)]. *)
Hypothesis random_permutation_perm :
  forall g n, Permutation (fst (random_permutation g n)) (seq 0 n).

(** [np.random.choice(a, size=2, replace=False)] draws two distinct
    positions of [a]. *)
Hypothesis random_choice_distinct :
  forall g n, 2 <= n ->
    fst (fst (random_choice g n)) < n /\ snd (fst (random_choice g n)) < n /\
    fst (fst (random_choice g n)) <> snd (fst (random_choice g n)).

(** [np.argsort(A)] is a permutation of the positions of [A] that
    lists the values in ascending order. *)
Hypothesis argsort_perm :
  forall A, Permutation (argsort A) (seq 0 (length A)).
Hypothesis argsort_sorted :
  forall A, StronglySorted PyFloat.le
              (map (fun i => nth i A PyFloat.NegInf) (argsort A)).

(** The crowding function returns one distance per row. *)
Hypothesis crowding_distance_length :
  forall F n, length (crowding_distance F n) = length F.

Local Abbreviation randomized_argsort := (randomized_argsort random_permutation argsort).
Local Abbreviation crowding_and_positions :=
  (crowding_and_positions random_permutation argsort crowding_distance).
Local Abbreviation survival_front :=
  (survival_front random_permutation argsort crowding_distance).
Local Abbreviation survival_loop :=
  (survival_loop random_permutation argsort crowding_distance).
Local Abbreviation survival := (survival random_permutation argsort crowding_distance).
Local Abbreviation append_and_update :=
  (append_and_update random_permutation argsort crowding_distance).
Local Abbreviation register_function :=
  (register_function random_permutation argsort crowding_distance).
Local Abbreviation register_all :=
  (register_all random_permutation argsort crowding_distance).
Local Abbreviation selection := (selection random_choice).

Lemma bind_ok {A B} (m : M rng A) (k : A -> M rng B) s s' a :
  m s = (s', Ok a) -> bind m k s = k a s'.
Proof. unfold bind. now intros ->. Qed.

Lemma bind_raise {A B} (m : M rng A) (k : A -> M rng B) s s' e :
  m s = (s', Raise e) -> bind m k s = (s', Raise e).
Proof. unfold bind. now intros ->. Qed.

Lemma randomized_argsort_spec (A : list pyfloat) (s : store rng) :
  exists I g',
    randomized_argsort A s = ({| objects := objects s; seed := g' |}, Ok I) /\
    Permutation I (seq 0 (length A)) /\ descending A I /\
    (I, g') = (let '(P, g) := random_permutation (seed s) (length A) in
               (rev (map (fun j => nth j P 0)
                         (argsort (map (fun i => nth i A PyFloat.NegInf) P))), g)).
Proof.
  unfold randomized_argsort, permutation, bind at 1.
  pose proof (random_permutation_perm (seed s) (length A)) as HP.
  destruct (random_permutation (seed s) (length A)) as [P g'] eqn:EP.
  simpl in HP.
  assert (HPl : length P = length A).
  { rewrite (Permutation_length HP). apply length_seq. }
  assert (HPr : Forall (fun i => i < length A) P)
    by now apply Forall_lt_perm_seq.
  set (AP := map (fun i => nth i A PyFloat.NegInf) P).
  assert (HAPl : length AP = length A) by (subst AP; now rewrite length_map).
  pose proof (argsort_perm AP) as HJ. rewrite HAPl in HJ.
  assert (HJr : Forall (fun j => j < length P) (argsort AP)).
  { rewrite HPl. now apply Forall_lt_perm_seq. }
  exists (rev (map (fun j => nth j P 0) (argsort AP))), g'.
  split; [|split; [|split]].
  - unfold bind, lift, ret.
    rewrite (take_ok A PyFloat.NegInf HPr). fold AP.
    now rewrite (take_ok P 0 HJr).
  - rewrite <- Permutation_rev.
    rewrite (Permutation_map (fun j => nth j P 0) HJ).
    assert (E : map (fun j => nth j P 0) (seq 0 (length A)) = P)
      by (rewrite <- HPl; apply map_nth_seq).
    rewrite E. exact HP.
  - unfold descending. apply StronglySorted_rev.
    apply StronglySorted_map_inv with (f := fun t => nth t A PyFloat.NegInf).
    rewrite map_map.
    rewrite (map_ext_in _ (fun j => nth j AP PyFloat.NegInf)).
    + apply argsort_sorted.
    + intros j Hj. rewrite Forall_forall in HJr. specialize (HJr j Hj).
      subst AP.
      rewrite (nth_indep (map (fun i => nth i A PyFloat.NegInf) P)
                         PyFloat.NegInf (nth 0 A PyFloat.NegInf))
        by now rewrite length_map.
      now rewrite (map_nth (fun i => nth i A PyFloat.NegInf)).
  - reflexivity.
Qed.

Lemma drop_last_length {A} (n : nat) (I : list A) :
  length (drop_last n I) = length I - n.
Proof. unfold drop_last. rewrite length_firstn. lia. Qed.

(** What [crowding_and_positions] computes on a front whose entries
    are rows of [F]. *)
Lemma crowding_and_positions_spec (pop_size : nat) (F : matrix)
      (front survivors : list nat) (s : store rng) :
  Forall (fun i => i < length F) front ->
  exists cr I g',
    crowding_and_positions pop_size F front survivors s
      = ({| objects := objects s; seed := g' |}, Ok (cr, I)) /\
    length cr = length front /\
    Forall (fun t => t < length front) I /\
    NoDup I /\
    length I = Nat.min (length front) (pop_size - length survivors) /\
    (pop_size < length survivors + length front ->
     let n_remove := length survivors + length front - pop_size in
     cr = crowding_distance (map (fun i => nth i F []) front) n_remove /\
     descending cr I /\
     (forall t u, In t I -> u < length front -> ~ In u I ->
                  PyFloat.le (nth u cr PyFloat.NegInf) (nth t cr PyFloat.NegInf)) /\
     (I, g') = (let '(P, g) := random_permutation (seed s) (length cr) in
                (drop_last n_remove
                   (rev (map (fun j => nth j P 0)
                          (argsort (map (fun i => nth i cr PyFloat.NegInf) P)))), g))).
Proof.
  intros HF. unfold crowding_and_positions.
  rewrite length_seq.
  pose proof (take_ok F [] HF) as ET.
  set (Ff := map (fun i => nth i F []) front) in *.
  assert (HFf : length Ff = length front) by (subst Ff; now rewrite length_map).
  destruct (Nat.ltb_spec pop_size (length survivors + length front)) as [Hov|Hfit].
  - set (n_remove := length survivors + length front - pop_size).
    set (cr := crowding_distance Ff n_remove).
    assert (Hcr : length cr = length front)
      by (subst cr; now rewrite crowding_distance_length).
    destruct (randomized_argsort_spec cr {| objects := objects s; seed := seed s |})
      as (I & g' & ER & HP & HD & HE).
    simpl in ER, HE.
    exists cr, (drop_last n_remove I), g'.
    assert (Hsplit : I = drop_last n_remove I ++ skipn (length I - n_remove) I)
      by (unfold drop_last; now rewrite firstn_skipn).
    assert (HND : NoDup I).
    { apply (Permutation_NoDup (Permutation_sym HP)), seq_NoDup. }
    assert (HIr : Forall (fun t => t < length front) I).
    { rewrite <- Hcr. now apply Forall_lt_perm_seq. }
    assert (HIl : length I = length front).
    { rewrite (Permutation_length HP), length_seq. exact Hcr. }
    split; [|split; [|split; [|split; [|split]]]]; auto.
    + unfold bind at 1, lift. rewrite ET.
      fold n_remove. fold cr.
      destruct s as [objs g]. simpl in *.
      erewrite bind_ok by exact ER. reflexivity.
    + rewrite Hsplit in HIr. now apply Forall_app in HIr as [? _].
    + rewrite Hsplit in HND. now apply NoDup_app_remove_r in HND.
    + rewrite drop_last_length, HIl. subst n_remove. lia.
    + intros _. cbv zeta. fold n_remove. split; [reflexivity|].
      unfold descending in *. rewrite Hsplit in HD.
      apply StronglySorted_app_inv in HD as (S1 & S2 & C).
      split; [exact S1|]. split.
      * intros t u Ht Hu Hn. apply C; auto.
        assert (Hin : In u I).
        { apply (Permutation_in _ (Permutation_sym HP)), in_seq. lia. }
        rewrite Hsplit in Hin. apply in_app_or in Hin as [Hin|Hin]; tauto.
      * destruct (random_permutation (seed s) (length cr)) as [P g0].
        inversion HE; subst. reflexivity.
  - exists (crowding_distance Ff 0), (seq 0 (length front)), (seed s).
    split; [|split; [|split; [|split; [|split]]]].
    + unfold bind, lift, ret. rewrite ET. now destruct s.
    + now rewrite crowding_distance_length.
    + apply Forall_forall. intros t Ht. apply in_seq in Ht. lia.
    + apply seq_NoDup.
    + rewrite length_seq. lia.
    + intros Hov. lia.
Qed.

Lemma setattr_spec (i : nat) (upd : Function -> Function) (s : store rng) :
  i < length (objects s) -> (forall f, updated f (upd f)) ->
  exists objs',
    setattr i upd s = ({| objects := objs'; seed := seed s |}, Ok tt) /\
    Forall2 updated (objects s) objs' /\
    (forall f, nth_error (objects s) i = Some f ->
               nth_error objs' i = Some (upd f)).
Proof.
  intros Hi Hu. unfold setattr.
  destruct (nth_error (objects s) i) as [f|] eqn:E.
  - eexists. split; [reflexivity|]. split.
    + apply Forall2_point_update with (f := f); auto using updated_refl.
    + intros f' Hf'. inversion Hf'; subst.
      now apply nth_error_point_update.
  - apply nth_error_None in E. lia.
Qed.

Lemma Forall2_updated_length (l l' : list Function) :
  Forall2 updated l l' -> length l' = length l.
Proof. intros H. symmetry. eapply Forall2_length; eauto. Qed.

Lemma ranked_at_updated (objs objs' : list Function) (i : nat) :
  Forall2 updated objs objs' -> ranked_at objs i -> ranked_at objs' i.
Proof.
  intros H (f & E & R & C).
  destruct (Forall2_nth_error i H E) as (f' & E' & (_ & _ & R' & C')).
  exists f'. auto.
Qed.

Lemma save_rank_crowding_spec (k : nat) (cr : list pyfloat) (front : list nat) :
  forall (j : nat) (s : store rng),
    j + length front <= length cr ->
    Forall (fun i => i < length (objects s)) front ->
    exists objs',
      save_rank_crowding k cr j front s
        = ({| objects := objs'; seed := seed s |}, Ok tt) /\
      Forall2 updated (objects s) objs' /\
      Forall (ranked_at objs') front.
Proof.
  induction front as [|i front IH]; intros j s Hj Hf; simpl.
  - exists (objects s). unfold ret. destruct s; simpl.
    repeat split; auto using Forall2_updated_refl.
  - inversion Hf as [|? ? Hi Hf']; subst. simpl in Hj.
    destruct (@setattr_spec i (fun f => set_rank f k) s Hi)
      as (o1 & E1 & U1 & N1).
    { intros f. unfold updated; simpl. repeat split; auto. discriminate. }
    erewrite bind_ok by exact E1.
    assert (Hjc : j < length cr) by lia.
    unfold bind at 1, lift. rewrite (getitem_ok cr PyFloat.NegInf Hjc).
    set (c := nth j cr PyFloat.NegInf).
    set (s1 := {| objects := o1; seed := seed s |}).
    assert (Hi1 : i < length (objects s1)).
    { simpl. now rewrite (Forall2_updated_length U1). }
    destruct (@setattr_spec i (fun f => set_crowding f c) s1 Hi1)
      as (o2 & E2 & U2 & N2).
    { intros f. unfold updated; simpl. repeat split; auto. discriminate. }
    erewrite bind_ok by exact E2.
    set (s2 := {| objects := o2; seed := seed s1 |}).
    assert (Hf2 : Forall (fun i => i < length (objects s2)) front).
    { simpl. rewrite (Forall2_updated_length U2). simpl.
      rewrite (Forall2_updated_length U1). exact Hf'. }
    destruct (IH (S j) s2 ltac:(lia) Hf2) as (o3 & E3 & U3 & R3).
    exists o3. split; [exact E3|]. split.
    + eauto using Forall2_updated_trans.
    + constructor; auto.
      apply (ranked_at_updated U3).
      destruct (nth_error (objects s) i) as [f|] eqn:Ef;
        [|apply nth_error_None in Ef; lia].
      specialize (N1 f eq_refl). specialize (N2 _ N1).
      eexists. split; [exact N2|]. simpl. split; discriminate.
Qed.

Lemma survival_front_spec (pop_size k : nat) (F : matrix)
      (front survivors : list nat) (s : store rng) :
  Forall (fun i => i < length F) front ->
  Forall (fun i => i < length (objects s)) front ->
  exists cr I g' objs',
    crowding_and_positions pop_size F front survivors s
      = ({| objects := objects s; seed := g' |}, Ok (cr, I)) /\
    survival_front pop_size k F front survivors s
      = ({| objects := objs'; seed := g' |},
         Ok (survivors ++ map (fun t => nth t front 0) I)) /\
    Forall2 updated (objects s) objs' /\
    Forall (ranked_at objs') front /\
    Forall (fun t => t < length front) I /\
    length I = Nat.min (length front) (pop_size - length survivors).
Proof.
  intros HF Hs.
  destruct (@crowding_and_positions_spec pop_size F front survivors s HF)
    as (cr & I & g' & EC & Hcr & HIr & _ & HIl & _).
  set (s1 := {| objects := objects s; seed := g' |}) in *.
  destruct (@save_rank_crowding_spec k cr front 0 s1 ltac:(lia) Hs)
    as (objs' & ES & U & R).
  exists cr, I, g', objs'.
  split; [exact EC|]. split; [|auto].
  unfold survival_front.
  erewrite bind_ok by exact EC. simpl fst. simpl snd.
  erewrite bind_ok by exact ES.
  unfold bind, lift, ret. now rewrite (take_ok front 0 HIr).
Qed.

Lemma survival_loop_spec (pop_size : nat) (F : matrix) (fronts : list (list nat)) :
  forall (k : nat) (survivors : list nat) (s : store rng),
    Forall (Forall (fun i => i < length F)) fronts ->
    Forall (Forall (fun i => i < length (objects s))) fronts ->
    exists survivors' s',
      survival_loop pop_size k F fronts survivors s = (s', Ok survivors') /\
      Forall2 updated (objects s) (objects s') /\
      length survivors'
      = length survivors
        + Nat.min (length (concat fronts)) (pop_size - length survivors) /\
      incl survivors' (survivors ++ concat fronts) /\
      Forall (ranked_at (objects s')) (concat fronts).
Proof.
  induction fronts as [|front fronts IH]; intros k survivors s HF Hs; simpl.
  - exists survivors, s. unfold ret.
    repeat split; auto using Forall2_updated_refl; try lia.
    rewrite app_nil_r. apply incl_refl.
  - inversion HF as [|? ? HF1 HF2]; subst.
    inversion Hs as [|? ? Hs1 Hs2]; subst.
    destruct (@survival_front_spec pop_size k F front survivors s HF1 Hs1)
      as (cr & I & g' & objs' & _ & EF & U & R & HIr & HIl).
    erewrite bind_ok by exact EF.
    set (s1 := {| objects := objs'; seed := g' |}).
    assert (Hs2' : Forall (Forall (fun i => i < length (objects s1))) fronts).
    { simpl. rewrite (Forall2_updated_length U). exact Hs2. }
    destruct (IH (S k) (survivors ++ map (fun t => nth t front 0) I) s1 HF2 Hs2')
      as (survivors' & s' & EL & U' & HL & HI & R').
    exists survivors', s'. split; [exact EL|].
    split; [eauto using Forall2_updated_trans|].
    split; [|split].
    + rewrite HL, !length_app, length_map, HIl. lia.
    + intros x Hx. apply HI in Hx.
      rewrite !in_app_iff in *. rewrite in_map_iff in Hx.
      destruct Hx as [[Hx|(t & <- & Ht)]|Hx]; auto.
      right; left. apply nth_In.
      rewrite Forall_forall in HIr. now apply HIr.
    + apply Forall_app; split; auto.
      eapply Forall_impl; [|exact R].
      intros i. now apply ranked_at_updated.
Qed.

Lemma survival_raise (pop_size : nat) (pop : list Function) (g : rng) (e : exn) :
  neg_array (map score pop) = Raise e ->
  survival pop_size {| objects := pop; seed := g |}
  = ({| objects := pop; seed := g |}, Raise e).
Proof.
  intros H. unfold survival, bind, lift. simpl. now rewrite H.
Qed.

Lemma survival_spec (pop_size : nat) (pop : list Function) (g : rng) (F : matrix) :
  neg_array (map score pop) = Ok F ->
  exists members' s',
    survival pop_size {| objects := pop; seed := g |} = (s', Ok members') /\
    length members' = Nat.min pop_size (length pop) /\
    Forall evaluated members' /\
    Forall2 updated pop (objects s').
Proof.
  intros HFa.
  destruct (@neg_array_inv _ F HFa) as (rows & Hrows & _ & HU & HFl).
  rewrite length_map in HFl.
  pose proof (non_dominated_sort_perm HU) as HP.
  assert (Hall : Forall (Forall (fun i => i < length F))
                        (NonDominatedSorting_do F pop_size)).
  { apply Forall_forall. intros front Hfr.
    apply stop_if_ranked_incl in Hfr.
    apply Forall_forall. intros i Hi.
    assert (Hc : In i (concat (non_dominated_sort F))).
    { apply in_concat. eauto. }
    apply (Permutation_in _ HP), in_seq in Hc. lia. }
  set (s0 := {| objects := pop; seed := g |}).
  assert (Hall' : Forall (Forall (fun i => i < length (objects s0)))
                         (NonDominatedSorting_do F pop_size)).
  { simpl. now rewrite <- HFl. }
  destruct (@survival_loop_spec pop_size F _ 0 [] s0 Hall Hall')
    as (survivors & s' & EL & U & HL & HI & R).
  simpl in U, HL, HI.
  assert (Hsr : Forall (fun i => i < length (objects s')) survivors).
  { apply Forall_forall. intros i Hi. apply HI in Hi.
    rewrite Forall_forall in R. destruct (R i Hi) as (f & Ef & _).
    apply nth_error_Some. congruence. }
  set (d := mkFunction EmptyString None None None).
  exists (map (fun i => nth i (objects s') d) survivors), s'.
  split; [|split; [|split]]; auto.
  - unfold survival. unfold bind at 1. unfold bind at 1, lift at 1.
    fold s0. simpl objects at 1. rewrite HFa.
    erewrite bind_ok by exact EL.
    unfold bind, lift. now rewrite (take_ok (objects s') d Hsr).
  - rewrite length_map, HL, Nat.sub_0_r.
    unfold NonDominatedSorting_do.
    pose proof (stop_if_ranked_count pop_size 0 (non_dominated_sort F)) as E.
    simpl in E. rewrite (Permutation_length HP), length_seq, HFl in E. lia.
  - apply Forall_forall. intros f Hf. apply in_map_iff in Hf as (i & <- & Hi).
    apply HI in Hi. rewrite Forall_forall in R.
    destruct (R i Hi) as (f & Ef & Hr & Hc).
    rewrite (nth_error_nth _ _ d Ef).
    split; auto.
    pose proof (Forall2_updated_scores U) as Es.
    rewrite Hrows in Es.
    assert (Hsf : nth_error (map score (objects s')) i = Some (score f))
      by (rewrite nth_error_map, Ef; reflexivity).
    rewrite Es, nth_error_map in Hsf.
    destruct (nth_error rows i); simpl in Hsf; congruence.
Qed.

Lemma survival_raise_inv (pop_size : nat) (pop : list Function) (g : rng)
      (s : store rng) (e : exn) :
  survival pop_size {| objects := pop; seed := g |} = (s, Raise e) ->
  neg_array (map score pop) = Raise e /\ s = {| objects := pop; seed := g |}.
Proof.
  intros H. destruct (neg_array (map score pop)) as [F|e'] eqn:E.
  - destruct (@survival_spec pop_size pop g F E) as (m & s' & E' & _). congruence.
  - rewrite (@survival_raise pop_size pop g e' E) in H. inversion H; subst. auto.
Qed.

(** *** The three ways the critical section ends *)

Lemma update_cases (self : Population) (g : rng) (func : Function) :
  let pending := _next_gen_pop self ++ [func] in
  let pop := _population self ++ pending in
  (length pending < _pop_size self /\
   value (append_and_update self g func)
   = {| _population := _population self; _pop_size := _pop_size self;
        _next_gen_pop := pending; _generation := _generation self |} /\
   rnd (append_and_update self g func) = g)
  \/
  (_pop_size self <= length pending /\
   exists F members' s',
     neg_array (map score pop) = Ok F /\
     survival (_pop_size self) {| objects := pop; seed := g |} = (s', Ok members') /\
     value (append_and_update self g func)
     = {| _population := members'; _pop_size := _pop_size self;
          _next_gen_pop := []; _generation := _generation self + 1 |} /\
     length members' = Nat.min (_pop_size self) (length pop) /\
     Forall evaluated members')
  \/
  (_pop_size self <= length pending /\
   exists e,
     neg_array (map score pop) = Raise e /\
     survival (_pop_size self) {| objects := pop; seed := g |}
     = ({| objects := pop; seed := g |}, Raise e) /\
     value (append_and_update self g func)
     = {| _population := _population self; _pop_size := _pop_size self;
          _next_gen_pop := pending; _generation := _generation self |} /\
     rnd (append_and_update self g func) = g).
Proof.
  intros pending pop. unfold append_and_update. fold pending. fold pop.
  destruct (Nat.leb_spec (_pop_size self) (length pending)) as [Hge|Hlt].
  - right. destruct (neg_array (map score pop)) as [F|e] eqn:E.
    + left. split; auto.
      destruct (@survival_spec (_pop_size self) pop g F E)
        as (members' & s' & ES & HL & HE & _).
      exists F, members', s'. rewrite ES. simpl. auto.
    + right. split; auto. exists e.
      rewrite (@survival_raise (_pop_size self) pop g e E). simpl.
      subst pop.
      rewrite firstn_app, firstn_all, Nat.sub_diag, firstn_0, app_nil_r.
      rewrite skipn_app, skipn_all, Nat.sub_diag, skipn_O.
      auto.
  - left. simpl. auto.
Qed.

Lemma staged_score (self : Population) (func : Function) :
  score (staged self func) <> None.
Proof.
  unfold staged, with_default_score. destruct (score func) eqn:E.
  - destruct (has_duplicate_function self func); simpl; congruence.
  - destruct (has_duplicate_function self _); simpl; congruence.
Qed.

Lemma register_discard (self : Population) (g : rng) (func : Function) :
  _generation self = 0 -> score func = None ->
  register_function self g func = {| value := self; rnd := g; trace := [Read Generation] |}.
Proof.
  intros Hg Hs. unfold register_function. now rewrite Hg, Hs.
Qed.

Lemma register_accept (self : Population) (g : rng) (func : Function) :
  _generation self <> 0 \/ score func <> None ->
  value (register_function self g func)
  = value (append_and_update self g (staged self func)).
Proof.
  intros H. unfold register_function.
  destruct (Nat.eqb_spec (_generation self) 0) as [E|E]; simpl; auto.
  destruct (score func); simpl; auto. destruct H; congruence.
Qed.

Lemma register_accept_rnd (self : Population) (g : rng) (func : Function) :
  _generation self <> 0 \/ score func <> None ->
  rnd (register_function self g func)
  = rnd (append_and_update self g (staged self func)).
Proof.
  intros H. unfold register_function.
  destruct (Nat.eqb_spec (_generation self) 0) as [E|E]; simpl; auto.
  destruct (score func); simpl; auto. destruct H; congruence.
Qed.

Lemma register_dichotomy (self : Population) (g : rng) (func : Function) :
  (_generation self = 0 /\ score func = None)
  \/ (_generation self <> 0 \/ score func <> None).
Proof.
  destruct (Nat.eq_dec (_generation self) 0); destruct (score func);
    auto; right; right; discriminate.
Qed.

Lemma register_pop_size (self : Population) (g : rng) (func : Function) :
  _pop_size (value (register_function self g func)) = _pop_size self.
Proof.
  destruct (register_dichotomy self g func) as [[Hg Hs]|H].
  - now rewrite register_discard.
  - rewrite register_accept by exact H.
    destruct (update_cases self g (staged self func))
      as [(_ & -> & _)|[(_ & F & m & s & _ & _ & -> & _)|(_ & e & _ & _ & -> & _)]];
      reflexivity.
Qed.

Lemma register_members_length (self : Population) (g : rng) (func : Function) :
  length (_population self) <= _pop_size self ->
  length (_population (value (register_function self g func))) <= _pop_size self.
Proof.
  intros H.
  destruct (register_dichotomy self g func) as [[Hg Hs]|Ha].
  - now rewrite register_discard.
  - rewrite register_accept by exact Ha.
    destruct (update_cases self g (staged self func))
      as [(_ & -> & _)|[(_ & F & m & s & _ & _ & -> & HL & _)|(_ & e & _ & _ & -> & _)]];
      simpl; auto.
    rewrite HL. apply Nat.le_min_l.
Qed.

Lemma run_members_length (funcs : list Function) :
  forall (self : Population) (g : rng),
    length (_population self) <= _pop_size self ->
    length (_population (fst (register_all self g funcs))) <= _pop_size self.
Proof.
  induction funcs as [|func funcs IH]; intros self g H; simpl; auto.
  rewrite <- (register_pop_size self g func).
  apply IH. rewrite register_pop_size. now apply register_members_length.
Qed.

(** C1: starting from an empty population, the members never exceed
    the capacity after any sequence of [register_function] calls; and
    a call whose survival computation completes (the generation
    advances) installs exactly [min(capacity, len(members) +
    len(pending))] members, [pending] counted with the candidate of
    the call. *)
Theorem members_within_capacity :
  (forall (pop_size : nat) (g : rng) (funcs : list Function),
      length (_population (fst (register_all (init pop_size) g funcs))) <= pop_size) /\
  (forall (self : Population) (g : rng) (func : Function),
      let self' := value (register_function self g func) in
      _generation self' = _generation self + 1 ->
      length (_population self')
      = Nat.min (_pop_size self)
                (length (_population self) + (length (_next_gen_pop self) + 1))).
Proof.
  split.
  - intros pop_size g funcs.
    apply (run_members_length funcs (init pop_size) g). simpl. lia.
  - intros self g func self' Hgen. subst self'.
    destruct (register_dichotomy self g func) as [[Hg Hs]|Ha].
    + rewrite register_discard in Hgen by assumption. simpl in Hgen. lia.
    + rewrite register_accept in * by exact Ha.
      destruct (update_cases self g (staged self func))
        as [(_ & E & _)|[(_ & F & m & s & _ & _ & E & HL & _)|(_ & e & _ & _ & E & _)]];
        rewrite E in *; simpl in *; try lia.
      rewrite HL, !length_app. simpl. reflexivity.
Qed.

(** *** The objective matrix and its first front *)

Lemma all_scored_map_Some (rows : matrix) : all_scored (map Some rows) = Some rows.
Proof.
  induction rows as [|r rows IH]; simpl; [reflexivity|]. now rewrite IH.
Qed.

Lemma neg_array_ok_iff (objs : list (option (list pyfloat))) (F : matrix) :
  neg_array objs = Ok F <->
  exists rows, objs = map Some rows /\ rectangular rows = true /\
               F = map (map PyFloat.neg) rows.
Proof.
  split.
  - intros H. destruct (@neg_array_inv objs F H) as (rows & Hrows & HF & _).
    exists rows. split; [exact Hrows|]. split; [|exact HF].
    unfold neg_array in H. rewrite Hrows, all_scored_map_Some in H.
    destruct (rectangular rows); [reflexivity|discriminate].
  - intros (rows & -> & Hr & ->). unfold neg_array.
    now rewrite all_scored_map_Some, Hr.
Qed.

(** C2: line 66 turns the scores of the pool into the entrywise negated
    matrix whenever every score is a vector and all have one length, and
    front 0 of the non-dominated sorting of that matrix is exactly the
    list of candidates that no pool candidate dominates on the
    maximisation scale (no worse in every dimension, strictly better in
    one); the pool [members + pending] of every survival computation
    that completes is such a pool; for the candidates with the scores
    (3,1), (1,3), (2,2), (0,0) front 0 is the first three, each of which
    dominates (0,0). *)
Theorem front0_is_non_dominated_set :
  (forall (pop : list Function) (rows : matrix) (pop_size : nat),
      pop <> [] -> map score pop = map Some rows -> rectangular rows = true ->
      neg_array (map score pop) = Ok (map (map PyFloat.neg) rows) /\
      exists rest,
        rbind (neg_array (map score pop))
              (fun F => Ok (NonDominatedSorting_do F pop_size))
        = Ok (filter (non_dominated_max rows (seq 0 (length pop)))
                     (seq 0 (length pop)) :: rest)) /\
  (forall (self : Population) (g : rng) (func : Function),
      let pop := _population self ++ _next_gen_pop self ++ [staged self func] in
      _generation (value (register_function self g func)) = _generation self + 1 ->
      exists rows rest,
        map score pop = map Some rows /\ rectangular rows = true /\
        neg_array (map score pop) = Ok (map (map PyFloat.neg) rows) /\
        NonDominatedSorting_do (map (map PyFloat.neg) rows) (_pop_size self)
        = filter (non_dominated_max rows (seq 0 (length pop)))
                 (seq 0 (length pop)) :: rest) /\
  (let pop := [Ex.a; Ex.b; Ex.c; Ex.d] in
   rbind (neg_array (map score pop))
         (fun F => Ok (hd [] (NonDominatedSorting_do F 4)))
   = Ok [0; 1; 2] /\
   pareto_dominates_max (score_row Ex.a) (score_row Ex.d) = true /\
   pareto_dominates_max (score_row Ex.b) (score_row Ex.d) = true /\
   pareto_dominates_max (score_row Ex.c) (score_row Ex.d) = true).
Proof.
  assert (H1 : forall (pop : list Function) (rows : matrix) (pop_size : nat),
             pop <> [] -> map score pop = map Some rows -> rectangular rows = true ->
             neg_array (map score pop) = Ok (map (map PyFloat.neg) rows) /\
             exists rest,
               NonDominatedSorting_do (map (map PyFloat.neg) rows) pop_size
               = filter (non_dominated_max rows (seq 0 (length pop)))
                        (seq 0 (length pop)) :: rest).
  { intros pop rows pop_size Hne Hrows Hr.
    split; [apply neg_array_ok_iff; exists rows; auto|].
    assert (Hl : length rows = length pop).
    { rewrite <- (length_map Some rows), <- Hrows. apply length_map. }
    unfold NonDominatedSorting_do, non_dominated_sort.
    rewrite length_map, Hl.
    destruct pop as [|f pop]; [congruence|].
    cbn [length seq fronts_of stop_if_ranked].
    eexists. f_equal. apply filter_ext. intros i. apply non_dominated_neg. }
  split; [|split; [|repeat split; reflexivity]].
  - intros pop rows pop_size Hne Hrows Hr.
    destruct (H1 pop rows pop_size Hne Hrows Hr) as (HF & rest & E).
    split; [exact HF|]. exists rest. rewrite HF. simpl. now rewrite E.
  - intros self g func pop Hgen.
    assert (Hne : pop <> []).
    { subst pop. intros E. apply app_eq_nil in E as [_ E].
      apply app_eq_nil in E as [_ E]. discriminate. }
    destruct (register_dichotomy self g func) as [[Hg Hs]|Hacc].
    + rewrite register_discard in Hgen by assumption. simpl in Hgen. lia.
    + rewrite register_accept in Hgen by exact Hacc.
      destruct (update_cases self g (staged self func))
        as [(_ & E & _)|[(_ & F & m & s' & HF & _)|(_ & e & _ & _ & E & _)]];
        try (rewrite E in Hgen; simpl in Hgen; lia).
      apply neg_array_ok_iff in HF as (rows & Hrows & Hr & _).
      destruct (H1 pop rows (_pop_size self) Hne Hrows Hr) as (HF & rest & E).
      exists rows, rest. auto.
Qed.

(** *** Registration *)

Lemma update_below_capacity (self : Population) (g : rng) (func : Function) :
  length (_next_gen_pop self) + 1 < _pop_size self ->
  value (append_and_update self g func)
  = {| _population := _population self; _pop_size := _pop_size self;
       _next_gen_pop := _next_gen_pop self ++ [func];
       _generation := _generation self |}.
Proof.
  intros H. unfold append_and_update.
  rewrite length_app. simpl length.
  destruct (Nat.leb_spec (_pop_size self) (length (_next_gen_pop self) + 1));
    [lia|reflexivity].
Qed.

Lemma register_function_under_lock (self : Population) (g : rng) (func : Function) :
  under_lock false (trace (register_function self g func)) = true.
Proof.
  unfold register_function.
  destruct (_ && _); [reflexivity|].
  unfold has_duplicate_accesses, append_and_update.
  destruct (existsb _ (_population self));
    (destruct (_ <=? _); [|reflexivity]);
    destruct (survival _ _) as [s' [m|e']]; reflexivity.
Qed.

Lemma is_duplicate_of_spec (func f : Function) :
  is_duplicate_of func f = true <-> str f = str func \/ score func = score f.
Proof.
  unfold is_duplicate_of.
  rewrite orb_true_iff, String.eqb_eq, score_eqb_eq. reflexivity.
Qed.

Lemma has_duplicate_function_spec (self : Population) (func : Function) :
  has_duplicate_function self func = true <->
  exists f, In f (_population self ++ _next_gen_pop self) /\
            (str f = str func \/ score func = score f).
Proof.
  unfold has_duplicate_function.
  rewrite <- existsb_app, existsb_exists.
  split; intros (f & Hf & Hd); exists f; split; auto;
    now apply is_duplicate_of_spec.
Qed.

(** C5 (amended): a candidate without a score is discarded at
    generation 0, leaving the population as it was; at a later
    generation it is registered with its score set to the two-element
    vector of negative infinities, whatever the number of objectives of
    the other scores. *)
Theorem unscored_candidate_discarded_or_invalidated :
  forall (self : Population) (g : rng) (func : Function),
    score func = None ->
    (_generation self = 0 ->
     value (register_function self g func) = self /\
     rnd (register_function self g func) = g) /\
    (_generation self <> 0 ->
     staged self func = set_score func neg_inf_score /\
     score (staged self func) = Some [PyFloat.NegInf; PyFloat.NegInf] /\
     value (register_function self g func)
     = value (append_and_update self g (set_score func neg_inf_score)) /\
     (length (_next_gen_pop self) + 1 < _pop_size self ->
      value (register_function self g func)
      = {| _population := _population self; _pop_size := _pop_size self;
           _next_gen_pop := _next_gen_pop self ++ [set_score func neg_inf_score];
           _generation := _generation self |})).
Proof.
  intros self g func Hsc. split.
  - intros Hg. now rewrite register_discard.
  - intros Hg.
    assert (Hst : staged self func = set_score func neg_inf_score).
    { unfold staged, with_default_score. rewrite Hsc.
      destruct (has_duplicate_function self _); reflexivity. }
    assert (Hacc : value (register_function self g func)
                   = value (append_and_update self g (set_score func neg_inf_score))).
    { rewrite <- Hst. apply register_accept. now left. }
    repeat split; auto.
    + now rewrite Hst.
    + intros Hlt. rewrite Hacc. now apply update_below_capacity.
Qed.

(** C6: when the survival computation triggered by a registration
    raises, [register_function] still returns: the members are
    unchanged, the pending list is the old one with the candidate of
    this call appended, the generation is not incremented, and the lock
    has been released. *)
Theorem failed_survival_keeps_members_and_pending :
  forall (self : Population) (g : rng) (func : Function) (s : store rng) (e : exn),
    (_generation self <> 0 \/ score func <> None) ->
    _pop_size self <= length (_next_gen_pop self) + 1 ->
    survival (_pop_size self)
             {| objects := _population self ++ _next_gen_pop self
                           ++ [staged self func];
                seed := g |} = (s, Raise e) ->
    value (register_function self g func)
    = {| _population := _population self; _pop_size := _pop_size self;
         _next_gen_pop := _next_gen_pop self ++ [staged self func];
         _generation := _generation self |} /\
    under_lock false (trace (register_function self g func)) = true.
Proof.
  intros self g func s e Hacc Hge Hraise.
  rewrite register_accept by exact Hacc.
  apply survival_raise_inv in Hraise as [Hneg ->].
  split.
  - destruct (update_cases self g (staged self func))
      as [(Hlt & _)|[(_ & F & m & s' & HF & _)|(_ & e' & _ & _ & E & _)]].
    + rewrite length_app in Hlt. simpl in Hlt. lia.
    + congruence.
    + exact E.
  - apply register_function_under_lock.
Qed.

(** C7 (amended): for a positive capacity, after every sequence of
    registrations from the empty population the pending list is shorter
    than the capacity unless the survival computation on the current
    pool raises; a registration that leaves the pending list below the
    capacity only appends, and one that makes it reach the capacity
    triggers the survival computation, which either completes
    (generation incremented, pending list emptied) or raises (pending
    list kept with the new candidate, generation unchanged). *)
Theorem pending_below_capacity_unless_survival_failed :
  forall pop_size : nat,
    0 < pop_size ->
    (forall (g : rng) (funcs : list Function),
        let self := fst (register_all (init pop_size) g funcs) in
        length (_next_gen_pop self) < pop_size \/
        exists e, neg_array (map score (_population self ++ _next_gen_pop self))
                  = Raise e) /\
    (forall (self : Population) (g : rng) (func : Function),
        _pop_size self = pop_size ->
        (_generation self <> 0 \/ score func <> None) ->
        let self' := value (register_function self g func) in
        let pending := _next_gen_pop self ++ [staged self func] in
        (length pending < pop_size ->
         _next_gen_pop self' = pending /\ _generation self' = _generation self) /\
        (pop_size <= length pending ->
         (_generation self' = _generation self + 1 /\ _next_gen_pop self' = []) \/
         (exists e, neg_array (map score (_population self ++ pending)) = Raise e /\
                    _generation self' = _generation self /\
                    _next_gen_pop self' = pending))).
Proof.
  intros pop_size Hpos.
  assert (Hcall : forall (self : Population) (g : rng) (func : Function),
             _pop_size self = pop_size ->
             (_generation self <> 0 \/ score func <> None) ->
             let self' := value (register_function self g func) in
             let pending := _next_gen_pop self ++ [staged self func] in
             (length pending < pop_size ->
              _next_gen_pop self' = pending /\ _generation self' = _generation self) /\
             (pop_size <= length pending ->
              (_generation self' = _generation self + 1 /\ _next_gen_pop self' = []) \/
              (exists e, neg_array (map score (_population self ++ pending)) = Raise e /\
                         _generation self' = _generation self /\
                         _next_gen_pop self' = pending))).
  { intros self g func Hsz Hacc self' pending. subst self'.
    rewrite register_accept by exact Hacc. fold pending.
    destruct (update_cases self g (staged self func))
      as [(Hlt & E & _)|[(Hge & F & m & s' & HF & _ & E & _)|(Hge & e & HF & _ & E & _)]];
      fold pending in Hlt || fold pending in Hge; rewrite E; simpl; split; intros H;
        try lia; auto.
    right. exists e. auto. }
  split; [|exact Hcall].
  assert (Hrun : forall (funcs : list Function) (self : Population) (g : rng),
             _pop_size self = pop_size ->
             (length (_next_gen_pop self) < pop_size \/
              exists e, neg_array (map score (_population self ++ _next_gen_pop self))
                        = Raise e) ->
             let self' := fst (register_all self g funcs) in
             length (_next_gen_pop self') < pop_size \/
             exists e, neg_array (map score (_population self' ++ _next_gen_pop self'))
                       = Raise e).
  { induction funcs as [|func funcs IH]; intros self g Hsz Hinv; simpl; auto.
    apply IH; [now rewrite register_pop_size|].
    destruct (register_dichotomy self g func) as [[Hg Hs]|Hacc].
    - now rewrite register_discard.
    - destruct (Hcall self g func Hsz Hacc) as [Hbelow Hreach].
      destruct (Nat.lt_ge_cases (length (_next_gen_pop self ++ [staged self func]))
                                pop_size) as [Hlt|Hge].
      + destruct (Hbelow Hlt) as [-> _]. now left.
      + destruct (Hreach Hge) as [[_ ->]|(e & HF & _ & Hp)].
        * left. simpl. exact Hpos.
        * right. exists e. rewrite Hp.
          rewrite register_accept by exact Hacc.
          destruct (update_cases self g (staged self func))
            as [(Hlt & _)|[(_ & F & m & s' & HF' & _)|(_ & e' & _ & _ & -> & _)]];
            [lia|congruence|exact HF]. }
  intros g funcs. apply Hrun; simpl; auto.
Qed.

(** *** Parent selection *)

Lemma valid_functions_ok (l : list Function) :
  Forall evaluated l -> valid_functions l = Ok (filter valid l).
Proof.
  induction 1 as [|f l (Hs & _) _ IH]; simpl; auto.
  unfold is_valid, valid. destruct (score f); [|congruence].
  simpl. rewrite IH. simpl. reflexivity.
Qed.



Lemma tournament_ok (p0 p1 : Function) :
  evaluated p0 -> evaluated p1 ->
  exists r0 r1 c0 c1,
    rank p0 = Some r0 /\ rank p1 = Some r1 /\
    crowding p0 = Some c0 /\ crowding p1 = Some c1 /\
    tournament p0 p1
    = Ok (if r0 <? r1 then p0 else if r1 <? r0 then p1
          else if PyFloat.gtb c0 c1 then p0 else p1).
Proof.
  intros (_ & R0 & C0) (_ & R1 & C1). unfold tournament.
  destruct (rank p0) as [r0|]; [|congruence].
  destruct (rank p1) as [r1|]; [|congruence].
  destruct (crowding p0) as [c0|]; [|congruence].
  destruct (crowding p1) as [c1|]; [|congruence].
  exists r0, r1, c0, c1. simpl.
  repeat split.
  destruct (r0 <? r1); auto. destruct (r1 <? r0); auto.
  destruct (PyFloat.gtb c0 c1); auto.
Qed.

Lemma selection_cases (self : Population) (g : rng) :
  Forall evaluated (_population self) ->
  let funcs := filter valid (_population self) in
  (funcs = [] -> value (selection self g) = Raise IndexError) /\
  (forall f, funcs = [f] -> value (selection self g) = Ok f) /\
  (1 < length funcs ->
   exists i j p0 p1 r0 r1 c0 c1,
     fst (random_choice g (length funcs)) = (i, j) /\ i <> j /\
     nth_error funcs i = Some p0 /\ nth_error funcs j = Some p1 /\
     rank p0 = Some r0 /\ rank p1 = Some r1 /\
     crowding p0 = Some c0 /\ crowding p1 = Some c1 /\
     value (selection self g)
     = Ok (if r0 <? r1 then p0 else if r1 <? r0 then p1
           else if PyFloat.gtb c0 c1 then p0 else p1)).
Proof.
  intros Hev funcs. unfold selection.
  rewrite (valid_functions_ok Hev). fold funcs.
  split; [|split].
  - intros ->. reflexivity.
  - intros f ->. reflexivity.
  - intros Hlen.
    destruct (Nat.ltb_spec 1 (length funcs)); [|lia].
    destruct (random_choice_distinct g (n := length funcs) ltac:(lia))
      as (Hi & Hj & Hij).
    destruct (random_choice g (length funcs)) as [[i j] g'] eqn:ER.
    simpl in Hi, Hj, Hij.
    destruct (nth_error funcs i) as [p0|] eqn:E0;
      [|apply nth_error_None in E0; lia].
    destruct (nth_error funcs j) as [p1|] eqn:E1;
      [|apply nth_error_None in E1; lia].
    assert (Hin : forall p, In p funcs -> evaluated p).
    { intros p Hp. apply filter_In in Hp as [Hp _].
      rewrite Forall_forall in Hev. now apply Hev. }
    destruct (@tournament_ok p0 p1) as (r0 & r1 & c0 & c1 & R0 & R1 & C0 & C1 & ET).
    { eapply Hin, nth_error_In; eauto. }
    { eapply Hin, nth_error_In; eauto. }
    exists i, j, p0, p1, r0, r1, c0, c1.
    repeat (split; [solve [auto]|]).
    simpl. unfold getitem. rewrite E0, E1. simpl. exact ET.
Qed.








(** *** The sample space of the draw *)











(** C10 (amended): every call of [register_function] keeps the lock
    discipline: the lock is taken once, every write to the members, the
    pending list or the generation happens while it is held, and it is
    released on every path on which it was taken (a discarded candidate
    returns before taking it); [selection] reads the members without
    taking the lock. *)
Theorem register_function_locks_selection_does_not :
  (forall (self : Population) (g : rng) (func : Function),
      under_lock false (trace (register_function self g func)) = true /\
      (_generation self = 0 /\ score func = None ->
       trace (register_function self g func) = [Read Generation] /\
       value (register_function self g func) = self) /\
      (_generation self <> 0 \/ score func <> None ->
       exists body,
         trace (register_function self g func)
         = [Read Generation; Acquire] ++ body ++ [Release] /\
         no_lock_operation body = true)) /\
  (forall (self : Population) (g : rng),
      trace (selection self g) = [Read Members] /\
      members_read_under_lock false (trace (selection self g)) = false).
Proof.
  split.
  - intros self g func.
    split; [apply register_function_under_lock|]. split.
    + intros [Hg Hs]. now rewrite register_discard.
    + intros Hacc.
      exists (has_duplicate_accesses self (with_default_score func)
              ++ trace (append_and_update self g (staged self func))).
      split.
      * unfold register_function.
        assert (Hb : (_generation self =? 0) && is_none (score func) = false).
        { destruct (Nat.eqb_spec (_generation self) 0); simpl; auto.
          destruct (score func); simpl; auto. destruct Hacc; congruence. }
        rewrite Hb. cbn [trace]. now rewrite <- app_assoc.
      * unfold no_lock_operation, has_duplicate_accesses, append_and_update.
        destruct (existsb _ (_population self));
          (destruct (_ <=? _); [|reflexivity]);
          destruct (survival _ _) as [s' [m|e']]; reflexivity.
  - intros self g.
    assert (E : trace (selection self g) = [Read Members]).
    { unfold selection.
      destruct (valid_functions _) as [funcs|e]; [|reflexivity].
      destruct (1 <? length funcs); [|reflexivity].
      destruct (random_choice g (length funcs)) as [[i j] g']. reflexivity. }
    now rewrite E.
Qed.

(** ** Beyond the claims: what the survival loop keeps, exactly *)

Lemma nth_error_point_update_other {A} (l : list A) (i i' : nat) (a : A) :
  i < length l -> i' <> i ->
  nth_error (firstn i l ++ a :: skipn (S i) l) i' = nth_error l i'.
Proof.
  intros Hi Hne. destruct (Nat.lt_ge_cases i' i) as [Hlt|Hge].
  - rewrite nth_error_app1 by (rewrite length_firstn; lia).
    rewrite nth_error_firstn.
    destruct (Nat.ltb_spec i' i); [reflexivity|lia].
  - rewrite nth_error_app2 by (rewrite length_firstn; lia).
    rewrite length_firstn, Nat.min_l by lia.
    destruct (i' - i) as [|d] eqn:E; [lia|].
    cbn [nth_error]. rewrite nth_error_skipn. f_equal. lia.
Qed.

Lemma setattr_frame (i : nat) (upd : Function -> Function) (s : store rng) :
  i < length (objects s) -> (forall f, updated f (upd f)) ->
  exists objs',
    setattr i upd s = ({| objects := objs'; seed := seed s |}, Ok tt) /\
    Forall2 updated (objects s) objs' /\
    (forall f, nth_error (objects s) i = Some f ->
               nth_error objs' i = Some (upd f)) /\
    (forall i', i' <> i -> nth_error objs' i' = nth_error (objects s) i').
Proof.
  intros Hi Hu. unfold setattr.
  destruct (nth_error (objects s) i) as [f|] eqn:E.
  - eexists. split; [reflexivity|]. split; [|split].
    + apply Forall2_point_update with (f := f); auto using updated_refl.
    + intros f' Hf'. inversion Hf'; subst.
      now apply nth_error_point_update.
    + intros i' Hne. now apply nth_error_point_update_other.
  - apply nth_error_None in E. lia.
Qed.

Lemma save_rank_crowding_frame (k : nat) (cr : list pyfloat) (front : list nat) :
  forall (j : nat) (s : store rng),
    j + length front <= length cr ->
    Forall (fun i => i < length (objects s)) front ->
    exists objs',
      save_rank_crowding k cr j front s
        = ({| objects := objs'; seed := seed s |}, Ok tt) /\
      Forall2 updated (objects s) objs' /\
      (forall i, ~ In i front -> nth_error objs' i = nth_error (objects s) i) /\
      (forall i, In i front ->
                 exists f, nth_error objs' i = Some f /\
                           rank f = Some k /\ crowding f <> None).
Proof.
  induction front as [|i front IH]; intros j s Hj Hf; simpl.
  - exists (objects s). unfold ret. destruct s; simpl.
    repeat split; auto using Forall2_updated_refl. intros i [].
  - inversion Hf as [|? ? Hi Hf']; subst. simpl in Hj.
    destruct (@setattr_frame i (fun f => set_rank f k) s Hi)
      as (o1 & E1 & U1 & N1 & O1).
    { intros f. unfold updated; simpl. repeat split; auto. discriminate. }
    erewrite bind_ok by exact E1.
    assert (Hjc : j < length cr) by lia.
    unfold bind at 1, lift. rewrite (getitem_ok cr PyFloat.NegInf Hjc).
    set (c := nth j cr PyFloat.NegInf).
    set (s1 := {| objects := o1; seed := seed s |}).
    assert (Hi1 : i < length (objects s1)).
    { simpl. now rewrite (Forall2_updated_length U1). }
    destruct (@setattr_frame i (fun f => set_crowding f c) s1 Hi1)
      as (o2 & E2 & U2 & N2 & O2).
    { intros f. unfold updated; simpl. repeat split; auto. discriminate. }
    erewrite bind_ok by exact E2.
    set (s2 := {| objects := o2; seed := seed s1 |}).
    assert (Hf2 : Forall (fun i => i < length (objects s2)) front).
    { simpl. rewrite (Forall2_updated_length U2). simpl.
      rewrite (Forall2_updated_length U1). exact Hf'. }
    destruct (IH (S j) s2 ltac:(lia) Hf2) as (o3 & E3 & U3 & O3 & R3).
    exists o3. split; [exact E3|]. split; [|split].
    + eauto using Forall2_updated_trans.
    + intros i' Hn. rewrite O3 by (intros H; apply Hn; now right).
      simpl. rewrite O2 by (intros ->; apply Hn; now left).
      simpl. apply O1. intros ->. apply Hn. now left.
    + intros i' [<-|Hin]; [|now apply R3].
      destruct (in_dec Nat.eq_dec i front) as [Hin|Hn]; [now apply R3|].
      rewrite (O3 i Hn). simpl.
      destruct (nth_error (objects s) i) as [f|] eqn:Ef;
        [|apply nth_error_None in Ef; lia].
      specialize (N1 f eq_refl). specialize (N2 _ N1).
      eexists. split; [exact N2|]. simpl. split; [reflexivity|discriminate].
Qed.

Lemma NoDup_map_nth (front I : list nat) :
  NoDup front -> NoDup I -> Forall (fun t => t < length front) I ->
  NoDup (map (fun t => nth t front 0) I).
Proof.
  intros Hf HI Hr.
  apply NoDup_map_NoDup_ForallPairs; [|exact HI].
  intros t u Ht Hu E.
  rewrite Forall_forall in Hr.
  apply (proj1 (NoDup_nth front 0) Hf); auto.
Qed.

(** One front: the candidates kept, the objects written, the others
    left alone. *)
Lemma survival_front_exact (pop_size k : nat) (F : matrix)
      (front survivors : list nat) (s : store rng) :
  Forall (fun i => i < length F) front ->
  Forall (fun i => i < length (objects s)) front ->
  exists sel objs' g',
    survival_front pop_size k F front survivors s
      = ({| objects := objs'; seed := g' |}, Ok (survivors ++ sel)) /\
    Forall2 updated (objects s) objs' /\
    (forall i, ~ In i front -> nth_error objs' i = nth_error (objects s) i) /\
    (forall i, In i front ->
               exists f, nth_error objs' i = Some f /\
                         rank f = Some k /\ crowding f <> None) /\
    ((length survivors + length front <= pop_size /\ sel = front) \/
     (pop_size < length survivors + length front /\ incl sel front /\
      (NoDup front -> NoDup sel) /\
      length sel = pop_size - length survivors)).
Proof.
  intros HF Hs.
  destruct (@crowding_and_positions_spec pop_size F front survivors s HF)
    as (cr & I & g' & EC & Hcr & HIr & HND & HIl & _).
  set (s1 := {| objects := objects s; seed := g' |}) in *.
  destruct (@save_rank_crowding_frame k cr front 0 s1 ltac:(lia) Hs)
    as (objs' & ES & U & O & R).
  exists (map (fun t => nth t front 0) I), objs', g'.
  split; [|split; [exact U|split; [exact O|split; [exact R|]]]].
  - unfold survival_front.
    erewrite bind_ok by exact EC. simpl fst. simpl snd.
    erewrite bind_ok by exact ES.
    unfold bind, lift, ret. now rewrite (take_ok front 0 HIr).
  - destruct (Nat.lt_ge_cases pop_size (length survivors + length front))
      as [Hov|Hfit].
    + right. split; [exact Hov|]. split; [|split].
      * intros x Hx. apply in_map_iff in Hx as (t & <- & Ht).
        apply nth_In. rewrite Forall_forall in HIr. now apply HIr.
      * intros Hf. now apply NoDup_map_nth.
      * rewrite length_map, HIl. lia.
    + left. split; [exact Hfit|].
      assert (EI : I = seq 0 (length front)).
      { unfold crowding_and_positions in EC. rewrite length_seq in EC.
        destruct (Nat.ltb_spec pop_size (length survivors + length front));
          [lia|].
        unfold bind, lift, ret in EC. rewrite (take_ok F [] HF) in EC.
        now inversion EC. }
      rewrite EI. apply map_nth_seq.
Qed.


Lemma NoDup_app_disjoint {A} (l1 l2 : list A) :
  NoDup (l1 ++ l2) -> forall a, In a l1 -> In a l2 -> False.
Proof.
  induction l1 as [|x l1 IH]; simpl; intros H a Ha Hb; [tauto|].
  inversion H as [|? ? Hx Hn]; subst.
  destruct Ha as [<-|Ha]; [|eauto].
  apply Hx, in_or_app. now right.
Qed.

Lemma taken_concat_incl (cap s : nat) (fronts sels : list (list nat)) :
  taken cap s fronts sels -> incl (concat sels) (concat fronts).
Proof.
  induction 1 as [s|s front fronts sels Hfit _ IH
                  |s front fronts sel sels Hov Hincl _ _ _ IH]; simpl.
  - apply incl_refl.
  - apply incl_app; [apply incl_appl, incl_refl|now apply incl_appr].
  - apply incl_app; [now apply incl_appl|now apply incl_appr].
Qed.

Lemma taken_NoDup (cap s : nat) (fronts sels : list (list nat)) :
  taken cap s fronts sels -> NoDup (concat fronts) -> NoDup (concat sels).
Proof.
  induction 1 as [s|s front fronts sels Hfit Ht IH
                  |s front fronts sel sels Hov Hincl Hnd Hlen Ht IH];
    simpl; intros HN; auto.
  - apply NoDup_app.
    + now apply NoDup_app_remove_r in HN.
    + apply IH. now apply NoDup_app_remove_l in HN.
    + intros a Ha Hb. apply (taken_concat_incl Ht) in Hb.
      revert a Ha Hb. now apply NoDup_app_disjoint.
  - apply NoDup_app.
    + apply Hnd. now apply NoDup_app_remove_r in HN.
    + apply IH. now apply NoDup_app_remove_l in HN.
    + intros a Ha Hb. apply Hincl in Ha.
      apply (taken_concat_incl Ht) in Hb.
      revert a Ha Hb. now apply NoDup_app_disjoint.
Qed.

Lemma taken_count (cap s : nat) (fronts sels : list (list nat)) :
  taken cap s fronts sels ->
  length (concat sels) = Nat.min (length (concat fronts)) (cap - s).
Proof.
  induction 1 as [s|s front fronts sels Hfit _ IH
                  |s front fronts sel sels Hov _ _ Hlen _ IH];
    simpl; rewrite ?length_app; try lia.
Qed.

Lemma taken_all_empty (cap s : nat) (fronts sels : list (list nat)) :
  taken cap s fronts sels -> cap <= s -> Forall (fun sel => sel = []) sels.
Proof.
  induction 1 as [s|s front fronts sels Hfit _ IH
                  |s front fronts sel sels Hov _ _ Hlen _ IH]; intros Hs.
  - constructor.
  - constructor; [|apply IH; lia].
    destruct front; [reflexivity|simpl in Hfit; lia].
  - constructor; [|apply IH; lia].
    destruct sel; [reflexivity|simpl in Hlen; lia].
Qed.

Lemma taken_nth (cap s : nat) (fronts sels : list (list nat)) :
  taken cap s fronts sels ->
  forall m sel, nth_error sels m = Some sel ->
                exists front, nth_error fronts m = Some front /\ incl sel front.
Proof.
  induction 1 as [s|s front fronts sels Hfit _ IH
                  |s front fronts sel0 sels Hov Hincl _ _ _ IH];
    intros [|m] sel E; simpl in *; try discriminate.
  - inversion E; subst. eauto using incl_refl.
  - now apply IH.
  - inversion E; subst. eauto.
  - now apply IH.
Qed.

(** Once a front has left a candidate among the survivors, every
    earlier front was kept whole. *)
Lemma taken_closed (cap s : nat) (fronts sels : list (list nat)) :
  taken cap s fronts sels -> s <= cap ->
  forall m sel, nth_error sels m = Some sel -> sel <> [] ->
                forall m', m' < m -> nth_error sels m' = nth_error fronts m'.
Proof.
  induction 1 as [s|s front fronts sels Hfit Ht IH
                  |s front fronts sel0 sels Hov Hincl Hnd Hlen Ht IH];
    intros Hs [|m] sel E Hne m' Hm'; simpl in *; try discriminate; try lia.
  - destruct m' as [|m']; [reflexivity|].
    simpl. apply (IH ltac:(lia) m sel E Hne). lia.
  - exfalso.
    pose proof (taken_all_empty Ht ltac:(lia)) as Hall.
    rewrite Forall_forall in Hall.
    apply Hne, Hall. eapply nth_error_In; eauto.
Qed.

(** The whole loop. *)
Lemma survival_loop_exact (pop_size : nat) (F : matrix) (fronts : list (list nat)) :
  forall (k : nat) (survivors : list nat) (s : store rng),
    Forall (Forall (fun i => i < length F)) fronts ->
    Forall (Forall (fun i => i < length (objects s))) fronts ->
    NoDup (concat fronts) ->
    exists sels s',
      survival_loop pop_size k F fronts survivors s
        = (s', Ok (survivors ++ concat sels)) /\
      Forall2 updated (objects s) (objects s') /\
      taken pop_size (length survivors) fronts sels /\
      (forall i, ~ In i (concat fronts) ->
                 nth_error (objects s') i = nth_error (objects s) i) /\
      (forall m front i,
          nth_error fronts m = Some front -> In i front ->
          exists f, nth_error (objects s') i = Some f /\
                    rank f = Some (k + m) /\ crowding f <> None).
Proof.
  induction fronts as [|front fronts IH]; intros k survivors s HF Hs HN.
  - exists [], s. simpl. unfold ret. rewrite app_nil_r.
    repeat split; auto using Forall2_updated_refl.
    + constructor.
    + intros [|m] front i E; discriminate.
  - inversion HF as [|? ? HF1 HF2]; subst.
    inversion Hs as [|? ? Hs1 Hs2]; subst.
    simpl in HN.
    destruct (@survival_front_exact pop_size k F front survivors s HF1 Hs1)
      as (sel & objs1 & g1 & EF & U1 & O1 & R1 & Hsel).
    set (s1 := {| objects := objs1; seed := g1 |}).
    assert (Hs2' : Forall (Forall (fun i => i < length (objects s1))) fronts).
    { simpl. rewrite (Forall2_updated_length U1). exact Hs2. }
    destruct (IH (S k) (survivors ++ sel) s1 HF2 Hs2'
                 (NoDup_app_remove_l _ _ HN))
      as (sels & s' & EL & U' & HT & O' & R').
    exists (sel :: sels), s'.
    split; [|split; [|split; [|split]]].
    + simpl. erewrite bind_ok by exact EF.
      fold s1. rewrite EL. now rewrite <- app_assoc.
    + eauto using Forall2_updated_trans.
    + rewrite length_app in HT.
      destruct Hsel as [(Hfit & ->)|(Hov & Hincl & Hnd & Hlen)].
      * now apply taken_whole.
      * now apply taken_part.
    + intros i Hn. simpl in Hn. rewrite in_app_iff in Hn.
      rewrite O' by tauto. simpl. apply O1. tauto.
    + intros [|m] fr i E Hi; simpl in E.
      * inversion E; subst fr.
        destruct (R1 i Hi) as (f & Ef & Hr & Hc).
        exists f. rewrite Nat.add_0_r. split; [|auto].
        rewrite O'; [exact Ef|].
        intros Hin. revert Hi Hin. now apply NoDup_app_disjoint.
      * destruct (R' m fr i E Hi) as (f & Ef & Hr & Hc).
        exists f. split; [exact Ef|]. split; [|exact Hc].
        rewrite Hr. f_equal. lia.
Qed.


Lemma stop_if_ranked_prefix (n s : nat) (fronts : list (list nat)) :
  exists p, stop_if_ranked n s fronts = firstn p fronts.
Proof.
  revert s; induction fronts as [|f fs IH]; intros s; simpl.
  - exists 0. reflexivity.
  - destruct (n <=? s + length f).
    + exists 1. reflexivity.
    + destruct (IH (s + length f)) as (p & ->). now exists (S p).
Qed.

Lemma nth_error_firstn_Some {A} (p m : nat) (l : list A) (x : A) :
  nth_error (firstn p l) m = Some x -> nth_error l m = Some x /\ m < p.
Proof.
  rewrite nth_error_firstn.
  destruct (Nat.ltb_spec m p); [auto|discriminate].
Qed.

(** A row dominating a row of some front lies in an earlier front. *)
Lemma fronts_of_dominator_earlier (F : matrix) :
  forall (fuel : nat) (pool : list nat) (m : nat) (front : list nat) (j i : nat),
    nth_error (fronts_of fuel F pool) m = Some front -> In j front ->
    In i pool -> dominates (row F i) (row F j) = true ->
    exists m' front',
      m' < m /\ nth_error (fronts_of fuel F pool) m' = Some front' /\ In i front'.
Proof.
  induction fuel as [|fuel IH]; intros pool m front j i E Hj Hi Hd.
  - destruct m; discriminate.
  - destruct pool as [|a pool]; [destruct m; discriminate|].
    cbn [fronts_of] in *. set (pl := a :: pool) in *.
    destruct m as [|m]; cbn [nth_error] in E.
    + assert (Hfront : front = filter (non_dominated F pl) pl) by congruence.
      rewrite Hfront in Hj. apply filter_In in Hj as [_ Hnd].
      unfold non_dominated in Hnd. apply negb_true_iff in Hnd.
      assert (Hex : existsb (fun j0 => dominates (row F j0) (row F j)) pl = true)
        by (apply existsb_exists; eauto).
      congruence.
    + destruct (non_dominated F pl i) eqn:Hnd.
      * exists 0, (filter (non_dominated F pl) pl).
        split; [lia|]. split; [reflexivity|]. apply filter_In. auto.
      * assert (Hrest : In i (filter (fun i0 => negb (non_dominated F pl i0)) pl)).
        { apply filter_In. split; [exact Hi|]. now rewrite Hnd. }
        destruct (IH _ m front j i E Hj Hrest Hd) as (m' & front' & Hlt & E' & Hi').
        exists (S m'), front'. split; [lia|]. split; [exact E'|exact Hi'].
Qed.

Lemma non_dominated_sort_first (F : matrix) (front : list nat) :
  nth_error (non_dominated_sort F) 0 = Some front ->
  front = filter (non_dominated F (seq 0 (length F))) (seq 0 (length F)).
Proof.
  unfold non_dominated_sort.
  destruct (length F) as [|n]; [discriminate|].
  cbn [fronts_of seq nth_error]. now intros [= <-].
Qed.

Lemma in_concat_nth {A} (ls : list (list A)) (a : A) :
  In a (concat ls) -> exists m l, nth_error ls m = Some l /\ In a l.
Proof.
  intros H. apply in_concat in H as (l & Hl & Ha).
  apply In_nth_error in Hl as (m & Hm). eauto.
Qed.

Lemma sorted_by_front (r : nat -> nat) (sels : list (list nat)) :
  forall k0,
    (forall m sel i, nth_error sels m = Some sel -> In i sel -> r i = k0 + m) ->
    StronglySorted le (map r (concat sels)).
Proof.
  induction sels as [|sel sels IH]; intros k0 H; simpl; [constructor|].
  rewrite map_app.
  assert (Hsel : forall i, In i sel -> r i = k0).
  { intros i Hi. rewrite (H 0 sel i eq_refl Hi). lia. }
  assert (Htail : forall b, In b (map r (concat sels)) -> k0 <= b).
  { intros b Hb. apply in_map_iff in Hb as (i & <- & Hi).
    apply in_concat_nth in Hi as (m & l & Hm & Hl).
    rewrite (H (S m) l i Hm Hl). lia. }
  apply StronglySorted_app.
  - clear - Hsel. induction sel as [|x sel IHs]; simpl; constructor.
    + apply IHs. intros i Hi. apply Hsel. now right.
    + apply Forall_forall. intros b Hb. apply in_map_iff in Hb as (i & <- & Hi).
      rewrite (Hsel x (or_introl eq_refl)), (Hsel i (or_intror Hi)). lia.
  - apply (IH (S k0)). intros m l i Hm Hl.
    rewrite (H (S m) l i Hm Hl). lia.
  - intros x b Hx Hb. apply in_map_iff in Hx as (i & <- & Hi).
    rewrite (Hsel i Hi). now apply Htail.
Qed.

(** The survival computation on a pool whose score matrix can be built:
    the new members are the objects at distinct pool positions [idx],
    closed under dominance, listed by non-decreasing rank, those of
    rank 0 being non-dominated. *)
Lemma survival_selection (pop_size : nat) (pop : list Function) (g : rng)
      (F : matrix) :
  neg_array (map score pop) = Ok F ->
  exists idx objs' g' members',
    survival pop_size {| objects := pop; seed := g |}
    = ({| objects := objs'; seed := g' |}, Ok members') /\
    Forall2 updated pop objs' /\
    Forall2 (fun i f' => nth_error objs' i = Some f') idx members' /\
    NoDup idx /\
    length idx = Nat.min pop_size (length pop) /\
    (forall i j, In j idx -> i < length pop ->
                 dominates (row F i) (row F j) = true -> In i idx) /\
    StronglySorted le (map rank_index members') /\
    (forall j f', In j idx -> nth_error objs' j = Some f' -> rank f' = Some 0 ->
                  non_dominated F (seq 0 (length pop)) j = true) /\
    (length (filter (non_dominated F (seq 0 (length pop))) (seq 0 (length pop)))
     <= pop_size ->
     forall j, j < length pop -> non_dominated F (seq 0 (length pop)) j = true ->
               In j idx).
Proof.
  intros HFa.
  destruct (@neg_array_inv _ F HFa) as (rows & Hrows & _ & HU & HFl).
  rewrite length_map in HFl.
  pose proof (non_dominated_sort_perm HU) as HP.
  destruct (stop_if_ranked_prefix pop_size 0 (non_dominated_sort F)) as (p & Hp).
  set (fronts := NonDominatedSorting_do F pop_size).
  assert (Hfr : fronts = firstn p (non_dominated_sort F)) by exact Hp.
  assert (HNall : NoDup (concat (non_dominated_sort F))).
  { apply (Permutation_NoDup (Permutation_sym HP)), seq_NoDup. }
  assert (HN : NoDup (concat fronts)).
  { rewrite Hfr. rewrite <- (firstn_skipn p (non_dominated_sort F)) in HNall.
    rewrite concat_app in HNall. now apply NoDup_app_remove_r in HNall. }
  assert (Hall : Forall (Forall (fun i => i < length F)) fronts).
  { apply Forall_forall. intros front Hfront.
    apply stop_if_ranked_incl in Hfront.
    apply Forall_forall. intros i Hi.
    assert (Hc : In i (concat (non_dominated_sort F))).
    { apply in_concat. eauto. }
    apply (Permutation_in _ HP), in_seq in Hc. lia. }
  set (s0 := {| objects := pop; seed := g |}).
  assert (Hall' : Forall (Forall (fun i => i < length (objects s0))) fronts).
  { simpl. now rewrite <- HFl. }
  destruct (@survival_loop_exact pop_size F fronts 0 [] s0 Hall Hall' HN)
    as (sels & [objs' g'] & EL & U & HT & O & R).
  simpl in U, EL, HT, O, R.
  pose proof (Forall2_updated_length U) as Hlen.
  assert (Hsr : Forall (fun i => i < length objs') (concat sels)).
  { apply Forall_forall. intros i Hi.
    apply (taken_concat_incl HT) in Hi.
    apply in_concat in Hi as (front & Hfront & Hi).
    rewrite Forall_forall in Hall. specialize (Hall front Hfront).
    rewrite Forall_forall in Hall. specialize (Hall i Hi). lia. }
  set (d := mkFunction EmptyString None None None).
  exists (concat sels), objs', g', (map (fun i => nth i objs' d) (concat sels)).
  split; [|split; [exact U|split; [|split; [|split; [|split; [|split; [|split]]]]]]].
  - unfold survival. unfold bind at 1. unfold bind at 1, lift at 1.
    fold s0. simpl objects at 1. rewrite HFa.
    fold fronts. erewrite bind_ok by exact EL.
    unfold bind, lift. simpl. now rewrite (take_ok objs' d Hsr).
  - clear - Hsr. induction Hsr as [|i l Hi _ IH]; simpl; constructor; auto.
    now apply nth_error_nth'.
  - now apply (taken_NoDup HT).
  - rewrite (taken_count HT), Nat.sub_0_r.
    pose proof (stop_if_ranked_count pop_size 0 (non_dominated_sort F)) as E.
    simpl in E. fold (NonDominatedSorting_do F pop_size) in E. fold fronts in E.
    rewrite (Permutation_length HP), length_seq, HFl in E. lia.
  - intros i j Hj Hi Hd.
    apply in_concat_nth in Hj as (m & sel & Hm & Hjs).
    destruct (taken_nth HT m Hm) as (front & Hfm & Hincl).
    rewrite Hfr in Hfm. apply nth_error_firstn_Some in Hfm as [Hfm Hmp].
    assert (Hip : In i (seq 0 (length F))) by (apply in_seq; lia).
    destruct (@fronts_of_dominator_earlier F _ _ m front j i Hfm (Hincl j Hjs) Hip Hd)
      as (m' & front' & Hlt & Hfm' & Hi').
    assert (Hsm' : nth_error sels m' = Some front').
    { assert (Hne : sel <> []) by (intros ->; destruct Hjs).
      rewrite (@taken_closed pop_size 0 fronts sels HT (Nat.le_0_l _)
                             m sel Hm Hne m' Hlt).
      rewrite Hfr, nth_error_firstn.
      destruct (Nat.ltb_spec m' p); [exact Hfm'|lia]. }
    apply in_concat. exists front'. split; [|exact Hi'].
    eapply nth_error_In; eauto.
  - rewrite map_map.
    apply (sorted_by_front (fun i => rank_index (nth i objs' d)) sels 0).
    intros m sel i Hm Hi.
    destruct (taken_nth HT m Hm) as (front & Hfm & Hincl).
    destruct (R m front i Hfm (Hincl i Hi)) as (f & Ef & Hr & _).
    rewrite (nth_error_nth _ _ d Ef). unfold rank_index. now rewrite Hr.
  - intros j f' Hj Ef' Hr0.
    apply in_concat_nth in Hj as (m & sel & Hm & Hjs).
    destruct (taken_nth HT m Hm) as (front & Hfm & Hincl).
    destruct (R m front j Hfm (Hincl j Hjs)) as (f & Ef & Hr & _).
    assert (m = 0) by congruence. subst m.
    rewrite Hfr in Hfm. apply nth_error_firstn_Some in Hfm as [Hfm _].
    apply non_dominated_sort_first in Hfm.
    specialize (Hincl j Hjs). rewrite Hfm in Hincl.
    apply filter_In in Hincl as [_ Hnd]. now rewrite <- HFl.
  - rewrite <- HFl. intros Hfit j Hj Hnd.
    assert (Hf0 : In j (filter (non_dominated F (seq 0 (length F)))
                               (seq 0 (length F)))).
    { apply filter_In. split; [apply in_seq; lia|exact Hnd]. }
    assert (Hhead : exists rest,
               fronts = filter (non_dominated F (seq 0 (length F)))
                               (seq 0 (length F)) :: rest).
    { unfold fronts, NonDominatedSorting_do, non_dominated_sort.
      destruct (length F) as [|n]; [lia|].
      cbn [fronts_of seq stop_if_ranked]. eauto. }
    destruct Hhead as (rest & Hhead). rewrite Hhead in HT.
    inversion HT as [|? ? ? sels' _ _|? ? ? ? ? Hov]; subst.
    + simpl. apply in_or_app. now left.
    + simpl in Hov. lia.
Qed.


Lemma Forall2_In_r {A B} (R : A -> B -> Prop) (l : list A) (l' : list B) (b : B) :
  Forall2 R l l' -> In b l' -> exists a, In a l /\ R a b.
Proof.
  induction 1 as [|x y l l' Hxy _ IH]; simpl; intros Hb; [tauto|].
  destruct Hb as [<-|Hb]; [eauto|].
  destruct (IH Hb) as (a & Ha & Hr). eauto.
Qed.

Lemma Forall2_In_l {A B} (R : A -> B -> Prop) (l : list A) (l' : list B) (a : A) :
  Forall2 R l l' -> In a l -> exists b, In b l' /\ R a b.
Proof.
  induction 1 as [|x y l l' Hxy _ IH]; simpl; intros Ha; [tauto|].
  destruct Ha as [<-|Ha]; [eauto|].
  destruct (IH Ha) as (b & Hb & Hr). eauto.
Qed.

Lemma Forall2_nth_error_r {A B} (R : A -> B -> Prop) (l : list A) (l' : list B)
      (i : nat) (b : B) :
  Forall2 R l l' -> nth_error l' i = Some b ->
  exists a, nth_error l i = Some a /\ R a b.
Proof.
  intros H; revert i; induction H as [|x y l l' Hxy _ IH]; intros [|i] E;
    simpl in *; try discriminate.
  - inversion E; subst. eauto.
  - now apply IH.
Qed.

Lemma score_row_of_rows (pool : list Function) (rows : matrix) (i : nat)
      (f : Function) :
  map score pool = map Some rows -> nth_error pool i = Some f ->
  score f = Some (row rows i) /\ score_row f = row rows i.
Proof.
  intros Hrows Ef.
  assert (Hs : nth_error (map score pool) i = Some (score f))
    by (rewrite nth_error_map, Ef; reflexivity).
  rewrite Hrows, nth_error_map in Hs.
  destruct (nth_error rows i) as [r|] eqn:Er; simpl in Hs; [|discriminate].
  inversion Hs as [Hsf]. unfold score_row, row.
  rewrite <- Hsf. now rewrite (nth_error_nth _ _ [] Er).
Qed.

(** A registration that advances the generation, in terms of the pool
    [members + pending + [candidate]] the survival computation ran on. *)
Lemma completed_registration (self : Population) (g : rng) (func : Function) :
  let pool := _population self ++ _next_gen_pop self ++ [staged self func] in
  let self' := value (register_function self g func) in
  _generation self' = _generation self + 1 ->
  exists rows idx objs',
    map score pool = map Some rows /\ uniform rows /\
    _pop_size self <= length (_next_gen_pop self) + 1 /\
    Forall2 updated pool objs' /\
    Forall2 (fun i f' => nth_error objs' i = Some f') idx (_population self') /\
    NoDup idx /\
    length idx = Nat.min (_pop_size self) (length pool) /\
    (forall i j, In j idx -> i < length pool ->
                 pareto_dominates_max (row rows i) (row rows j) = true ->
                 In i idx) /\
    StronglySorted le (map rank_index (_population self')) /\
    (forall j f', In j idx -> nth_error objs' j = Some f' -> rank f' = Some 0 ->
                  non_dominated_max rows (seq 0 (length pool)) j = true) /\
    Forall evaluated (_population self') /\
    (length (filter (non_dominated_max rows (seq 0 (length pool)))
                    (seq 0 (length pool))) <= _pop_size self ->
     forall j, j < length pool ->
               non_dominated_max rows (seq 0 (length pool)) j = true -> In j idx).
Proof.
  intros pool self' Hgen. subst self'.
  destruct (register_dichotomy self g func) as [[Hg Hs]|Hacc].
  - rewrite register_discard in Hgen by assumption. simpl in Hgen. lia.
  - rewrite register_accept in * by exact Hacc.
    destruct (update_cases self g (staged self func))
      as [(_ & E & _)|[(Hge & F & m & s' & HF & ES & E & _ & Hev)|(_ & e & _ & _ & E & _)]];
      rewrite E in *; simpl in Hgen; try lia.
    fold pool in HF, ES.
    destruct (@survival_selection (_pop_size self) pool g F HF)
      as (idx & objs' & g' & m' & ES' & U & Hidx & HN & Hl & Hcl & Hso & Hr0 & Hopt).
    assert (m' = m) by congruence. subst m'.
    destruct (@neg_array_inv _ F HF) as (rows & Hrows & HFr & _ & _).
    assert (Hur : uniform rows).
    { unfold neg_array in HF.
      destruct (all_scored (map score pool)) as [rows'|] eqn:Ea; [|discriminate].
      destruct (rectangular rows') eqn:Er; [|discriminate].
      inversion HF as [HF']. rewrite HFr in HF'.
      assert (rows' = rows).
      { clear - Ea Hrows. rewrite Hrows in Ea. clear Hrows.
        revert rows' Ea. induction rows as [|r rows IH]; simpl; intros rows' Ea.
        - now inversion Ea.
        - destruct (all_scored (map Some rows)) as [t|]; [|discriminate].
          inversion Ea. f_equal. now apply IH. }
      subst rows'. now apply rectangular_uniform. }
    exists rows, idx, objs'. simpl.
    rewrite length_app in Hge. simpl in Hge.
    repeat (split; [assumption|]).
    split; [|split; [exact Hso|split; [|split; [exact Hev|]]]].
    + intros i j Hj Hi Hd. apply (Hcl i j Hj Hi).
      rewrite HFr, !row_neg, dominates_neg. exact Hd.
    + intros j f' Hj Ef' Hr. specialize (Hr0 j f' Hj Ef' Hr).
      rewrite HFr, non_dominated_neg in Hr0. exact Hr0.
    + intros Hfit j Hj Hnd. apply Hopt; auto.
      * rewrite HFr.
        rewrite (filter_ext _ (non_dominated_max rows (seq 0 (length pool))));
          [exact Hfit|].
        intros i. apply non_dominated_neg.
      * rewrite HFr, non_dominated_neg. exact Hnd.
Qed.

(** X1: a completed survival computation neither makes up nor doubles
    candidates: the new members are the objects at pairwise distinct
    positions of the pool, each with the representation and score it
    had in the pool. *)
Theorem survivors_are_distinct_pool_candidates :
  forall (self : Population) (g : rng) (func : Function),
    let pool := _population self ++ _next_gen_pop self ++ [staged self func] in
    let self' := value (register_function self g func) in
    _generation self' = _generation self + 1 ->
    exists idx,
      NoDup idx /\
      Forall2 (fun i f' => exists f, nth_error pool i = Some f /\ updated f f')
              idx (_population self').
Proof.
  intros self g func pool self' Hgen.
  destruct (@completed_registration self g func Hgen)
    as (rows & idx & objs' & _ & _ & _ & U & Hidx & HN & _).
  exists idx. split; [exact HN|].
  fold self' in Hidx. clear - U Hidx.
  induction Hidx as [|i f' idx ms Hi _ IH]; constructor; auto.
  now apply (@Forall2_nth_error_r _ _ _ _ _ i _ U).
Qed.

(** X2: the survivors are closed under dominance: when a pool candidate
    dominates (on the maximisation scale) a candidate that became a
    member, it became a member too. *)
Theorem survival_is_closed_under_dominance :
  forall (self : Population) (g : rng) (func : Function),
    let pool := _population self ++ _next_gen_pop self ++ [staged self func] in
    let self' := value (register_function self g func) in
    _generation self' = _generation self + 1 ->
    forall f' g0,
      In f' (_population self') -> In g0 pool ->
      pareto_dominates_max (score_row g0) (score_row f') = true ->
      exists g', In g' (_population self') /\ updated g0 g'.
Proof.
  intros self g func pool self' Hgen f' g0 Hf' Hg0 Hd.
  destruct (@completed_registration self g func Hgen)
    as (rows & idx & objs' & Hrows & _ & _ & U & Hidx & _ & _ & Hcl & _).
  fold self' pool in Hidx, U, Hrows, Hcl.
  destruct (@Forall2_In_r _ _ _ _ _ f' Hidx Hf') as (j & Hj & Ej).
  destruct (@Forall2_nth_error_r _ _ _ _ _ j _ U Ej) as (fj & Efj & Ufj).
  apply In_nth_error in Hg0 as (i & Ei).
  assert (Hi : i < length pool) by (apply nth_error_Some; congruence).
  destruct (@score_row_of_rows _ _ i _ Hrows Ei) as [_ Hri].
  destruct (@score_row_of_rows _ _ j _ Hrows Efj) as [_ Hrj].
  assert (Hsf : score_row f' = score_row fj).
  { unfold score_row. destruct Ufj as (_ & -> & _). reflexivity. }
  rewrite Hri, Hsf, Hrj in Hd.
  specialize (Hcl i j Hj Hi Hd).
  destruct (@Forall2_In_l _ _ _ _ _ i Hidx Hcl) as (g' & Hg' & Eg').
  exists g'. split; [exact Hg'|].
  destruct (@Forall2_nth_error _ _ _ _ _ i _ U Ei) as (g'' & Eg'' & Ug).
  congruence.
Qed.

(** X3: the members installed by a completed survival computation are
    listed by non-decreasing rank, every one of them carries a rank,
    and one of rank 0 is dominated by no candidate of the pool. *)
Theorem members_are_listed_by_rank :
  forall (self : Population) (g : rng) (func : Function),
    let pool := _population self ++ _next_gen_pop self ++ [staged self func] in
    let self' := value (register_function self g func) in
    _generation self' = _generation self + 1 ->
    StronglySorted le (map rank_index (_population self')) /\
    Forall (fun f' => rank f' <> None) (_population self') /\
    (forall f' g0,
        In f' (_population self') -> rank f' = Some 0 -> In g0 pool ->
        pareto_dominates_max (score_row g0) (score_row f') = false).
Proof.
  intros self g func pool self' Hgen.
  destruct (@completed_registration self g func Hgen)
    as (rows & idx & objs' & Hrows & _ & _ & U & Hidx & _ & _ & _ & Hso & Hr0 & Hev & _).
  fold self' pool in Hidx, U, Hrows, Hso, Hr0, Hev.
  split; [exact Hso|]. split.
  - eapply Forall_impl; [|exact Hev]. intros f (_ & Hr & _). exact Hr.
  - intros f' g0 Hf' Hr Hg0.
    destruct (@Forall2_In_r _ _ _ _ _ f' Hidx Hf') as (j & Hj & Ej).
    destruct (@Forall2_nth_error_r _ _ _ _ _ j _ U Ej) as (fj & Efj & Ufj).
    apply In_nth_error in Hg0 as (i & Ei).
    assert (Hi : i < length pool) by (apply nth_error_Some; congruence).
    destruct (@score_row_of_rows _ _ i _ Hrows Ei) as [_ Hri].
    destruct (@score_row_of_rows _ _ j _ Hrows Efj) as [_ Hrj].
    assert (Hsf : score_row f' = score_row fj).
    { unfold score_row. destruct Ufj as (_ & -> & _). reflexivity. }
    rewrite Hri, Hsf, Hrj.
    specialize (Hr0 j f' Hj Ej Hr).
    unfold non_dominated_max in Hr0. apply negb_true_iff in Hr0.
    apply not_true_is_false. intros Hd.
    assert (Hex : existsb (fun j0 => pareto_dominates_max (row rows j0) (row rows j))
                          (seq 0 (length pool)) = true).
    { apply existsb_exists. exists i. split; [apply in_seq; lia|exact Hd]. }
    congruence.
Qed.


Lemma dominates_neutralized (x y : pyfloat) :
  [x; y] <> neg_inf_score ->
  pareto_dominates_max [x; y] neg_inf_score = true.
Proof.
  unfold neg_inf_score. destruct x, y; intros H; try reflexivity; congruence.
Qed.

Lemma filter_positions_length (p : Function -> bool) (pool : list Function)
      (d : Function) :
  length (filter p pool)
  = length (filter (fun i => p (nth i pool d)) (seq 0 (length pool))).
Proof.
  rewrite <- (map_nth_seq pool d) at 1.
  now rewrite filter_map_swap, length_map.
Qed.

(** X4: invalid candidates only fill free slots: when at least capacity
    many candidates of the pool carry a score other than [[-inf, -inf]],
    a completed survival computation installs no member with the score
    [[-inf, -inf]]. *)
Theorem neutralized_candidates_only_fill_free_slots :
  forall (self : Population) (g : rng) (func : Function),
    let pool := _population self ++ _next_gen_pop self ++ [staged self func] in
    let self' := value (register_function self g func) in
    _generation self' = _generation self + 1 ->
    _pop_size self <= length (filter (fun f => negb (neutralized f)) pool) ->
    Forall (fun f' => neutralized f' = false) (_population self').
Proof.
  intros self g func pool self' Hgen Hmany.
  destruct (@completed_registration self g func Hgen)
    as (rows & idx & objs' & Hrows & Hur & _ & U & Hidx & HN & Hl & Hcl & _).
  fold self' pool in Hidx, U, Hrows, Hcl, Hl.
  apply Forall_forall. intros f' Hf'.
  destruct (neutralized f') eqn:Hneu; [exfalso|reflexivity].
  destruct (@Forall2_In_r _ _ _ _ _ f' Hidx Hf') as (j & Hj & Ej).
  destruct (@Forall2_nth_error_r _ _ _ _ _ j _ U Ej) as (fj & Efj & Ufj).
  destruct (@score_row_of_rows _ _ j _ Hrows Efj) as [Hsj _].
  assert (Hrj : row rows j = neg_inf_score).
  { unfold neutralized in Hneu. apply score_eqb_eq in Hneu.
    destruct Ufj as (_ & Hsc & _). congruence. }
  assert (Hlr : length rows = length pool).
  { rewrite <- (length_map Some rows), <- Hrows. apply length_map. }
  assert (Hjl : j < length pool) by (apply nth_error_Some; congruence).
  set (d := mkFunction EmptyString None None None).
  set (N := filter (fun i => negb (neutralized (nth i pool d)))
                   (seq 0 (length pool))).
  assert (HNl : length N = length (filter (fun f => negb (neutralized f)) pool)).
  { subst N. symmetry.
    apply (filter_positions_length (fun f => negb (neutralized f)) pool d). }
  assert (Hincl : incl (j :: N) idx).
  { intros i [<-|Hi]; [exact Hj|].
    apply filter_In in Hi as [Hi Hnn]. apply in_seq in Hi.
    destruct (nth_error pool i) as [fi|] eqn:Efi;
      [|apply nth_error_None in Efi; lia].
    rewrite (nth_error_nth _ _ d Efi) in Hnn.
    destruct (@score_row_of_rows _ _ i _ Hrows Efi) as [Hsi _].
    apply (Hcl i j Hj ltac:(lia)).
    pose proof (Hur i j ltac:(lia) ltac:(lia)) as Hlen.
    rewrite Hrj in *. unfold neg_inf_score in Hlen at 1. simpl in Hlen.
    destruct (row rows i) as [|x [|y [|z r]]] eqn:Eri; try discriminate.
    apply dominates_neutralized. intros Heq.
    apply negb_true_iff in Hnn. unfold neutralized in Hnn.
    rewrite Hsi, Heq in Hnn. simpl in Hnn. discriminate. }
  assert (HND : NoDup (j :: N)).
  { constructor; [|apply NoDup_filter, seq_NoDup].
    intros Hin. apply filter_In in Hin as [_ Hnn].
    rewrite (nth_error_nth _ _ d Efj) in Hnn.
    apply negb_true_iff in Hnn. unfold neutralized in Hnn.
    rewrite Hsj, Hrj in Hnn. simpl in Hnn. discriminate. }
  pose proof (NoDup_incl_length HND Hincl) as Hle.
  simpl in Hle. lia.
Qed.

(** *** Runs whose scores have two objectives *)

Lemma staged_two_objectives (self : Population) (func : Function) :
  score func = None \/ two_objectives func -> two_objectives (staged self func).
Proof.
  intros H. unfold staged, with_default_score, two_objectives in *.
  destruct H as [->|(x & y & E)].
  - destruct (has_duplicate_function self _); simpl;
      do 2 eexists; reflexivity.
  - rewrite E. destruct (has_duplicate_function self _); simpl;
      do 2 eexists; (reflexivity || exact E).
Qed.

Lemma two_objectives_neg_array (pool : list Function) :
  Forall two_objectives pool -> exists F, neg_array (map score pool) = Ok F.
Proof.
  intros H.
  assert (Ha : all_scored (map score pool) = Some (map score_row pool) /\
               Forall (fun r => length r = 2) (map score_row pool)).
  { induction H as [|f pool (x & y & E) _ [IH1 IH2]]; simpl; [auto|].
    assert (Hsr : score_row f = [x; y]) by (unfold score_row; now rewrite E).
    rewrite E, IH1, Hsr. auto. }
  destruct Ha as [Ha Hl]. unfold neg_array. rewrite Ha.
  assert (Hr : rectangular (map score_row pool) = true).
  { destruct (map score_row pool) as [|r rows]; [reflexivity|].
    inversion Hl as [|? ? Hr Hrows]; subst. simpl.
    apply forallb_forall. intros r' Hr'. rewrite Forall_forall in Hrows.
    rewrite (Hrows r' Hr'), Hr. reflexivity. }
  rewrite Hr. eauto.
Qed.

Lemma completed_members_from_pool (self : Population) (g : rng) (func : Function) :
  let pool := _population self ++ _next_gen_pop self ++ [staged self func] in
  let self' := value (register_function self g func) in
  _generation self' = _generation self + 1 ->
  forall f', In f' (_population self') -> exists f, In f pool /\ updated f f'.
Proof.
  intros pool self' Hgen f' Hf'.
  destruct (@completed_registration self g func Hgen)
    as (rows & idx & objs' & _ & _ & _ & U & Hidx & _).
  fold self' pool in Hidx, U.
  destruct (@Forall2_In_r _ _ _ _ _ f' Hidx Hf') as (j & Hj & Ej).
  destruct (@Forall2_nth_error_r _ _ _ _ _ j _ U Ej) as (fj & Efj & Ufj).
  exists fj. split; [eapply nth_error_In; eauto|exact Ufj].
Qed.

Lemma register_two_objectives (self : Population) (g : rng) (func : Function) :
  0 < _pop_size self ->
  Forall two_objectives (_population self ++ _next_gen_pop self) ->
  length (_next_gen_pop self) < _pop_size self ->
  score func = None \/ two_objectives func ->
  let self' := value (register_function self g func) in
  Forall two_objectives (_population self' ++ _next_gen_pop self') /\
  length (_next_gen_pop self') < _pop_size self /\
  (two_objectives func ->
   _generation self' * _pop_size self + length (_next_gen_pop self')
   = _generation self * _pop_size self + length (_next_gen_pop self) + 1).
Proof.
  intros Hpos HK Hlt Hfunc self'. subst self'.
  destruct (register_dichotomy self g func) as [[Hg Hs]|Hacc].
  - rewrite register_discard by assumption. simpl.
    repeat split; auto. intros (x & y & E). congruence.
  - pose proof (staged_two_objectives self Hfunc) as Hst.
    assert (HKp : Forall two_objectives
                    (_population self ++ _next_gen_pop self ++ [staged self func])).
    { rewrite app_assoc. apply Forall_app. split; [exact HK|]. now constructor. }
    pose proof (@completed_members_from_pool self g func) as Hfrom.
    cbv zeta in Hfrom.
    rewrite register_accept in * by exact Hacc.
    destruct (update_cases self g (staged self func))
      as [(Hb & E & _)|[(Hge & F & m & s' & HF & _ & E & _)|(_ & e & HF & _)]].
    + rewrite E. simpl. rewrite length_app in *. simpl in *.
      split; [exact HKp|]. split; [lia|]. intros _. lia.
    + rewrite E in *. simpl in *. rewrite length_app in Hge. simpl in Hge.
      split; [|split; [lia|]].
      * rewrite app_nil_r. apply Forall_forall. intros f' Hf'.
        destruct (Hfrom eq_refl f' Hf') as (f & Hf & (_ & Hsc & _)).
        rewrite Forall_forall in HKp. destruct (HKp f Hf) as (x & y & Ef).
        exists x, y. congruence.
      * intros _. assert (Hc : _pop_size self = length (_next_gen_pop self) + 1)
          by lia.
        rewrite Nat.mul_add_distr_r. lia.
    + destruct (two_objectives_neg_array HKp) as (F & HF'). congruence.
Qed.

Lemma run_two_objectives (funcs : list Function) :
  forall (self : Population) (g : rng),
    0 < _pop_size self ->
    Forall two_objectives (_population self ++ _next_gen_pop self) ->
    length (_next_gen_pop self) < _pop_size self ->
    Forall (fun f => score f = None \/ two_objectives f) funcs ->
    let self' := fst (register_all self g funcs) in
    Forall two_objectives (_population self' ++ _next_gen_pop self') /\
    length (_next_gen_pop self') < _pop_size self /\
    (Forall two_objectives funcs ->
     _generation self' * _pop_size self + length (_next_gen_pop self')
     = _generation self * _pop_size self + length (_next_gen_pop self)
       + length funcs).
Proof.
  induction funcs as [|func funcs IH]; intros self g Hpos HK Hlt Hall; simpl.
  - repeat split; auto.
  - inversion Hall as [|? ? Hf Hrest]; subst.
    destruct (@register_two_objectives self g func Hpos HK Hlt Hf)
      as (HK1 & Hlt1 & Hc1).
    pose proof (register_pop_size self g func) as Hsz.
    destruct (IH (value (register_function self g func))
                 (rnd (register_function self g func))
                 ltac:(rewrite Hsz; exact Hpos) HK1
                 ltac:(rewrite Hsz; exact Hlt1) Hrest)
      as (HK2 & Hlt2 & Hc2).
    rewrite Hsz in *.
    split; [exact HK2|]. split; [exact Hlt2|].
    intros Hall2. inversion Hall2 as [|? ? Hf2 Hrest2]; subst.
    rewrite (Hc2 Hrest2), (Hc1 Hf2). lia.
Qed.

(** X5: a run in which every registered candidate has no score or a
    score of two objectives never fails a survival computation: after
    every registration the pending list is shorter than the (positive)
    capacity and every candidate held has a two-objective score. *)
Theorem two_objective_run_keeps_pending_below_capacity :
  forall (pop_size : nat) (g : rng) (funcs : list Function),
    0 < pop_size ->
    Forall (fun f => score f = None \/ two_objectives f) funcs ->
    let self := fst (register_all (init pop_size) g funcs) in
    length (_next_gen_pop self) < pop_size /\
    Forall two_objectives (_population self ++ _next_gen_pop self).
Proof.
  intros pop_size g funcs Hpos Hall self.
  destruct (@run_two_objectives funcs (init pop_size) g Hpos
              ltac:(constructor) Hpos Hall) as (HK & Hlt & _).
  split; assumption.
Qed.

(** X6: when every registered candidate has a two-objective score, the
    generation counts the full batches and the pending list holds the
    rest: after [n] registrations the generation is [n / capacity] and
    the pending list has [n mod capacity] candidates. *)
Theorem generation_counts_full_batches :
  forall (pop_size : nat) (g : rng) (funcs : list Function),
    0 < pop_size ->
    Forall two_objectives funcs ->
    let self := fst (register_all (init pop_size) g funcs) in
    _generation self = length funcs / pop_size /\
    length (_next_gen_pop self) = length funcs mod pop_size.
Proof.
  intros pop_size g funcs Hpos Hall self.
  assert (Hall' : Forall (fun f => score f = None \/ two_objectives f) funcs).
  { eapply Forall_impl; [|exact Hall]. auto. }
  destruct (@run_two_objectives funcs (init pop_size) g Hpos
              ltac:(constructor) Hpos Hall') as (_ & Hlt & Hc).
  specialize (Hc Hall). fold self in Hlt, Hc. simpl in Hlt, Hc.
  assert (Hq : _generation self = length funcs / pop_size).
  { apply (Nat.div_unique _ _ _ (length (_next_gen_pop self))); lia. }
  split; [exact Hq|].
  apply (Nat.mod_unique _ _ (_generation self)); lia.
Qed.


(** *** Populations built by the constructor *)

Lemma register_members_cases (self : Population) (g : rng) (func : Function) :
  let self' := value (register_function self g func) in
  (_population self' = _population self /\ _generation self' = _generation self /\
   length (_next_gen_pop self') <= length (_next_gen_pop self) + 1) \/
  (_generation self' = _generation self + 1 /\
   length (_population self') = _pop_size self /\
   _next_gen_pop self' = [] /\
   _pop_size self <= length (_next_gen_pop self) + 1).
Proof.
  intros self'. subst self'.
  destruct (register_dichotomy self g func) as [[Hg Hs]|Hacc].
  - rewrite register_discard by assumption. left. simpl.
    repeat split; try reflexivity; lia.
  - rewrite register_accept by exact Hacc.
    destruct (update_cases self g (staged self func))
      as [(_ & -> & _)|[(Hge & F & m & s' & _ & _ & -> & HL & _)|(_ & e & _ & _ & -> & _)]];
      simpl.
    + left. rewrite length_app. simpl. auto.
    + right. rewrite !length_app in *. simpl in *.
      repeat split; auto; try lia.
    + left. rewrite length_app. simpl. auto.
Qed.

Lemma run_members_cases (funcs : list Function) :
  forall (self : Population) (g : rng),
    let self' := fst (register_all self g funcs) in
    (_population self' = _population self /\ _generation self' = _generation self) \/
    (_generation self < _generation self' /\
     length (_population self') = _pop_size self).
Proof.
  induction funcs as [|func funcs IH]; intros self g; simpl; [auto|].
  pose proof (register_pop_size self g func) as Hsz.
  destruct (register_members_cases self g func) as [(Hm & Hg & _)|(Hg & Hl & _)];
    destruct (IH (value (register_function self g func))
                 (rnd (register_function self g func))) as [(Hm' & Hg')|(Hg' & Hl')].
  - left. split; congruence.
  - right. split; [lia|congruence].
  - right. split; [lia|congruence].
  - right. split; [lia|congruence].
Qed.

(** X7: whatever population the constructor was given, the members stay
    exactly that list (and the generation its initial value) until a
    survival computation completes; from then on the population holds
    exactly [pop_size] members. *)
Theorem members_are_the_seed_or_fill_the_capacity :
  forall (pop_size generation : nat) (pop : pop_argument) (g : rng)
         (funcs : list Function),
    let self0 := __init__ pop_size generation pop in
    let self := fst (register_all self0 g funcs) in
    (_population self = _population self0 /\ _generation self = generation) \/
    (generation < _generation self /\ __len__ self = pop_size).
Proof.
  intros pop_size generation pop g funcs self0 self.
  exact (run_members_cases funcs self0 g).
Qed.

Lemma run_generation_account (funcs : list Function) :
  forall (self : Population) (g : rng),
    let self' := fst (register_all self g funcs) in
    _generation self <= _generation self' /\
    _generation self' * _pop_size self + length (_next_gen_pop self')
    <= _generation self * _pop_size self + length (_next_gen_pop self)
       + length funcs.
Proof.
  induction funcs as [|func funcs IH]; intros self g; simpl; [lia|].
  pose proof (register_pop_size self g func) as Hsz.
  destruct (IH (value (register_function self g func))
               (rnd (register_function self g func))) as [Hmono Hacc].
  rewrite Hsz in Hacc.
  destruct (register_members_cases self g func)
    as [(_ & Hg & Hp)|(Hg & _ & Hp & Hge)].
  - rewrite Hg in *. split; lia.
  - rewrite Hg, Hp in *. simpl in Hacc.
    rewrite Nat.mul_add_distr_r in Hacc. split; lia.
Qed.

(** X8: the generation never decreases, a registration advances it by
    at most one, and every generation accounts for a full batch of
    registrations: [generation * pop_size + len(pending)] grows by at
    most one per call. *)
Theorem generation_accounts_for_registrations :
  (forall (self : Population) (g : rng) (func : Function),
      let self' := value (register_function self g func) in
      _generation self <= _generation self' <= _generation self + 1) /\
  (forall (pop_size generation : nat) (pop : pop_argument) (g : rng)
          (funcs : list Function),
      let self := fst (register_all (__init__ pop_size generation pop) g funcs) in
      generation <= _generation self /\
      _generation self * pop_size + length (_next_gen_pop self)
      <= generation * pop_size + length funcs).
Proof.
  split.
  - intros self g func self'. subst self'.
    destruct (register_members_cases self g func) as [(_ & Hg & _)|(Hg & _)]; lia.
  - intros pop_size generation pop g funcs self.
    destruct (run_generation_account funcs (__init__ pop_size generation pop) g)
      as [Hmono Hacc].
    fold self in Hmono, Hacc. simpl in Hmono, Hacc. split; lia.
Qed.

(** *** Registering a candidate again *)


(** *** The tournament *)

(** X10: the tournament returns one of the two drawn candidates, and the
    one it returns is never worse than the other: its rank is not
    higher, and on equal ranks its crowding is not lower. *)
Theorem tournament_winner_is_never_worse :
  forall p0 p1 : Function,
    evaluated p0 -> evaluated p1 ->
    exists winner loser cw cl,
      tournament p0 p1 = Ok winner /\
      ((winner = p0 /\ loser = p1) \/ (winner = p1 /\ loser = p0)) /\
      crowding winner = Some cw /\ crowding loser = Some cl /\
      rank_index winner <= rank_index loser /\
      (rank_index winner = rank_index loser -> PyFloat.le cl cw).
Proof.
  intros p0 p1 H0 H1.
  destruct (tournament_ok H0 H1)
    as (r0 & r1 & c0 & c1 & R0 & R1 & C0 & C1 & ET).
  assert (I0 : rank_index p0 = r0) by (unfold rank_index; now rewrite R0).
  assert (I1 : rank_index p1 = r1) by (unfold rank_index; now rewrite R1).
  destruct (Nat.ltb_spec r0 r1) as [Hlt|Hge].
  - exists p0, p1, c0, c1. repeat split; auto; lia.
  - destruct (Nat.ltb_spec r1 r0) as [Hlt'|Hge'].
    + exists p1, p0, c1, c0. repeat split; auto; lia.
    + destruct (PyFloat.gtb c0 c1) eqn:Hc.
      * exists p0, p1, c0, c1. repeat split; auto; try lia.
        intros _. unfold PyFloat.gtb in Hc. unfold PyFloat.le.
        destruct (pyfloat_leb_total c1 c0) as [H|H]; [exact H|].
        apply pyfloat_ltb_leb_false in Hc. congruence.
      * exists p1, p0, c1, c0. repeat split; auto; try lia.
        intros _. unfold PyFloat.gtb in Hc. unfold PyFloat.le, PyFloat.leb.
        now rewrite Hc.
Qed.

(** *** The container methods *)

Lemma list_index_inv (n : nat) (i : Z) (k : nat) :
  list_index n i = Ok k ->
  k < n /\ ((0 <= i)%Z /\ k = Z.to_nat i \/
            (i < 0)%Z /\ k = Z.to_nat (Z.of_nat n + i)).
Proof.
  unfold list_index.
  destruct (Z.leb_spec 0 i).
  - destruct (Z.ltb_spec i (Z.of_nat n)); intros E; inversion E; subst.
    split; [lia|]. left. split; [lia|reflexivity].
  - destruct (Z.leb_spec (- Z.of_nat n) i); intros E; inversion E; subst.
    split; [lia|]. right. split; [lia|reflexivity].
Qed.

(** X12: an item assignment that succeeds is read back at the same index,
    leaves the length, the other members, the pending list, the
    generation and the capacity as they were. *)
Theorem setitem_then_getitem :
  forall (self self' : Population) (key : Z) (value0 : Function),
    __setitem__ self key value0 = Ok self' ->
    __getitem__ self' key = Ok value0 /\
    __len__ self' = __len__ self /\
    _next_gen_pop self' = _next_gen_pop self /\
    _generation self' = _generation self /\
    _pop_size self' = _pop_size self /\
    (forall (other : Z) (k k' : nat),
        list_index (__len__ self) key = Ok k ->
        list_index (__len__ self) other = Ok k' -> k' <> k ->
        __getitem__ self' other = __getitem__ self other).
Proof.
  intros self self' key value0. unfold __setitem__, __getitem__, __len__.
  set (l := _population self).
  destruct (list_index (length l) key) as [k|e] eqn:Ek; cbn [rbind];
    [|discriminate].
  destruct (list_index_inv _ _ Ek) as [Hk _].
  assert (Hlen : length (firstn k l ++ value0 :: skipn (S k) l) = length l).
  { rewrite length_app, length_firstn. cbn [length].
    rewrite length_skipn. lia. }
  intros E.
  assert (Hs : self' = {| _population := firstn k l ++ value0 :: skipn (S k) l;
                          _pop_size := _pop_size self;
                          _next_gen_pop := _next_gen_pop self;
                          _generation := _generation self |}) by congruence.
  rewrite Hs. clear E Hs.
  cbn [_population _next_gen_pop _generation _pop_size].
  rewrite Hlen, Ek. cbn [rbind].
  split; [|repeat split; auto].
  - unfold getitem. now rewrite nth_error_point_update.
  - intros other k0 k' E0 E' Hne. injection E0 as <-.
    rewrite E'. cbn [rbind]. unfold getitem.
    destruct (list_index_inv _ _ E') as [Hk' _].
    now rewrite nth_error_point_update_other.
Qed.


(** *** Candidates no other candidate dominates *)

Lemma existsb_map {A B} (f : B -> bool) (h : A -> B) (l : list A) :
  existsb f (map h l) = existsb (fun a => f (h a)) l.
Proof. induction l as [|a l IH]; simpl; [reflexivity|]. now rewrite IH. Qed.

Lemma score_rows_of_pool (pool : list Function) (rows : matrix) :
  map score pool = map Some rows -> map score_row pool = rows.
Proof.
  revert rows; induction pool as [|f pool IH]; intros [|r rows] H;
    simpl in *; try discriminate; [reflexivity|].
  inversion H as [[Hf Hrest]]. unfold score_row at 1. rewrite Hf.
  f_equal. now apply IH.
Qed.

Lemma pareto_optimal_position (pool : list Function) (rows : matrix) (i : nat)
      (f : Function) :
  map score pool = map Some rows -> nth_error pool i = Some f ->
  pareto_optimal pool f = non_dominated_max rows (seq 0 (length pool)) i.
Proof.
  intros Hrows Ef. unfold pareto_optimal, non_dominated_max. f_equal.
  destruct (@score_row_of_rows _ _ i _ Hrows Ef) as [_ ->].
  assert (Hlen : length pool = length rows).
  { rewrite <- (length_map Some rows), <- Hrows. symmetry. apply length_map. }
  rewrite <- (existsb_map (fun r => pareto_dominates_max r (row rows i)) score_row).
  rewrite (@score_rows_of_pool pool rows Hrows), Hlen.
  rewrite <- (map_nth_seq rows []) at 1.
  now rewrite existsb_map.
Qed.

(** X13: candidates that no pool candidate dominates are not discarded
    while they fit: when at most capacity many candidates of the pool
    are dominated by none, a completed survival computation keeps every
    one of them as a member. *)
Theorem pareto_optimal_candidates_survive_while_they_fit :
  forall (self : Population) (g : rng) (func : Function),
    let pool := _population self ++ _next_gen_pop self ++ [staged self func] in
    let self' := value (register_function self g func) in
    _generation self' = _generation self + 1 ->
    length (filter (pareto_optimal pool) pool) <= _pop_size self ->
    forall f, In f pool -> pareto_optimal pool f = true ->
              exists f', In f' (_population self') /\ updated f f'.
Proof.
  intros self g func pool self' Hgen Hfit f Hf Hopt.
  destruct (@completed_registration self g func Hgen)
    as (rows & idx & objs' & Hrows & _ & _ & U & Hidx & _ & _ & _ & _ & _ & _ & Hkeep).
  fold self' pool in Hidx, U, Hrows, Hkeep.
  set (d := mkFunction EmptyString None None None).
  assert (Hpos : forall i, In i (seq 0 (length pool)) ->
                           pareto_optimal pool (nth i pool d)
                           = non_dominated_max rows (seq 0 (length pool)) i).
  { intros i Hi. apply in_seq in Hi.
    destruct (nth_error pool i) as [fi|] eqn:Efi;
      [|apply nth_error_None in Efi; lia].
    rewrite (nth_error_nth _ _ d Efi).
    now apply (@pareto_optimal_position pool rows i fi). }
  rewrite (filter_positions_length (pareto_optimal pool) pool d) in Hfit.
  rewrite (filter_ext_in _ _ _ Hpos) in Hfit.
  apply In_nth_error in Hf as (i & Ei).
  assert (Hi : i < length pool) by (apply nth_error_Some; congruence).
  rewrite (@pareto_optimal_position pool rows i f Hrows Ei) in Hopt.
  specialize (Hkeep Hfit i Hi Hopt).
  destruct (@Forall2_In_l _ _ _ _ _ i Hidx Hkeep) as (f' & Hf' & Ef').
  exists f'. split; [exact Hf'|].
  destruct (@Forall2_nth_error _ _ _ _ _ i _ U Ei) as (f'' & Ef'' & Uf).
  congruence.
Qed.

(** *** After a survival computation has failed *)

Lemma neg_array_raise_app (l l' : list (option (list pyfloat))) (e : exn) :
  neg_array l = Raise e -> exists e', neg_array (l ++ l') = Raise e'.
Proof.
  unfold neg_array.
  destruct (all_scored l) as [rows|] eqn:Ea.
  - destruct (rectangular rows) eqn:Er; [discriminate|]. intros _.
    destruct (all_scored (l ++ l')) as [rows2|] eqn:Ea2; [|eauto].
    assert (Hpre : exists rows', rows2 = rows ++ rows').
    { clear Er. revert rows rows2 Ea Ea2.
      induction l as [|[r|] l IH]; simpl; intros rows rows2 Ea Ea2.
      - inversion Ea. exists rows2. reflexivity.
      - destruct (all_scored l) as [t|]; [|discriminate].
        destruct (all_scored (l ++ l')) as [t2|]; [|discriminate].
        inversion Ea; inversion Ea2; subst.
        destruct (IH t t2 eq_refl eq_refl) as (rows' & ->).
        exists rows'. reflexivity.
      - discriminate. }
    destruct Hpre as (rows' & ->).
    assert (Er2 : rectangular (rows ++ rows') = false).
    { destruct rows as [|r rows]; [discriminate|]. simpl in *.
      rewrite forallb_app, Er. reflexivity. }
    rewrite Er2. eauto.
  - intros _.
    assert (Ea2 : all_scored (l ++ l') = None).
    { clear - Ea. induction l as [|[r|] l IH]; simpl in *; try discriminate; auto.
      destruct (all_scored l); [discriminate|]. now rewrite IH. }
    rewrite Ea2. eauto.
Qed.

(** *** Registration followed by selection *)

Lemma selection_nonempty (self : Population) (g : rng) :
  Forall evaluated (_population self) ->
  filter valid (_population self) <> [] ->
  exists f, value (selection self g) = Ok f /\
            In f (_population self) /\ valid f = true.
Proof.
  intros Hev Hne.
  destruct (selection_cases self g Hev) as (_ & H1 & H2).
  assert (Hsub : forall f, In f (filter valid (_population self)) ->
                           In f (_population self) /\ valid f = true).
  { intros f Hf. now apply filter_In in Hf. }
  destruct (filter valid (_population self)) as [|a [|b rest]] eqn:E;
    [congruence| |].
  - exists a. split; [now apply H1|]. apply Hsub. now left.
  - destruct (H2 ltac:(simpl; lia))
      as (i & j & p0 & p1 & r0 & r1 & c0 & c1 & _ & _ & E0 & E1 & _ & _ & _ & _ & EV).
    apply nth_error_In in E0, E1.
    rewrite EV.
    destruct (r0 <? r1); [eauto|]. destruct (r1 <? r0); [eauto|].
    destruct (PyFloat.gtb c0 c1); eauto.
Qed.

Lemma valid_not_neutralized (x y : pyfloat) :
  negb (existsb PyFloat.isinf [x; y]) = true -> [x; y] <> neg_inf_score.
Proof.
  unfold neg_inf_score. intros H E. inversion E; subst. discriminate.
Qed.

(** X15: a survival computation leaves a population selection can draw
    from: when the capacity is positive, every candidate of the pool is
    either valid (no infinite score entry) or carries the score
    [[-inf, -inf]], and at least one is valid, then after the
    registration that advances the generation [selection] returns a
    valid member. *)
Theorem selection_succeeds_after_survival :
  forall (self : Population) (g : rng) (func : Function) (g2 : rng),
    let pool := _population self ++ _next_gen_pop self ++ [staged self func] in
    let self' := value (register_function self g func) in
    _generation self' = _generation self + 1 ->
    0 < _pop_size self ->
    Forall (fun f => neutralized f = true \/ valid f = true) pool ->
    Exists (fun f => valid f = true) pool ->
    exists f, value (selection self' g2) = Ok f /\
              In f (_population self') /\ valid f = true.
Proof.
  intros self g func g2 pool self' Hgen Hcap Hall Hone.
  destruct (@completed_registration self g func Hgen)
    as (rows & idx & objs' & Hrows & Hur & _ & U & Hidx & _ & Hl & Hcl & _ & _ & Hev & _).
  fold self' pool in Hidx, U, Hrows, Hcl, Hl, Hev.
  apply (selection_nonempty self' g2 Hev).
  assert (Hpl : 0 < length pool).
  { unfold pool. rewrite !length_app. simpl. lia. }
  assert (Hlr : length rows = length pool).
  { rewrite <- (length_map Some rows), <- Hrows. apply length_map. }
  assert (Hvalid_in : forall i fi,
             In i idx -> nth_error pool i = Some fi -> valid fi = true ->
             filter valid (_population self') <> []).
  { intros i fi Hi Ei Hv.
    destruct (@Forall2_In_l _ _ _ _ _ i Hidx Hi) as (f' & Hf' & Ef').
    destruct (@Forall2_nth_error _ _ _ _ _ i _ U Ei) as (f'' & Ef'' & Uf).
    assert (f'' = f') by congruence. subst f''.
    assert (Hv' : valid f' = true).
    { unfold valid in *. destruct Uf as (_ & -> & _). exact Hv. }
    intros Hnil.
    assert (Hin : In f' (filter valid (_population self'))).
    { apply filter_In. split; assumption. }
    rewrite Hnil in Hin. exact Hin. }
  destruct idx as [|j idx0]; [simpl in Hl; lia|].
  assert (Hj : In j (j :: idx0)) by now left.
  destruct (@Forall2_In_l _ _ _ _ _ j Hidx Hj) as (f' & _ & Ej).
  destruct (@Forall2_nth_error_r _ _ _ _ _ j _ U Ej) as (fj & Efj & Ufj).
  rewrite Forall_forall in Hall.
  destruct (Hall fj (nth_error_In _ _ Efj)) as [Hneu|Hv].
  - apply Exists_exists in Hone as (g0 & Hg0 & Hv0).
    apply In_nth_error in Hg0 as (i & Ei).
    assert (Hi : i < length pool) by (apply nth_error_Some; congruence).
    apply (Hvalid_in i g0); [|exact Ei|exact Hv0].
    apply (Hcl i j Hj Hi).
    destruct (@score_row_of_rows _ _ j _ Hrows Efj) as [Hsj _].
    destruct (@score_row_of_rows _ _ i _ Hrows Ei) as [Hsi _].
    assert (Hrj : row rows j = neg_inf_score).
    { unfold neutralized in Hneu. apply score_eqb_eq in Hneu. congruence. }
    assert (Hjl : j < length pool) by (apply nth_error_Some; congruence).
    pose proof (Hur i j ltac:(lia) ltac:(lia)) as Hlen.
    rewrite Hrj in *. unfold neg_inf_score in Hlen at 1. simpl in Hlen.
    destruct (row rows i) as [|x [|y [|z r]]] eqn:Eri; try discriminate.
    apply dominates_neutralized. apply valid_not_neutralized.
    unfold valid in Hv0. rewrite Hsi in Hv0. exact Hv0.
  - exact (Hvalid_in j fj Hj Efj Hv).
Qed.


(** *** What the survival computation writes to the candidates *)

(** X16: the loop of lines 74-109 writes to every candidate of every
    front it processes, also to the ones it does not keep: such a
    candidate gets the number of its front as rank and a crowding
    distance, while its string and score stay; a candidate of no
    processed front is left as it was. *)
Theorem survival_marks_every_processed_candidate :
  forall (pop_size : nat) (pop : list Function) (g : rng) (F : matrix),
    neg_array (map score pop) = Ok F ->
    let fronts := NonDominatedSorting_do F pop_size in
    exists s' members',
      survival pop_size {| objects := pop; seed := g |} = (s', Ok members') /\
      (forall k front i,
          nth_error fronts k = Some front -> In i front ->
          exists f f',
            nth_error pop i = Some f /\ nth_error (objects s') i = Some f' /\
            rank f' = Some k /\ crowding f' <> None /\
            representation f' = representation f /\ score f' = score f) /\
      (forall i, ~ In i (concat fronts) ->
                 nth_error (objects s') i = nth_error pop i) /\
      Nat.min pop_size (length pop) <= length (concat fronts).
Proof.
  intros pop_size pop g F HFa fronts.
  destruct (@neg_array_inv _ F HFa) as (rows & Hrows & _ & HU & HFl).
  rewrite length_map in HFl.
  pose proof (non_dominated_sort_perm HU) as HP.
  destruct (stop_if_ranked_prefix pop_size 0 (non_dominated_sort F)) as (p & Hp).
  assert (Hfr : fronts = firstn p (non_dominated_sort F)) by exact Hp.
  assert (HNall : NoDup (concat (non_dominated_sort F))).
  { apply (Permutation_NoDup (Permutation_sym HP)), seq_NoDup. }
  assert (HN : NoDup (concat fronts)).
  { rewrite Hfr. rewrite <- (firstn_skipn p (non_dominated_sort F)) in HNall.
    rewrite concat_app in HNall. now apply NoDup_app_remove_r in HNall. }
  assert (Hall : Forall (Forall (fun i => i < length F)) fronts).
  { apply Forall_forall. intros front Hfront.
    apply stop_if_ranked_incl in Hfront.
    apply Forall_forall. intros i Hi.
    assert (Hc : In i (concat (non_dominated_sort F))).
    { apply in_concat. eauto. }
    apply (Permutation_in _ HP), in_seq in Hc. lia. }
  set (s0 := {| objects := pop; seed := g |}).
  assert (Hall' : Forall (Forall (fun i => i < length (objects s0))) fronts).
  { simpl. now rewrite <- HFl. }
  destruct (@survival_loop_exact pop_size F fronts 0 [] s0 Hall Hall' HN)
    as (sels & [objs' g'] & EL & U & HT & O & R).
  simpl in U, EL, HT, O, R.
  assert (Hsr : Forall (fun i => i < length objs') (concat sels)).
  { pose proof (Forall2_updated_length U) as Hlen.
    apply Forall_forall. intros i Hi.
    apply (taken_concat_incl HT) in Hi.
    apply in_concat in Hi as (front & Hfront & Hi).
    rewrite Forall_forall in Hall. specialize (Hall front Hfront).
    rewrite Forall_forall in Hall. specialize (Hall i Hi). lia. }
  set (d := mkFunction EmptyString None None None).
  exists {| objects := objs'; seed := g' |},
         (map (fun i => nth i objs' d) (concat sels)).
  split; [|split; [|split]].
  - unfold survival. unfold bind at 1. unfold bind at 1, lift at 1.
    fold s0. simpl objects at 1. rewrite HFa.
    fold fronts. erewrite bind_ok by exact EL.
    unfold bind, lift. simpl. now rewrite (take_ok objs' d Hsr).
  - intros k front i Hk Hi. simpl.
    destruct (R k front i Hk Hi) as (f' & Ef' & Hr & Hc).
    destruct (@Forall2_nth_error_r _ _ _ _ _ i _ U Ef') as (f & Ef & Hrep & Hsc & _).
    exists f, f'. repeat split; assumption.
  - exact O.
  - pose proof (stop_if_ranked_count pop_size 0 (non_dominated_sort F)) as E.
    simpl in E. fold (NonDominatedSorting_do F pop_size) in E. fold fronts in E.
    rewrite (Permutation_length HP), length_seq, HFl in E. lia.
Qed.


(** *** Candidates that count stay pairwise distinct *)

Lemma unique_valid_snoc (self : Population) (func : Function) :
  unique_valid (held self) ->
  unique_valid (held self ++ [staged self func]).
Proof.
  intros H.
  assert (Hnew : forall f, In f (held self) ->
                           neutralized (staged self func) = false ->
                           str f <> str (staged self func) /\
                           score f <> score (staged self func)).
  { intros f Hf Hn. unfold staged in *.
    destruct (has_duplicate_function self (with_default_score func)) eqn:Hd.
    - unfold neutralized in Hn. simpl in Hn.
      assert (Ht : score_eqb (Some neg_inf_score) (Some neg_inf_score) = true)
        by now apply score_eqb_eq.
      congruence.
    - split; intros E.
      + assert (Ht : has_duplicate_function self (with_default_score func) = true).
        { apply has_duplicate_function_spec. exists f. split; [exact Hf|now left]. }
        congruence.
      + assert (Ht : has_duplicate_function self (with_default_score func) = true).
        { apply has_duplicate_function_spec. exists f. split; [exact Hf|now right]. }
        congruence. }
  intros i j f f' Hij Ei Ej Hn Hn'.
  destruct (Nat.lt_ge_cases i (length (held self))) as [Hi|Hi];
    destruct (Nat.lt_ge_cases j (length (held self))) as [Hj|Hj].
  - rewrite nth_error_app1 in Ei, Ej by assumption.
    now apply (H i j).
  - rewrite nth_error_app1 in Ei by assumption.
    rewrite nth_error_app2 in Ej by assumption.
    destruct (j - length (held self)) as [|[|n]]; simpl in Ej; try discriminate.
    assert (f' = staged self func) by congruence. subst f'.
    apply Hnew; [eapply nth_error_In; eauto|exact Hn'].
  - rewrite nth_error_app2 in Ei by assumption.
    rewrite nth_error_app1 in Ej by assumption.
    destruct (i - length (held self)) as [|[|n]]; simpl in Ei; try discriminate.
    assert (f = staged self func) by congruence. subst f.
    destruct (Hnew f' (nth_error_In _ _ Ej) Hn) as [Hs Hc].
    split; congruence.
  - rewrite nth_error_app2 in Ei, Ej by assumption.
    destruct (i - length (held self)) as [|[|n]] eqn:Ea; simpl in Ei; try discriminate.
    destruct (j - length (held self)) as [|[|m]] eqn:Eb; simpl in Ej; try discriminate.
    lia.
Qed.

Lemma register_unique_valid (self : Population) (g : rng) (func : Function) :
  unique_valid (held self) ->
  unique_valid (held (value (register_function self g func))).
Proof.
  intros H.
  destruct (register_members_cases self g func)
    as [(Hm & Hgen & _)|(Hgen & _ & Hp & _)].
  - (* no survival: nothing changes or the candidate is appended *)
    destruct (register_dichotomy self g func) as [[Hg Hs]|Hacc].
    + now rewrite register_discard.
    + rewrite register_accept in * by exact Hacc.
      destruct (update_cases self g (staged self func))
        as [(_ & E & _)|[(_ & F & m & s' & _ & _ & E & _)|(_ & e & _ & _ & E & _)]];
        rewrite E in *; simpl in Hgen; try lia;
        unfold held at 1; simpl; rewrite app_assoc;
        now apply unique_valid_snoc.
  - destruct (@completed_registration self g func Hgen)
      as (rows & idx & objs' & _ & _ & _ & U & Hidx & HN & _).
    unfold held at 1. rewrite Hp, app_nil_r.
    pose proof (@unique_valid_snoc self func H) as Hpool.
    unfold held in Hpool. rewrite <- app_assoc in Hpool.
    intros a b f f' Hab Ea Eb Hn Hn'.
    destruct (@Forall2_nth_error_r _ _ _ _ _ a _ Hidx Ea) as (i & Ei & Eoi).
    destruct (@Forall2_nth_error_r _ _ _ _ _ b _ Hidx Eb) as (j & Ej & Eoj).
    destruct (@Forall2_nth_error_r _ _ _ _ _ i _ U Eoi) as (fi & Efi & Hri & Hsi & _).
    destruct (@Forall2_nth_error_r _ _ _ _ _ j _ U Eoj) as (fj & Efj & Hrj & Hsj & _).
    assert (Hij : i <> j).
    { intros <-. apply Hab.
      apply (proj1 (NoDup_nth_error idx) HN a b).
      - apply nth_error_Some. congruence.
      - congruence. }
    assert (Hni : neutralized fi = false)
      by (unfold neutralized in *; congruence).
    assert (Hnj : neutralized fj = false)
      by (unfold neutralized in *; congruence).
    destruct (Hpool i j fi fj Hij Efi Efj Hni Hnj) as [Hs Hc].
    unfold str in *. split; congruence.
Qed.

(** X17: the candidates that count stay pairwise distinct: when no two
    held candidates (members and pending) with a score other than
    [[-inf, -inf]] share their string or their score, the same holds
    after any sequence of registrations. *)
Theorem valid_candidates_stay_pairwise_distinct :
  forall (funcs : list Function) (self : Population) (g : rng),
    unique_valid (held self) ->
    unique_valid (held (fst (register_all self g funcs))).
Proof.
  induction funcs as [|func funcs IH]; intros self g H; simpl; [exact H|].
  apply IH. now apply register_unique_valid.
Qed.


(** *** The survival computation front by front *)

Lemma setattr_pure (i : nat) (upd : Function -> Function) (objs : list Function) :
  i < length objs -> (forall f, updated f (upd f)) ->
  exists objs',
    Forall2 updated objs objs' /\
    forall g : rng, setattr i upd {| objects := objs; seed := g |}
              = ({| objects := objs'; seed := g |}, Ok tt).
Proof.
  intros Hi Hu.
  destruct (nth_error objs i) as [f|] eqn:E; [|apply nth_error_None in E; lia].
  exists (firstn i objs ++ upd f :: skipn (S i) objs). split.
  - apply Forall2_point_update with (f := f); auto using updated_refl.
  - intros g. unfold setattr. simpl. now rewrite E.
Qed.

(** The writes of lines 104-106 do not depend on the generator. *)
Lemma save_rank_crowding_pure (k : nat) (cr : list pyfloat) (front : list nat) :
  forall (j : nat) (objs : list Function),
    j + length front <= length cr ->
    Forall (fun i => i < length objs) front ->
    exists objs',
      Forall2 updated objs objs' /\
      forall g : rng, save_rank_crowding k cr j front {| objects := objs; seed := g |}
                = ({| objects := objs'; seed := g |}, Ok tt).
Proof.
  induction front as [|i front IH]; intros j objs Hj Hf; simpl.
  - exists objs. split; [apply Forall2_updated_refl|reflexivity].
  - inversion Hf as [|? ? Hi Hf']; subst. simpl in Hj.
    destruct (@setattr_pure i (fun f => set_rank f k) objs Hi) as (o1 & U1 & E1).
    { intros f. unfold updated; simpl. repeat split; auto. discriminate. }
    assert (Hjc : j < length cr) by lia.
    set (c := nth j cr PyFloat.NegInf).
    assert (Hi1 : i < length o1) by (rewrite (Forall2_updated_length U1); exact Hi).
    destruct (@setattr_pure i (fun f => set_crowding f c) o1 Hi1) as (o2 & U2 & E2).
    { intros f. unfold updated; simpl. repeat split; auto. discriminate. }
    destruct (IH (S j) o2) as (o3 & U3 & E3); [lia| |].
    { rewrite (Forall2_updated_length U2), (Forall2_updated_length U1). exact Hf'. }
    exists o3. split.
    + eauto using Forall2_updated_trans.
    + intros g. erewrite bind_ok by apply E1.
      unfold bind at 1, lift. rewrite (getitem_ok cr PyFloat.NegInf Hjc). fold c.
      erewrite bind_ok by apply E2. apply E3.
Qed.

Lemma crowding_and_positions_fits (pop_size : nat) (F : matrix)
      (front survivors : list nat) (s : store rng) :
  Forall (fun i => i < length F) front ->
  length survivors + length front <= pop_size ->
  crowding_and_positions pop_size F front survivors s
  = (s, Ok (crowding_distance (map (fun i => nth i F []) front) 0,
            seq 0 (length front))).
Proof.
  intros HF Hfit. unfold crowding_and_positions. rewrite length_seq.
  destruct (Nat.ltb_spec pop_size (length survivors + length front)); [lia|].
  unfold bind, lift, ret. now rewrite (take_ok F [] HF).
Qed.

(** A front that fits is kept whole, and no random number is drawn. *)
Lemma survival_front_whole (pop_size k : nat) (F : matrix)
      (front survivors : list nat) (objs : list Function) :
  Forall (fun i => i < length F) front ->
  Forall (fun i => i < length objs) front ->
  length survivors + length front <= pop_size ->
  exists objs',
    Forall2 updated objs objs' /\
    forall g : rng, survival_front pop_size k F front survivors
                             {| objects := objs; seed := g |}
              = ({| objects := objs'; seed := g |}, Ok (survivors ++ front)).
Proof.
  intros HF Hs Hfit.
  set (cr := crowding_distance (map (fun i => nth i F []) front) 0).
  destruct (@save_rank_crowding_pure k cr front 0 objs) as (objs' & U & ES).
  { subst cr. rewrite crowding_distance_length, length_map. lia. }
  { exact Hs. }
  exists objs'. split; [exact U|]. intros g.
  unfold survival_front.
  erewrite bind_ok by (apply crowding_and_positions_fits; assumption).
  simpl fst; simpl snd. fold cr. erewrite bind_ok by apply ES.
  unfold bind, lift, ret.
  rewrite (take_ok front 0).
  - now rewrite map_nth_seq.
  - apply Forall_forall. intros t Ht. apply in_seq in Ht. lia.
Qed.

(** The fronts that fit, in a row. *)
Lemma survival_loop_whole (pop_size : nat) (F : matrix)
      (whole rest : list (list nat)) :
  forall (k : nat) (survivors : list nat) (objs : list Function),
    Forall (Forall (fun i => i < length F)) whole ->
    Forall (Forall (fun i => i < length objs)) whole ->
    length survivors + length (concat whole) <= pop_size ->
    exists objs',
      Forall2 updated objs objs' /\
      forall g : rng, survival_loop pop_size k F (whole ++ rest) survivors
                              {| objects := objs; seed := g |}
                = survival_loop pop_size (k + length whole) F rest
                                (survivors ++ concat whole)
                                {| objects := objs'; seed := g |}.
Proof.
  induction whole as [|front whole IH]; intros k survivors objs HF Hs Hfit.
  - exists objs. split; [apply Forall2_updated_refl|]. intros g. simpl.
    now rewrite Nat.add_0_r, app_nil_r.
  - inversion HF as [|? ? HF1 HF2]; subst.
    inversion Hs as [|? ? Hs1 Hs2]; subst.
    simpl in Hfit. rewrite length_app in Hfit.
    destruct (@survival_front_whole pop_size k F front survivors objs HF1 Hs1)
      as (o1 & U1 & E1); [lia|].
    destruct (IH (S k) (survivors ++ front) o1 HF2) as (o2 & U2 & E2).
    { rewrite (Forall2_updated_length U1). exact Hs2. }
    { rewrite length_app. lia. }
    exists o2. split; [eauto using Forall2_updated_trans|]. intros g.
    simpl. erewrite bind_ok by apply E1. rewrite E2.
    now rewrite <- app_assoc, Nat.add_succ_r.
Qed.

(** The front that overflows: the positions kept are the first
    [capacity - len(survivors)] of the descending order that
    [randomized_argsort] builds from the one permutation it draws. *)
Lemma survival_front_split (pop_size k : nat) (F : matrix)
      (front survivors : list nat) (objs : list Function) :
  Forall (fun i => i < length F) front ->
  Forall (fun i => i < length objs) front ->
  pop_size < length survivors + length front ->
  let n_remove := length survivors + length front - pop_size in
  let cr := crowding_distance (map (fun i => nth i F []) front) n_remove in
  exists objs',
    Forall2 updated objs objs' /\
    forall g : rng,
      let P := fst (random_permutation g (length front)) in
      let I := drop_last n_remove
                 (rev (map (fun j => nth j P 0)
                           (argsort (map (fun i => nth i cr PyFloat.NegInf) P)))) in
      Forall (fun t => t < length front) I /\
      survival_front pop_size k F front survivors {| objects := objs; seed := g |}
      = ({| objects := objs'; seed := snd (random_permutation g (length front)) |},
         Ok (survivors ++ map (fun t => nth t front 0) I)).
Proof.
  intros HF Hs Hov n_remove cr.
  assert (Hcr : length cr = length front).
  { subst cr. now rewrite crowding_distance_length, length_map. }
  destruct (@save_rank_crowding_pure k cr front 0 objs) as (objs' & U & ES);
    [lia|exact Hs|].
  exists objs'. split; [exact U|]. intros g P.
  destruct (@crowding_and_positions_spec pop_size F front survivors
              {| objects := objs; seed := g |} HF)
    as (cr0 & I & g' & EC & _ & HIr & _ & _ & Hover).
  destruct (Hover Hov) as (Ecr & _ & _ & HE).
  fold n_remove in Ecr, HE. fold cr in Ecr. subst cr0.
  simpl in HE. rewrite Hcr in HE.
  subst P. destruct (random_permutation g (length front)) as [P g1].
  inversion HE; subst I g'. simpl fst. simpl snd.
  split; [exact HIr|].
  unfold survival_front. erewrite bind_ok by exact EC.
  simpl fst; simpl snd. erewrite bind_ok by apply ES.
  unfold bind, lift, ret. now rewrite (take_ok front 0 HIr).
Qed.

Lemma stop_if_ranked_last (n s : nat) (fronts whole : list (list nat))
      (last : list nat) :
  stop_if_ranked n s fronts = whole ++ [last] ->
  whole = [] \/ s + length (concat whole) < n.
Proof.
  revert s whole; induction fronts as [|f fs IH]; intros s whole; simpl.
  - intros E. destruct whole; discriminate.
  - destruct (Nat.leb_spec n (s + length f)).
    + intros E. destruct whole as [|w whole]; [auto|].
      simpl in E. inversion E. destruct whole; discriminate.
    + intros E. destruct whole as [|w whole]; [auto|].
      simpl in E. inversion E; subst. right. simpl. rewrite length_app.
      destruct (IH _ _ H2) as [->|Hlt]; simpl; lia.
Qed.

Lemma Forall2_member_of (pop objs' : list Function) (idx : list nat) (d : Function) :
  Forall2 updated pop objs' ->
  Forall (fun i => i < length pop) idx ->
  Forall2 (fun i f' => exists f, nth_error pop i = Some f /\ updated f f')
          idx (map (fun i => nth i objs' d) idx).
Proof.
  intros U. induction 1 as [|i idx Hi _ IH]; simpl; constructor; auto.
  destruct (nth_error pop i) as [f|] eqn:E; [|apply nth_error_None in E; lia].
  exists f. split; [reflexivity|].
  destruct (@Forall2_nth_error _ _ _ _ _ i _ U E) as (f' & E' & Uf).
  now rewrite (nth_error_nth _ _ d E').
Qed.

(** The survival computation on a pool whose score matrix is [F], in
    terms of the fronts line 72 returns: all but the last one fit and
    are kept whole. *)
Lemma survival_by_fronts (pop_size : nat) (pop : list Function) (F : matrix)
      (whole : list (list nat)) (last : list nat) :
  neg_array (map score pop) = Ok F ->
  NonDominatedSorting_do F pop_size = whole ++ [last] ->
  let d := mkFunction EmptyString None None None in
  let s := length (concat whole) in
  let n_remove := s + length last - pop_size in
  let cr := crowding_distance (map (fun i => nth i F []) last) n_remove in
  s <= pop_size /\
  Forall (fun i => i < length pop) (concat whole ++ last) /\
  Forall (fun i => i < length F) last /\
  (s + length last <= pop_size ->
   exists objs',
     Forall2 updated pop objs' /\
     forall g : rng, survival pop_size {| objects := pop; seed := g |}
               = ({| objects := objs'; seed := g |},
                  Ok (map (fun i => nth i objs' d) (concat whole ++ last)))) /\
  (pop_size < s + length last ->
   exists objs',
     Forall2 updated pop objs' /\
     forall g : rng,
       let P := fst (random_permutation g (length last)) in
       survival pop_size {| objects := pop; seed := g |}
       = ({| objects := objs'; seed := snd (random_permutation g (length last)) |},
          Ok (map (fun i => nth i objs' d)
                  (concat whole
                   ++ map (fun t => nth t last 0)
                          (drop_last n_remove
                             (rev (map (fun j => nth j P 0)
                                       (argsort (map (fun i => nth i cr PyFloat.NegInf)
                                                     P))))))))).
Proof.
  intros HFa Hfr d s n_remove cr.
  destruct (@neg_array_inv _ F HFa) as (rows & Hrows & _ & HU & HFl).
  rewrite length_map in HFl.
  pose proof (non_dominated_sort_perm HU) as HP.
  assert (Hall : Forall (Forall (fun i => i < length F)) (whole ++ [last])).
  { rewrite <- Hfr. apply Forall_forall. intros front Hfront.
    apply stop_if_ranked_incl in Hfront.
    apply Forall_forall. intros i Hi.
    assert (Hc : In i (concat (non_dominated_sort F))).
    { apply in_concat. eauto. }
    apply (Permutation_in _ HP), in_seq in Hc. lia. }
  apply Forall_app in Hall as [Hw Hl].
  inversion Hl as [|? ? Hlast _]; subst.
  assert (Hs : s <= pop_size).
  { destruct (@stop_if_ranked_last pop_size 0 _ whole last Hfr) as [->|Hlt];
      subst s; simpl in *; lia. }
  assert (Hidx : Forall (fun i => i < length pop) (concat whole ++ last)).
  { rewrite <- HFl. apply Forall_app. split; [|exact Hlast].
    apply Forall_forall. intros i Hi. apply in_concat in Hi as (front & Hf & Hi).
    rewrite Forall_forall in Hw. specialize (Hw front Hf).
    rewrite Forall_forall in Hw. now apply Hw. }
  split; [exact Hs|]. split; [exact Hidx|]. split; [exact Hlast|].
  assert (Hw' : Forall (Forall (fun i => i < length pop)) whole)
    by now rewrite <- HFl.
  destruct (@survival_loop_whole pop_size F whole [last] 0 [] pop Hw Hw')
    as (ow & Uw & Ew); [simpl; fold s; lia|].
  simpl in Ew.
  assert (Hlast' : Forall (fun i => i < length ow) last).
  { rewrite (Forall2_updated_length Uw), <- HFl. exact Hlast. }
  assert (Hunfold : forall g r s',
             survival_loop pop_size 0 F (whole ++ [last]) []
                           {| objects := pop; seed := g |} = (s', Ok r) ->
             Forall (fun i => i < length (objects s')) r ->
             survival pop_size {| objects := pop; seed := g |}
             = (s', Ok (map (fun i => nth i (objects s') d) r))).
  { intros g r s' EL Hr. unfold survival.
    unfold bind at 1. unfold bind at 1, lift at 1. simpl objects at 1.
    rewrite HFa. rewrite Hfr. erewrite bind_ok by exact EL.
    unfold bind, lift. simpl. now rewrite (take_ok (objects s') d Hr). }
  split.
  - intros Hfit.
    destruct (@survival_front_whole pop_size (length whole) F last (concat whole)
                ow Hlast Hlast' Hfit) as (objs' & U & EF).
    exists objs'. split; [eauto using Forall2_updated_trans|]. intros g.
    apply (Hunfold g (concat whole ++ last) {| objects := objs'; seed := g |}).
    + rewrite Ew. simpl. erewrite bind_ok by apply EF. reflexivity.
    + simpl. rewrite (Forall2_updated_length U), (Forall2_updated_length Uw).
      exact Hidx.
  - intros Hov.
    destruct (@survival_front_split pop_size (length whole) F last (concat whole)
                ow Hlast Hlast' Hov) as (objs' & U & EF).
    exists objs'. split; [eauto using Forall2_updated_trans|]. intros g P.
    destruct (EF g) as [HIr EFg]. fold s n_remove cr P in HIr, EFg.
    apply (Hunfold g _ {| objects := objs';
                          seed := snd (random_permutation g (length last)) |}).
    + rewrite Ew. simpl. erewrite bind_ok by apply EFg. reflexivity.
    + simpl. rewrite (Forall2_updated_length U), (Forall2_updated_length Uw).
      apply Forall_app in Hidx as [Hi1 Hi2].
      apply Forall_app. split; [exact Hi1|].
      apply Forall_forall. intros i Hi. apply in_map_iff in Hi as (t & <- & Ht).
      rewrite Forall_forall in HIr, Hi2.
      apply Hi2, nth_In, HIr, Ht.
Qed.


Lemma append_and_update_triggered (self : Population) (g : rng) (func : Function)
      (st : store rng) (m : list Function) :
  _pop_size self <= length (_next_gen_pop self ++ [func]) ->
  survival (_pop_size self)
           {| objects := _population self ++ _next_gen_pop self ++ [func];
              seed := g |} = (st, Ok m) ->
  value (append_and_update self g func)
  = {| _population := m; _pop_size := _pop_size self;
       _next_gen_pop := []; _generation := _generation self + 1 |} /\
  rnd (append_and_update self g func) = seed st.
Proof.
  intros Hge ES. unfold append_and_update.
  destruct (Nat.leb_spec (_pop_size self) (length (_next_gen_pop self ++ [func])));
    [|lia].
  rewrite ES. simpl. auto.
Qed.

Lemma NonDominatedSorting_do_nonempty (F : matrix) (n : nat) :
  F <> [] -> NonDominatedSorting_do F n <> [].
Proof.
  intros H. unfold NonDominatedSorting_do, non_dominated_sort.
  destruct F as [|r F]; [congruence|].
  cbn [length seq fronts_of stop_if_ranked]. discriminate.
Qed.

(** C3: in a survival computation that completes, every front but the
    last one the sorting returns fits and is kept whole.  When the
    survivors so far plus the last front exceed the capacity, the
    crowding distances of that front are computed for the number of
    candidates to remove, its positions are put in descending order of
    crowding distance, and exactly [capacity - len(survivors)] of them
    are installed as members after the whole fronts, none of them less
    crowded than a position left out.  The order among equal crowding
    values is the one the single permutation drawn from the generator
    gives: the retained positions are the first of
    [flip(P[argsort(crowding[P])])], the generator is advanced by that
    one draw, and a second run on the same inputs from any generator
    state that yields the same permutation installs the same members
    (no draw is made when the last front fits). *)
Theorem overflowing_front_truncated_by_crowding :
  forall (self : Population) (g : rng) (func : Function),
    let pool := _population self ++ _next_gen_pop self ++ [staged self func] in
    let self' := value (register_function self g func) in
    _generation self' = _generation self + 1 ->
    exists F whole last,
      neg_array (map score pool) = Ok F /\
      NonDominatedSorting_do F (_pop_size self) = whole ++ [last] /\
      let s := length (concat whole) in
      s <= _pop_size self /\
      (s + length last <= _pop_size self ->
       installed pool (concat whole ++ last) (_population self') /\
       rnd (register_function self g func) = g /\
       forall g2 : rng,
         _population (value (register_function self g2 func)) = _population self') /\
      (_pop_size self < s + length last ->
       let n_remove := s + length last - _pop_size self in
       let cr := crowding_distance (map (fun i => nth i F []) last) n_remove in
       let P := fst (random_permutation g (length last)) in
       exists I,
         installed pool (concat whole ++ map (fun t => nth t last 0) I)
                   (_population self') /\
         length I = _pop_size self - s /\
         NoDup I /\
         Forall (fun t => t < length last) I /\
         descending cr I /\
         (forall t u, In t I -> u < length last -> ~ In u I ->
                      PyFloat.le (nth u cr PyFloat.NegInf) (nth t cr PyFloat.NegInf)) /\
         I = drop_last n_remove
               (rev (map (fun j => nth j P 0)
                         (argsort (map (fun i => nth i cr PyFloat.NegInf) P)))) /\
         rnd (register_function self g func)
         = snd (random_permutation g (length last)) /\
         forall g2 : rng,
           fst (random_permutation g2 (length last)) = P ->
           _population (value (register_function self g2 func))
           = _population self').
Proof.
  intros self g func pool self' Hgen. subst self'.
  destruct (register_dichotomy self g func) as [[Hg Hs]|Hacc].
  { rewrite register_discard in Hgen by assumption. simpl in Hgen. lia. }
  assert (Hval : forall g0 : rng,
             value (register_function self g0 func)
             = value (append_and_update self g0 (staged self func)))
    by (intros g0; now apply register_accept).
  assert (Hrnd : rnd (register_function self g func)
                 = rnd (append_and_update self g (staged self func)))
    by now apply register_accept_rnd.
  rewrite Hval in Hgen.
  destruct (update_cases self g (staged self func))
    as [(_ & E & _)|[(Hge & F & m & s' & HF & _)|(_ & e & _ & _ & E & _)]];
    try (rewrite E in Hgen; simpl in Hgen; lia).
  fold pool in HF.
  assert (Hne : NonDominatedSorting_do F (_pop_size self) <> []).
  { apply NonDominatedSorting_do_nonempty. intros ->.
    destruct (@neg_array_inv _ _ HF) as (rows & _ & _ & _ & Hl).
    rewrite length_map in Hl. subst pool. rewrite !length_app in Hl.
    simpl in Hl. lia. }
  destruct (exists_last Hne) as (whole & last & Hfr).
  exists F, whole, last. split; [exact HF|]. split; [exact Hfr|].
  destruct (@survival_by_fronts (_pop_size self) pool F whole last HF Hfr)
    as (Hs & Hidx & Hlast & Hfit & Hov).
  set (d := mkFunction EmptyString None None None) in *.
  intros s. fold s in Hs, Hfit, Hov.
  split; [exact Hs|]. split.
  - intros Hf. destruct (Hfit Hf) as (objs' & U & ES).
    assert (Hall : forall g0 : rng,
               _population (value (register_function self g0 func))
               = map (fun i => nth i objs' d) (concat whole ++ last) /\
               rnd (append_and_update self g0 (staged self func)) = g0).
    { intros g0. rewrite Hval.
      destruct (@append_and_update_triggered self g0 (staged self func) _ _ Hge
                  (ES g0)) as [-> ->]. auto. }
    destruct (Hall g) as [Em Er].
    split; [|split].
    + rewrite Em. now apply Forall2_member_of.
    + now rewrite Hrnd.
    + intros g2. rewrite Em. apply Hall.
  - intros Ho n_remove cr P. destruct (Hov Ho) as (objs' & U & ES).
    fold n_remove cr in ES.
    set (Ifun := fun (P0 : list nat) =>
                   drop_last n_remove
                     (rev (map (fun j => nth j P0 0)
                               (argsort (map (fun i => nth i cr PyFloat.NegInf) P0))))).
    assert (Hall : forall g0 : rng,
               _population (value (register_function self g0 func))
               = map (fun i => nth i objs' d)
                     (concat whole
                      ++ map (fun t => nth t last 0)
                             (Ifun (fst (random_permutation g0 (length last))))) /\
               rnd (append_and_update self g0 (staged self func))
               = snd (random_permutation g0 (length last))).
    { intros g0. rewrite Hval.
      destruct (@append_and_update_triggered self g0 (staged self func) _ _ Hge
                  (ES g0)) as [-> ->]. auto. }
    destruct (Hall g) as [Em Er]. fold P in Em.
    destruct (@crowding_and_positions_spec (_pop_size self) F last (concat whole)
                {| objects := pool; seed := g |} Hlast)
      as (cr0 & I & g' & _ & Hcr & HIr & HND & HIl & Hover).
    fold s in HIl, Hover.
    destruct (Hover Ho) as (Ecr & HD & Hmax & HE).
    fold n_remove in Ecr, HE. fold cr in Ecr. subst cr0.
    assert (EI : I = Ifun P).
    { simpl in HE. rewrite Hcr in HE. subst P.
      destruct (random_permutation g (length last)) as [P0 g1].
      now inversion HE. }
    exists I.
    split; [rewrite Em, EI; apply Forall2_member_of; [exact U|]|].
    { apply Forall_app in Hidx as [Hi1 Hi2].
      apply Forall_app. split; [exact Hi1|].
      apply Forall_forall. intros i Hi. apply in_map_iff in Hi as (t & <- & Ht).
      rewrite <- EI in Ht. rewrite Forall_forall in HIr, Hi2.
      apply Hi2, nth_In, HIr, Ht. }
    split; [rewrite HIl; lia|].
    split; [exact HND|]. split; [exact HIr|]. split; [exact HD|].
    split; [exact Hmax|]. split; [exact EI|]. split; [now rewrite Hrnd|].
    intros g2 HP. rewrite Em. destruct (Hall g2) as [-> _]. now rewrite HP.
Qed.


(** ** Registration of shared objects *)

Local Abbreviation Shared_survival :=
  (Shared.survival random_permutation argsort crowding_distance).
Local Abbreviation Shared_append_and_update :=
  (Shared.append_and_update random_permutation argsort crowding_distance).
Local Abbreviation Shared_register_function :=
  (Shared.register_function random_permutation argsort crowding_distance).
Local Abbreviation Shared_register_all :=
  (Shared.register_all random_permutation argsort crowding_distance).

Lemma write_length (h : list Function) (a : nat) (f : Function) :
  length (Shared.write h a f) = length h.
Proof.
  unfold Shared.write. destruct (Nat.ltb_spec a (length h)); [|reflexivity].
  rewrite length_app, length_firstn. cbn [length]. rewrite length_skipn. lia.
Qed.

Lemma object_write_same (h : list Function) (a : nat) (f : Function) :
  a < length h -> Shared.object (Shared.write h a f) a = f.
Proof.
  intros H. unfold Shared.object, Shared.write.
  destruct (Nat.ltb_spec a (length h)); [|lia].
  apply nth_error_nth. now apply nth_error_point_update.
Qed.

Lemma object_write_other (h : list Function) (a b : nat) (f : Function) :
  b <> a -> Shared.object (Shared.write h a f) b = Shared.object h b.
Proof.
  intros H. unfold Shared.object, Shared.write.
  destruct (Nat.ltb_spec a (length h)); [|reflexivity].
  destruct (Nat.lt_ge_cases b (length h)) as [Hb|Hb].
  - destruct (nth_error h b) as [x|] eqn:E; [|apply nth_error_None in E; lia].
    rewrite (nth_error_nth _ _ _ E). apply nth_error_nth.
    now rewrite nth_error_point_update_other.
  - rewrite !nth_overflow; auto.
    rewrite length_app, length_firstn. cbn [length]. rewrite length_skipn. lia.
Qed.

Lemma load_write_other (h : list Function) (a : nat) (f : Function) (l : list nat) :
  ~ In a l -> Shared.load (Shared.write h a f) l = Shared.load h l.
Proof.
  intros H. unfold Shared.load. apply map_ext_in. intros b Hb.
  apply object_write_other. intros ->. tauto.
Qed.

Lemma object_updated (h h' : list Function) (a : nat) :
  Forall2 updated h h' -> updated (Shared.object h a) (Shared.object h' a).
Proof.
  intros U. unfold Shared.object.
  destruct (nth_error h a) as [f|] eqn:E.
  - destruct (@Forall2_nth_error _ _ _ _ _ a _ U E) as (f' & E' & Uf).
    now rewrite (nth_error_nth _ _ _ E), (nth_error_nth _ _ _ E').
  - apply nth_error_None in E.
    rewrite !nth_overflow; [apply updated_refl| |]; auto.
    now rewrite (Forall2_updated_length U).
Qed.

(** *** The survival computation leaves strings and scores alone *)

Lemma preserving_ret {A} (a : A) : preserving (ret (rng := rng) a).
Proof. intros s. apply Forall2_updated_refl. Qed.

Lemma preserving_lift {A} (r : result A) : preserving (lift (rng := rng) r).
Proof. intros s. apply Forall2_updated_refl. Qed.

Lemma preserving_bind {A B} (m : M rng A) (k : A -> M rng B) :
  preserving m -> (forall a, preserving (k a)) -> preserving (bind m k).
Proof.
  intros Hm Hk s. unfold bind. specialize (Hm s).
  destruct (m s) as [s1 [a|e]]; simpl in *; [|exact Hm].
  eapply Forall2_updated_trans; [exact Hm|apply Hk].
Qed.

Lemma preserving_permutation (n : nat) :
  preserving (permutation random_permutation n).
Proof.
  intros s. unfold permutation.
  destruct (random_permutation (seed s) n). apply Forall2_updated_refl.
Qed.

Lemma preserving_setattr (a : nat) (upd : Function -> Function) :
  (forall f, updated f (upd f)) -> preserving (setattr (rng := rng) a upd).
Proof.
  intros Hu s. unfold setattr.
  destruct (nth_error (objects s) a) as [f|] eqn:E; simpl.
  - apply Forall2_point_update with (f := f); auto using updated_refl.
  - apply Forall2_updated_refl.
Qed.

Lemma preserving_crowding_and_positions (pop_size : nat) (F : matrix)
      (front survivors : list nat) :
  preserving (crowding_and_positions pop_size F front survivors).
Proof.
  unfold crowding_and_positions.
  destruct (pop_size <? length survivors + length (seq 0 (length front))).
  - apply preserving_bind; [apply preserving_lift|]. intros Ff.
    apply preserving_bind; [|intros; apply preserving_ret].
    unfold randomized_argsort.
    apply preserving_bind; [apply preserving_permutation|]. intros P.
    apply preserving_bind; [apply preserving_lift|]. intros AP.
    apply preserving_bind; [apply preserving_lift|]. intros I.
    apply preserving_ret.
  - apply preserving_bind; [apply preserving_lift|]. intros Ff.
    apply preserving_ret.
Qed.


Lemma updated_set_rank (k : nat) (f : Function) : updated f (set_rank f k).
Proof. unfold updated; simpl. repeat split; auto. discriminate. Qed.

Lemma updated_set_crowding (c : pyfloat) (f : Function) : updated f (set_crowding f c).
Proof. unfold updated; simpl. repeat split; auto. discriminate. Qed.

Lemma preserving_shared_setattr (pool : list nat) (i : nat)
      (upd : Function -> Function) :
  (forall f, updated f (upd f)) -> preserving (Shared.setattr (rng := rng) pool i upd).
Proof.
  intros Hu. unfold Shared.setattr.
  apply preserving_bind; [apply preserving_lift|]. intros a.
  now apply preserving_setattr.
Qed.

Lemma preserving_shared_save (pool : list nat) (k : nat) (cr : list pyfloat)
      (front : list nat) :
  forall j, preserving (Shared.save_rank_crowding (rng := rng) pool k cr j front).
Proof.
  induction front as [|i front IH]; intros j; simpl.
  - apply preserving_ret.
  - apply preserving_bind;
      [apply preserving_shared_setattr, updated_set_rank|]. intros _.
    apply preserving_bind; [apply preserving_lift|]. intros c.
    apply preserving_bind;
      [apply preserving_shared_setattr, updated_set_crowding|]. intros _.
    apply IH.
Qed.

Lemma preserving_shared_loop (pool : list nat) (pop_size : nat) (F : matrix)
      (fronts : list (list nat)) :
  forall k survivors,
    preserving (Shared.survival_loop random_permutation argsort crowding_distance
                                     pool pop_size k F fronts survivors).
Proof.
  induction fronts as [|front fronts IH]; intros k survivors; simpl.
  - apply preserving_ret.
  - apply preserving_bind; [|intros; apply IH].
    unfold Shared.survival_front.
    apply preserving_bind; [apply preserving_crowding_and_positions|]. intros cI.
    apply preserving_bind; [apply preserving_shared_save|]. intros _.
    apply preserving_bind; [apply preserving_lift|]. intros sel.
    apply preserving_ret.
Qed.

Lemma preserving_shared_survival (pool : list nat) (pop_size : nat) :
  preserving (Shared_survival pool pop_size).
Proof.
  unfold Shared.survival.
  apply preserving_bind; [intros s; apply Forall2_updated_refl|]. intros h.
  apply preserving_bind; [apply preserving_lift|]. intros F.
  apply preserving_bind; [apply preserving_shared_loop|]. intros survivors.
  apply preserving_lift.
Qed.

Lemma take_incl {A} (l : list A) (I : list nat) (r : list A) :
  take l I = Ok r -> incl r l /\ length r = length I.
Proof.
  intros H. destruct (take_inv _ _ H) as (Hb & Hl & Hr).
  split; [|exact Hl].
  destruct l as [|d l]; [destruct I; [inversion H; intros x []|]|].
  - inversion Hb; subst. simpl in *. lia.
  - rewrite (Hr d). intros x Hx. apply in_map_iff in Hx as (i & <- & Hi).
    rewrite Forall_forall in Hb. apply nth_In. now apply Hb.
Qed.

(** The result of [Shared.survival], whatever the pool. *)
Lemma shared_survival_result (pool : list nat) (pop_size : nat) (h : list Function)
      (g : rng) :
  let out := Shared_survival pool pop_size {| objects := h; seed := g |} in
  Forall2 updated h (objects (fst out)) /\
  (forall r, snd out = Ok r -> incl r pool) /\
  (forall e, neg_array (map (fun a => score (Shared.object h a)) pool) = Raise e ->
             out = ({| objects := h; seed := g |}, Raise e)).
Proof.
  intros out. split; [|split].
  - apply (preserving_shared_survival pool pop_size {| objects := h; seed := g |}).
  - intros r. subst out. unfold Shared.survival, bind at 1. simpl objects.
    unfold bind at 1, lift at 1.
    destruct (neg_array _) as [F|e]; [|discriminate].
    unfold bind.
    destruct (Shared.survival_loop _ _ _ _ _ _ _ _ _ _) as [s1 [sv|e]];
      [|discriminate].
    unfold lift. simpl. intros H. now apply take_incl in H.
  - intros e He. subst out. unfold Shared.survival, bind at 1. simpl objects.
    unfold bind at 1, lift at 1. now rewrite He.
Qed.

(** *** What lines 51-56 write *)

Lemma stage_spec (self : Shared.t) (a : nat) :
  a < length (Shared.heap self) ->
  let func := with_default_score (Shared.object (Shared.heap self) a) in
  let self0 := Shared.set_heap self (Shared.write (Shared.heap self) a func) in
  let dup := has_duplicate_function (Shared.view self0) func in
  length (Shared.stage self a) = length (Shared.heap self) /\
  Shared.object (Shared.stage self a) a
  = (if dup then set_score func neg_inf_score else func) /\
  (forall b, b <> a ->
             Shared.object (Shared.stage self a) b
             = Shared.object (Shared.heap self) b).
Proof.
  intros Ha func self0 dup. unfold Shared.stage.
  rewrite (object_write_same _ _ Ha). fold func. fold self0. fold dup.
  destruct dup.
  - split; [now rewrite !write_length|]. split.
    + apply object_write_same. now rewrite write_length.
    + intros b Hb. now rewrite !object_write_other.
  - split; [now rewrite write_length|]. split.
    + now apply object_write_same.
    + intros b Hb. now rewrite object_write_other.
Qed.

Lemma shared_duplicate_spec (self : Shared.t) (func : Function) :
  has_duplicate_function (Shared.view self) func = true <->
  exists b, In b (Shared.held self) /\
            (str (Shared.object (Shared.heap self) b) = str func \/
             score func = score (Shared.object (Shared.heap self) b)).
Proof.
  rewrite has_duplicate_function_spec. unfold Shared.view, Shared.held. simpl.
  unfold Shared.load. rewrite <- map_app. split.
  - intros (f & Hf & Hd). apply in_map_iff in Hf as (b & <- & Hb). eauto.
  - intros (b & Hb & Hd). exists (Shared.object (Shared.heap self) b).
    split; [now apply in_map|exact Hd].
Qed.

(** The state a registration that is not discarded reaches. *)
Lemma shared_update_cases (self : Shared.t) (g : rng) (a : nat) :
  let out := fst (Shared_append_and_update self g a) in
  Forall2 updated (Shared.heap self) (Shared.heap out) /\
  Shared.pop_size out = Shared.pop_size self /\
  (length (Shared.pending self) + 1 < Shared.pop_size self ->
   Shared_append_and_update self g a
   = ({| Shared.heap := Shared.heap self; Shared.members := Shared.members self;
         Shared.pop_size := Shared.pop_size self;
         Shared.pending := Shared.pending self ++ [a];
         Shared.generation := Shared.generation self |}, g)) /\
  (Shared.pop_size self <= length (Shared.pending self) + 1 ->
   (Shared.generation out = Shared.generation self + 1 /\
    Shared.pending out = [] /\
    incl (Shared.members out)
         (Shared.members self ++ Shared.pending self ++ [a])) \/
   (Shared.generation out = Shared.generation self /\
    Shared.pending out = Shared.pending self ++ [a] /\
    Shared.members out = Shared.members self)).
Proof.
  intros out. subst out. unfold Shared.append_and_update.
  rewrite length_app. simpl length.
  destruct (Nat.leb_spec (Shared.pop_size self) (length (Shared.pending self) + 1))
    as [Hge|Hlt].
  - destruct (@shared_survival_result
                (Shared.members self ++ Shared.pending self ++ [a])
                (Shared.pop_size self) (Shared.heap self) g) as (U & Hin & _).
    destruct (Shared_survival _ _ _) as [s [r|e]]; simpl in *.
    + split; [exact U|]. split; [reflexivity|]. split; [lia|].
      intros _. left. repeat split. now apply Hin.
    + split; [exact U|]. split; [reflexivity|]. split; [lia|].
      intros _. right. repeat split.
  - simpl. split; [apply Forall2_updated_refl|]. split; [reflexivity|].
    split; [reflexivity|lia].
Qed.


(** C4: [register_function] neutralizes duplicates instead of dropping
    them.  The candidate is the object at address [a], with the score
    lines 51-52 leave it.  It is a duplicate iff some object the
    population holds, as a member or pending, has the same string or
    the same score; an object that is already held is therefore a
    duplicate of itself.  The score of a duplicate is overwritten with
    [[-inf, -inf]] on the object itself, so wherever it is held, and no
    other object's score is touched; otherwise it keeps its score.  In
    both cases the reference is appended to the pending list: below the
    capacity the pending list grows by it and nothing else changes, and
    at the capacity the survival computation runs, triggered by the
    length of the pending list alone: either it completes (the pending
    list is emptied, the generation advances, the members are taken
    from the pool with the reference) or it fails and the reference
    stays pending. *)
Theorem duplicates_are_neutralized_not_dropped :
  forall (self : Shared.t) (g : rng) (a : nat),
    a < length (Shared.heap self) ->
    (Shared.generation self <> 0 \/
     score (Shared.object (Shared.heap self) a) <> None) ->
    let func := with_default_score (Shared.object (Shared.heap self) a) in
    let self0 := Shared.set_heap self (Shared.write (Shared.heap self) a func) in
    let dup := has_duplicate_function (Shared.view self0) func in
    let out := fst (Shared_register_function self g a) in
    (dup = true <->
     exists b, In b (Shared.held self) /\
               (str (Shared.object (Shared.heap self0) b) = str func \/
                score func = score (Shared.object (Shared.heap self0) b))) /\
    (In a (Shared.held self) -> dup = true) /\
    (dup = true ->
     score (Shared.object (Shared.heap out) a)
     = Some [PyFloat.NegInf; PyFloat.NegInf]) /\
    (dup = false -> score (Shared.object (Shared.heap out) a) = score func) /\
    str (Shared.object (Shared.heap out) a)
    = str (Shared.object (Shared.heap self) a) /\
    (forall b, b <> a ->
               score (Shared.object (Shared.heap out) b)
               = score (Shared.object (Shared.heap self) b)) /\
    (length (Shared.pending self) + 1 < Shared.pop_size self ->
     Shared.pending out = Shared.pending self ++ [a] /\
     Shared.members out = Shared.members self /\
     Shared.generation out = Shared.generation self) /\
    (Shared.pop_size self <= length (Shared.pending self) + 1 ->
     (Shared.generation out = Shared.generation self + 1 /\
      Shared.pending out = [] /\
      incl (Shared.members out)
           (Shared.members self ++ Shared.pending self ++ [a])) \/
     (Shared.generation out = Shared.generation self /\
      Shared.pending out = Shared.pending self ++ [a] /\
      Shared.members out = Shared.members self)).
Proof.
  intros self g a Ha Hacc func self0 dup out.
  destruct (@stage_spec self a Ha) as (Hlen & Hobj & Hother).
  fold func self0 dup in Hobj.
  set (stg := Shared.set_heap self (Shared.stage self a)).
  assert (Eout : out = fst (Shared_append_and_update stg g a)).
  { subst out. unfold Shared.register_function.
    destruct (Nat.eqb_spec (Shared.generation self) 0) as [E|E]; simpl;
      [|reflexivity].
    destruct (score (Shared.object (Shared.heap self) a)); simpl; [reflexivity|].
    destruct Hacc; congruence. }
  destruct (shared_update_cases stg g a) as (U & _ & Hbelow & Hat).
  rewrite <- Eout in U, Hat. simpl in U, Hbelow, Hat.
  pose proof (fun b => object_updated b U) as Hupd.
  assert (Hiff : dup = true <->
                 exists b, In b (Shared.held self) /\
                           (str (Shared.object (Shared.heap self0) b) = str func \/
                            score func = score (Shared.object (Shared.heap self0) b))).
  { subst dup. apply (shared_duplicate_spec self0 func). }
  split; [exact Hiff|]. split; [|split; [|split; [|split; [|split; [|split]]]]].
  - intros Hin. apply Hiff. exists a. split; [exact Hin|]. left.
    subst self0. simpl. now rewrite (object_write_same _ _ Ha).
  - intros Hd. destruct (Hupd a) as (_ & -> & _). rewrite Hobj, Hd. reflexivity.
  - intros Hd. destruct (Hupd a) as (_ & -> & _). now rewrite Hobj, Hd.
  - destruct (Hupd a) as (Hr & _). unfold str. rewrite Hr, Hobj.
    subst func. unfold with_default_score.
    destruct dup, (score (Shared.object (Shared.heap self) a)); reflexivity.
  - intros b Hb. destruct (Hupd b) as (_ & -> & _). now rewrite Hother.
  - intros Hlt. rewrite Eout, (Hbelow Hlt). simpl. auto.
  - exact Hat.
Qed.


(** *** Shared objects after a survival computation has failed *)

Lemma shared_register_after_failure (self : Shared.t) (g : rng) (a : nat) (e : exn) :
  a < length (Shared.heap self) ->
  ~ In a (Shared.held self) ->
  neg_array (map score (Shared.load (Shared.heap self) (Shared.held self)))
  = Raise e ->
  let out := fst (Shared_register_function self g a) in
  Shared.members out = Shared.members self /\
  Shared.generation out = Shared.generation self /\
  length (Shared.heap out) = length (Shared.heap self) /\
  (Shared.pending out = Shared.pending self \/
   Shared.pending out = Shared.pending self ++ [a]) /\
  (forall b, b <> a ->
             Shared.object (Shared.heap out) b = Shared.object (Shared.heap self) b) /\
  (exists e', neg_array (map score (Shared.load (Shared.heap out) (Shared.held out)))
              = Raise e').
Proof.
  intros Ha Hfresh Hfail out. subst out. unfold Shared.register_function.
  destruct ((Shared.generation self =? 0)
            && is_none (score (Shared.object (Shared.heap self) a))).
  - simpl. repeat split; auto. eauto.
  - destruct (@stage_spec self a Ha) as (Hlen & _ & Hother).
    set (h := Shared.stage self a) in *.
    assert (Hheld : Shared.load h (Shared.held self)
                    = Shared.load (Shared.heap self) (Shared.held self)).
    { unfold Shared.load. apply map_ext_in. intros b Hb. apply Hother.
      intros ->. tauto. }
    assert (Hpool : exists e',
               neg_array (map (fun b => score (Shared.object h b))
                              (Shared.members self ++ Shared.pending self ++ [a]))
               = Raise e').
    { rewrite app_assoc, map_app.
      apply (@neg_array_raise_app _ _ e).
      rewrite <- Hfail, <- Hheld. unfold Shared.load, Shared.held.
      now rewrite map_map. }
    destruct Hpool as (e' & Hpool).
    assert (Eout : fst (Shared_append_and_update (Shared.set_heap self h) g a)
                   = {| Shared.heap := h; Shared.members := Shared.members self;
                        Shared.pop_size := Shared.pop_size self;
                        Shared.pending := Shared.pending self ++ [a];
                        Shared.generation := Shared.generation self |}).
    { unfold Shared.append_and_update. simpl.
      destruct (Shared.pop_size self <=? length (Shared.pending self ++ [a]));
        [|reflexivity].
      destruct (@shared_survival_result
                  (Shared.members self ++ Shared.pending self ++ [a])
                  (Shared.pop_size self) h g) as (_ & _ & Hr).
      now rewrite (Hr e' Hpool). }
    rewrite Eout. simpl.
    split; [reflexivity|]. split; [reflexivity|]. split; [exact Hlen|].
    split; [now right|]. split; [exact Hother|].
    exists e'. unfold Shared.held. simpl. unfold Shared.load.
    now rewrite map_map.
Qed.

(** X14: a failed survival computation is permanent as far as new
    candidates go: once the scores of the held objects cannot form a
    matrix, registering objects that the population does not hold
    changes neither the members nor the generation nor any held object;
    the pending list only grows, and the scores still cannot form a
    matrix. *)
Theorem failed_survival_is_permanent :
  forall (addresses : list nat) (self : Shared.t) (g : rng) (e : exn),
    NoDup addresses ->
    Forall (fun a => a < length (Shared.heap self) /\ ~ In a (Shared.held self))
           addresses ->
    neg_array (map score (Shared.load (Shared.heap self) (Shared.held self)))
    = Raise e ->
    let out := fst (Shared_register_all self g addresses) in
    Shared.members out = Shared.members self /\
    Shared.generation out = Shared.generation self /\
    (exists more, Shared.pending out = Shared.pending self ++ more /\
                  incl more addresses) /\
    (forall b, In b (Shared.held self) ->
               Shared.object (Shared.heap out) b
               = Shared.object (Shared.heap self) b) /\
    (exists e', neg_array (map score (Shared.load (Shared.heap out) (Shared.held out)))
                = Raise e').
Proof.
  induction addresses as [|a rest IH]; intros self g e Hnd Hfresh Hfail; simpl.
  - repeat split; auto; [exists []; split; [now rewrite app_nil_r|apply incl_refl]|eauto].
  - inversion Hnd as [|? ? Ha Hnd']; subst.
    inversion Hfresh as [|? ? [Hlt Hni] Hfresh']; subst.
    destruct (@shared_register_after_failure self g a e Hlt Hni Hfail)
      as (Hm & Hg & Hl & Hp & Ho & (e' & Hfail')).
    destruct (Shared_register_function self g a) as [self1 g1]. simpl in *.
    assert (Hheld1 : incl (Shared.held self1) (a :: Shared.held self)).
    { unfold Shared.held. rewrite Hm. destruct Hp as [-> | ->].
      - intros b Hb. now right.
      - intros b Hb. rewrite app_assoc in Hb. apply in_app_or in Hb as [Hb|[<-|[]]];
          [now right|now left]. }
    assert (Hfresh1 : Forall (fun b => b < length (Shared.heap self1) /\
                                       ~ In b (Shared.held self1)) rest).
    { rewrite Forall_forall in *. intros b Hb.
      destruct (Hfresh' b Hb) as [Hbl Hbn]. split; [now rewrite Hl|].
      intros Hin. apply Hheld1 in Hin as [<-|Hin]; tauto. }
    destruct (IH self1 g1 e' Hnd' Hfresh1 Hfail')
      as (Hm2 & Hg2 & (more & Hp2 & Hincl) & Ho2 & Hfail2).
    split; [congruence|]. split; [congruence|]. split; [|split; [|exact Hfail2]].
    + destruct Hp as [Hp|Hp].
      * exists more. split; [congruence|]. intros b Hb. right. now apply Hincl.
      * exists (a :: more). split.
        -- rewrite Hp2, Hp, <- app_assoc. reflexivity.
        -- intros b [<-|Hb]; [now left|right; now apply Hincl].
    + intros b Hb. rewrite Ho2.
      * apply Ho. intros ->. tauto.
      * unfold Shared.held in *. rewrite Hm. destruct Hp as [-> | ->]; [exact Hb|].
        rewrite app_assoc. apply in_or_app. now left.
Qed.


(** *** Objects that are not held yet: the value model is exact *)

Lemma agree_ret {A} (pool : list nat) (a : A) :
  agree pool (ret (rng := rng) a) (ret a).
Proof. intros sv sh H. simpl. auto. Qed.

Lemma agree_lift {A} (pool : list nat) (r : result A) :
  agree pool (lift (rng := rng) r) (lift r).
Proof. intros sv sh H. simpl. auto. Qed.

Lemma agree_bind {A B} (pool : list nat) (mv mh : M rng A) (kv kh : A -> M rng B) :
  agree pool mv mh -> (forall a, agree pool (kv a) (kh a)) ->
  agree pool (bind mv kv) (bind mh kh).
Proof.
  intros Hm Hk sv sh H. unfold bind. destruct (Hm sv sh H) as [Er Hr].
  destruct (mv sv) as [sv1 rv], (mh sh) as [sh1 rh]. simpl in *. subst rh.
  destruct rv as [a|e]; [apply Hk; exact Hr|simpl; auto].
Qed.

Lemma agree_permutation (pool : list nat) (n : nat) :
  agree pool (permutation random_permutation n) (permutation random_permutation n).
Proof.
  intros sv sh (Hs & Ho & Hb). unfold permutation. rewrite Hs.
  destruct (random_permutation (seed sh) n) as [P g']. simpl.
  split; [reflexivity|]. repeat split; assumption.
Qed.

Lemma agree_crowding_and_positions (pool : list nat) (pop_size : nat) (F : matrix)
      (front survivors : list nat) :
  agree pool (crowding_and_positions pop_size F front survivors)
        (crowding_and_positions pop_size F front survivors).
Proof.
  unfold crowding_and_positions.
  destruct (pop_size <? length survivors + length (seq 0 (length front))).
  - apply agree_bind; [apply agree_lift|]. intros Ff.
    apply agree_bind; [|intros; apply agree_ret].
    unfold randomized_argsort.
    apply agree_bind; [apply agree_permutation|]. intros P.
    apply agree_bind; [apply agree_lift|]. intros AP.
    apply agree_bind; [apply agree_lift|]. intros I.
    apply agree_ret.
  - apply agree_bind; [apply agree_lift|]. intros Ff.
    apply agree_ret.
Qed.

Lemma load_point_update (pool : list nat) (h : list Function) (i a : nat)
      (f : Function) :
  NoDup pool -> nth_error pool i = Some a -> a < length h ->
  Shared.load (firstn a h ++ f :: skipn (S a) h) pool
  = firstn i (Shared.load h pool) ++ f :: skipn (S i) (Shared.load h pool).
Proof.
  intros Hn Ei Ha. apply nth_error_ext. intros n.
  assert (Hi : i < length pool) by (apply nth_error_Some; congruence).
  assert (Hil : i < length (Shared.load h pool))
    by (unfold Shared.load; now rewrite length_map).
  unfold Shared.load at 1. rewrite nth_error_map.
  destruct (Nat.eq_dec n i) as [->|Hne].
  - rewrite Ei, nth_error_point_update by exact Hil. cbn [option_map]. f_equal.
    unfold Shared.object. apply nth_error_nth. now apply nth_error_point_update.
  - rewrite nth_error_point_update_other by (auto; exact Hil).
    unfold Shared.load. rewrite nth_error_map.
    destruct (nth_error pool n) as [b|] eqn:En; [|reflexivity].
    cbn [option_map]. f_equal.
    assert (Hba : b <> a).
    { intros ->. apply Hne. apply (proj1 (NoDup_nth_error pool) Hn).
      - apply nth_error_Some. congruence.
      - congruence. }
    unfold Shared.object.
    destruct (Nat.lt_ge_cases b (length h)) as [Hb|Hb].
    + destruct (nth_error h b) as [x|] eqn:E; [|apply nth_error_None in E; lia].
      rewrite (nth_error_nth _ _ _ E). apply nth_error_nth.
      now rewrite nth_error_point_update_other.
    + rewrite !nth_overflow; auto.
      rewrite length_app, length_firstn. cbn [length]. rewrite length_skipn. lia.
Qed.

Lemma agree_setattr (pool : list nat) (i : nat) (upd : Function -> Function) :
  NoDup pool ->
  agree pool (setattr (rng := rng) i upd) (Shared.setattr pool i upd).
Proof.
  intros Hn sv sh (Hs & Ho & Hb).
  assert (Ev : nth_error (objects sv) i
               = option_map (Shared.object (objects sh)) (nth_error pool i)).
  { rewrite Ho. unfold Shared.load. apply nth_error_map. }
  unfold Shared.setattr, bind, lift, getitem. unfold setattr at 1 3.
  rewrite Ev.
  destruct (nth_error pool i) as [a|] eqn:Ei; cbv beta iota; cbn [option_map].
  - assert (Ha : a < length (objects sh)).
    { rewrite Forall_forall in Hb. apply Hb. eapply nth_error_In; eauto. }
    unfold setattr.
    destruct (nth_error (objects sh) a) as [f0|] eqn:Ea;
      [|apply nth_error_None in Ea; lia].
    assert (Eo : Shared.object (objects sh) a = f0)
      by (unfold Shared.object; now apply nth_error_nth).
    rewrite Eo. cbn [fst snd]. split; [reflexivity|].
    split; [exact Hs|]. cbn [objects]. split.
    + rewrite Ho. symmetry. now apply load_point_update.
    + eapply Forall_impl; [|exact Hb]. intros b Hb'. cbv beta in Hb' |- *.
      rewrite length_app, length_firstn. cbn [length]. rewrite length_skipn. lia.
  - cbn [fst snd]. split; [reflexivity|]. repeat split; assumption.
Qed.

Lemma agree_save (pool : list nat) (k : nat) (cr : list pyfloat) (front : list nat) :
  NoDup pool ->
  forall j, agree pool (save_rank_crowding (rng := rng) k cr j front)
                  (Shared.save_rank_crowding pool k cr j front).
Proof.
  intros Hn. induction front as [|i front IH]; intros j; simpl.
  - apply agree_ret.
  - apply agree_bind; [now apply agree_setattr|]. intros _.
    apply agree_bind; [apply agree_lift|]. intros c.
    apply agree_bind; [now apply agree_setattr|]. intros _.
    apply IH.
Qed.

Lemma agree_loop (pool : list nat) (pop_size : nat) (F : matrix)
      (fronts : list (list nat)) :
  NoDup pool ->
  forall k survivors,
    agree pool (survival_loop pop_size k F fronts survivors)
          (Shared.survival_loop random_permutation argsort crowding_distance
                                pool pop_size k F fronts survivors).
Proof.
  intros Hn. induction fronts as [|front fronts IH]; intros k survivors; simpl.
  - apply agree_ret.
  - apply agree_bind; [|intros; apply IH].
    unfold survival_front, Shared.survival_front.
    apply agree_bind; [apply agree_crowding_and_positions|]. intros cI.
    apply agree_bind; [now apply agree_save|]. intros _.
    apply agree_bind; [apply agree_lift|]. intros sel.
    apply agree_ret.
Qed.

Lemma take_map {A B} (f : A -> B) (l : list A) (I : list nat) :
  take (map f l) I
  = match take l I with
    | Ok r => Ok (map f r)
    | Raise e => Raise e
    end.
Proof.
  induction I as [|i I IH]; simpl; [reflexivity|].
  unfold getitem. rewrite nth_error_map.
  destruct (nth_error l i); simpl; [|reflexivity].
  rewrite IH. destruct (take l I); reflexivity.
Qed.

(** The survival computation on a pool of pairwise distinct objects:
    the value model computes what happens to the shared objects. *)
Lemma survival_represents (pool : list nat) (pop_size : nat) (h : list Function)
      (g : rng) :
  NoDup pool -> Forall (fun a => a < length h) pool ->
  let outv := survival pop_size {| objects := Shared.load h pool; seed := g |} in
  let outh := Shared_survival pool pop_size {| objects := h; seed := g |} in
  represents pool (fst outv) (fst outh) /\
  snd outv = match snd outh with
             | Ok addresses => Ok (Shared.load (objects (fst outh)) addresses)
             | Raise e => Raise e
             end.
Proof.
  intros Hn Hb outv outh.
  set (sv0 := {| objects := Shared.load h pool; seed := g |}) in *.
  set (sh0 := {| objects := h; seed := g |}) in *.
  assert (H0 : represents pool sv0 sh0) by (repeat split; auto).
  set (scores := neg_array (map (fun a => score (Shared.object h a)) pool)).
  assert (Ev : outv
               = match scores with
                 | Ok F =>
                     bind (survival_loop pop_size 0 F
                                         (NonDominatedSorting_do F pop_size) [])
                          (fun survivors =>
                             bind (fun s => (s, Ok (objects s)))
                                  (fun pop' => lift (take pop' survivors))) sv0
                 | Raise e => (sv0, Raise e)
                 end).
  { subst outv scores. unfold survival, bind at 1. cbn [objects sv0].
    unfold bind at 1, lift at 1. unfold Shared.load. rewrite map_map.
    reflexivity. }
  assert (Eh : outh
               = match scores with
                 | Ok F =>
                     bind (Shared.survival_loop random_permutation argsort
                             crowding_distance pool pop_size 0 F
                             (NonDominatedSorting_do F pop_size) [])
                          (fun survivors => lift (take pool survivors)) sh0
                 | Raise e => (sh0, Raise e)
                 end) by reflexivity.
  rewrite Ev, Eh. clear Ev Eh outv outh.
  destruct scores as [F|e]; [|simpl; auto].
  destruct (@agree_loop pool pop_size F (NonDominatedSorting_do F pop_size) Hn 0 []
              _ _ H0) as [Er Hr].
  unfold bind, lift.
  destruct (survival_loop pop_size 0 F (NonDominatedSorting_do F pop_size) [] sv0)
    as [sv1 rv].
  destruct (Shared.survival_loop random_permutation argsort crowding_distance
              pool pop_size 0 F (NonDominatedSorting_do F pop_size) [] sh0)
    as [sh1 rh].
  cbn [fst snd] in Er, Hr. subst rh.
  destruct rv as [survivors|e]; [|simpl; auto].
  cbn [fst snd objects]. split; [exact Hr|].
  destruct Hr as (_ & -> & _). unfold Shared.load. apply take_map.
Qed.


Lemma confined_ret {A} (pool : list nat) (a : A) : confined pool (ret (rng := rng) a).
Proof. intros s b Hb. reflexivity. Qed.

Lemma confined_lift {A} (pool : list nat) (r : result A) :
  confined pool (lift (rng := rng) r).
Proof. intros s b Hb. reflexivity. Qed.

Lemma confined_bind {A B} (pool : list nat) (m : M rng A) (k : A -> M rng B) :
  confined pool m -> (forall a, confined pool (k a)) -> confined pool (bind m k).
Proof.
  intros Hm Hk s b Hb. unfold bind. specialize (Hm s b Hb).
  destruct (m s) as [s1 [a|e]]; simpl in *; [|exact Hm].
  rewrite <- Hm. now apply Hk.
Qed.

Lemma confined_permutation (pool : list nat) (n : nat) :
  confined pool (permutation random_permutation n).
Proof.
  intros s b Hb. unfold permutation.
  destruct (random_permutation (seed s) n). reflexivity.
Qed.

Lemma confined_crowding_and_positions (pool : list nat) (pop_size : nat)
      (F : matrix) (front survivors : list nat) :
  confined pool (crowding_and_positions pop_size F front survivors).
Proof.
  unfold crowding_and_positions.
  destruct (pop_size <? length survivors + length (seq 0 (length front))).
  - apply confined_bind; [apply confined_lift|]. intros Ff.
    apply confined_bind; [|intros; apply confined_ret].
    unfold randomized_argsort.
    apply confined_bind; [apply confined_permutation|]. intros P.
    apply confined_bind; [apply confined_lift|]. intros AP.
    apply confined_bind; [apply confined_lift|]. intros I.
    apply confined_ret.
  - apply confined_bind; [apply confined_lift|]. intros Ff.
    apply confined_ret.
Qed.

Lemma confined_setattr (pool : list nat) (i : nat) (upd : Function -> Function) :
  confined pool (Shared.setattr (rng := rng) pool i upd).
Proof.
  intros s b Hb. unfold Shared.setattr, bind, lift, getitem.
  destruct (nth_error pool i) as [a|] eqn:Ei; [|reflexivity].
  cbv beta iota. unfold setattr.
  destruct (nth_error (objects s) a) as [f|] eqn:Ea; [|reflexivity].
  cbn [fst objects]. apply nth_error_point_update_other.
  - apply nth_error_Some. congruence.
  - intros ->. apply Hb. eapply nth_error_In; eauto.
Qed.

Lemma confined_save (pool : list nat) (k : nat) (cr : list pyfloat)
      (front : list nat) :
  forall j, confined pool (Shared.save_rank_crowding (rng := rng) pool k cr j front).
Proof.
  induction front as [|i front IH]; intros j; simpl.
  - apply confined_ret.
  - apply confined_bind; [apply confined_setattr|]. intros _.
    apply confined_bind; [apply confined_lift|]. intros c.
    apply confined_bind; [apply confined_setattr|]. intros _.
    apply IH.
Qed.

Lemma confined_loop (pool : list nat) (pop_size : nat) (F : matrix)
      (fronts : list (list nat)) :
  forall k survivors,
    confined pool (Shared.survival_loop random_permutation argsort crowding_distance
                                        pool pop_size k F fronts survivors).
Proof.
  induction fronts as [|front fronts IH]; intros k survivors; simpl.
  - apply confined_ret.
  - apply confined_bind; [|intros; apply IH].
    unfold Shared.survival_front.
    apply confined_bind; [apply confined_crowding_and_positions|]. intros cI.
    apply confined_bind; [apply confined_save|]. intros _.
    apply confined_bind; [apply confined_lift|]. intros sel.
    apply confined_ret.
Qed.

Lemma confined_survival (pool : list nat) (pop_size : nat) :
  confined pool (Shared_survival pool pop_size).
Proof.
  unfold Shared.survival.
  apply confined_bind; [intros s b Hb; reflexivity|]. intros h.
  apply confined_bind; [apply confined_lift|]. intros F.
  apply confined_bind; [apply confined_loop|]. intros survivors.
  apply confined_lift.
Qed.

(** The positions the loop returns are pairwise distinct positions of
    the pool. *)
Lemma survival_loop_positions (pop_size : nat) (pop : list Function) (g : rng)
      (F : matrix) :
  neg_array (map score pop) = Ok F ->
  exists idx s',
    survival_loop pop_size 0 F (NonDominatedSorting_do F pop_size) []
                  {| objects := pop; seed := g |} = (s', Ok idx) /\
    NoDup idx /\ Forall (fun i => i < length pop) idx.
Proof.
  intros HFa.
  destruct (@neg_array_inv _ F HFa) as (rows & Hrows & _ & HU & HFl).
  rewrite length_map in HFl.
  pose proof (non_dominated_sort_perm HU) as HP.
  destruct (stop_if_ranked_prefix pop_size 0 (non_dominated_sort F)) as (p & Hp).
  set (fronts := NonDominatedSorting_do F pop_size).
  assert (Hfr : fronts = firstn p (non_dominated_sort F)) by exact Hp.
  assert (HNall : NoDup (concat (non_dominated_sort F))).
  { apply (Permutation_NoDup (Permutation_sym HP)), seq_NoDup. }
  assert (HN : NoDup (concat fronts)).
  { rewrite Hfr. rewrite <- (firstn_skipn p (non_dominated_sort F)) in HNall.
    rewrite concat_app in HNall. now apply NoDup_app_remove_r in HNall. }
  assert (Hall : Forall (Forall (fun i => i < length F)) fronts).
  { apply Forall_forall. intros front Hfront.
    apply stop_if_ranked_incl in Hfront.
    apply Forall_forall. intros i Hi.
    assert (Hc : In i (concat (non_dominated_sort F))).
    { apply in_concat. eauto. }
    apply (Permutation_in _ HP), in_seq in Hc. lia. }
  set (s0 := {| objects := pop; seed := g |}).
  assert (Hall' : Forall (Forall (fun i => i < length (objects s0))) fronts).
  { simpl. now rewrite <- HFl. }
  destruct (@survival_loop_exact pop_size F fronts 0 [] s0 Hall Hall' HN)
    as (sels & s' & EL & _ & HT & _).
  simpl in EL, HT.
  exists (concat sels), s'. split; [exact EL|]. split.
  - now apply (taken_NoDup HT).
  - apply Forall_forall. intros i Hi.
    apply (taken_concat_incl HT) in Hi.
    apply in_concat in Hi as (front & Hfront & Hi).
    rewrite Forall_forall in Hall. specialize (Hall front Hfront).
    rewrite Forall_forall in Hall. specialize (Hall i Hi). lia.
Qed.


Lemma shared_survival_distinct (pool : list nat) (pop_size : nat)
      (h : list Function) (g : rng) (s' : store rng) (addresses : list nat) :
  NoDup pool -> Forall (fun a => a < length h) pool ->
  Shared_survival pool pop_size {| objects := h; seed := g |} = (s', Ok addresses) ->
  NoDup addresses.
Proof.
  intros Hn Hb ES.
  set (sh0 := {| objects := h; seed := g |}) in *.
  set (sv0 := {| objects := Shared.load h pool; seed := g |}).
  assert (H0 : represents pool sv0 sh0) by (repeat split; auto).
  set (scores := neg_array (map (fun a => score (Shared.object h a)) pool)).
  assert (Eh : Shared_survival pool pop_size sh0
               = match scores with
                 | Ok F =>
                     bind (Shared.survival_loop random_permutation argsort
                             crowding_distance pool pop_size 0 F
                             (NonDominatedSorting_do F pop_size) [])
                          (fun survivors => lift (take pool survivors)) sh0
                 | Raise e => (sh0, Raise e)
                 end) by reflexivity.
  rewrite Eh in ES. clear Eh.
  destruct scores as [F|e] eqn:EF; [|discriminate].
  assert (HF : neg_array (map score (Shared.load h pool)) = Ok F).
  { unfold Shared.load. rewrite map_map. exact EF. }
  destruct (@survival_loop_positions pop_size (Shared.load h pool) g F HF)
    as (idx & sv1 & EL & HN & Hidx).
  fold sv0 in EL.
  destruct (@agree_loop pool pop_size F (NonDominatedSorting_do F pop_size) Hn 0 []
              _ _ H0) as [Er _].
  rewrite EL in Er. cbn [snd] in Er.
  unfold bind, lift in ES.
  destruct (Shared.survival_loop random_permutation argsort crowding_distance
              pool pop_size 0 F (NonDominatedSorting_do F pop_size) [] sh0)
    as [sh1 rh].
  cbn [snd] in Er. subst rh.
  unfold Shared.load in Hidx. rewrite length_map in Hidx.
  rewrite (take_ok pool 0 Hidx) in ES. inversion ES; subst.
  now apply NoDup_map_nth.
Qed.

Lemma NoDup_snoc (l : list nat) (a : nat) :
  NoDup l -> ~ In a l -> NoDup (l ++ [a]).
Proof.
  intros Hn Ha. apply NoDup_app; [exact Hn|repeat constructor; intros []|].
  intros b Hb [<-|[]]. tauto.
Qed.

Lemma firstn_app_exact {A} (l1 l2 : list A) (n : nat) :
  n = length l1 -> firstn n (l1 ++ l2) = l1.
Proof.
  intros ->. rewrite firstn_app, firstn_all, Nat.sub_diag, firstn_0.
  apply app_nil_r.
Qed.

Lemma skipn_app_exact {A} (l1 l2 : list A) (n : nat) :
  n = length l1 -> skipn n (l1 ++ l2) = l2.
Proof.
  intros ->. rewrite skipn_app, skipn_all, Nat.sub_diag, skipn_O. reflexivity.
Qed.


Lemma object_nth_error (h1 h2 : list Function) (b : nat) :
  nth_error h1 b = nth_error h2 b -> Shared.object h1 b = Shared.object h2 b.
Proof.
  intros E. unfold Shared.object.
  destruct (nth_error h2 b) as [x|] eqn:E2.
  - now rewrite (nth_error_nth _ _ _ E), (nth_error_nth _ _ _ E2).
  - rewrite !nth_overflow; auto; now apply nth_error_None.
Qed.

(** One registration of an object that is not held yet. *)
Lemma fresh_registration_step (self : Shared.t) (g : rng) (a : nat) :
  Shared.well_formed self -> NoDup (Shared.held self) ->
  a < length (Shared.heap self) -> ~ In a (Shared.held self) ->
  let func := Shared.object (Shared.heap self) a in
  let out := Shared_register_function self g a in
  Shared.view (fst out) = value (register_function (Shared.view self) g func) /\
  snd out = rnd (register_function (Shared.view self) g func) /\
  Shared.well_formed (fst out) /\
  NoDup (Shared.held (fst out)) /\
  incl (Shared.held (fst out)) (Shared.held self ++ [a]) /\
  length (Shared.heap (fst out)) = length (Shared.heap self) /\
  (forall b, ~ In b (Shared.held self ++ [a]) ->
             Shared.object (Shared.heap (fst out)) b
             = Shared.object (Shared.heap self) b).
Proof.
  intros Hwf Hnd Ha Hfresh func out. subst out.
  unfold Shared.register_function, register_function.
  change (_generation (Shared.view self)) with (Shared.generation self).
  fold func.
  destruct ((Shared.generation self =? 0) && is_none (score func)).
  { cbn [fst snd value rnd].
    repeat split; auto. intros b Hb. apply in_or_app. now left. }
  cbn [value rnd].
  destruct (@stage_spec self a Ha) as (Hlen & Hobj & Hother).
  fold func in Hobj.
  set (h := Shared.stage self a) in *.
  assert (Hma : ~ In a (Shared.members self))
    by (intros H; apply Hfresh, in_or_app; now left).
  assert (Hpa : ~ In a (Shared.pending self))
    by (intros H; apply Hfresh, in_or_app; now right).
  assert (Hload : forall l, ~ In a l ->
                            Shared.load h l = Shared.load (Shared.heap self) l).
  { intros l Hl. unfold Shared.load. apply map_ext_in. intros b Hb.
    apply Hother. intros ->. tauto. }
  assert (Hview0 : Shared.view
                     (Shared.set_heap self
                        (Shared.write (Shared.heap self) a (with_default_score func)))
                   = Shared.view self).
  { unfold Shared.view. simpl. now rewrite !load_write_other. }
  rewrite Hview0 in Hobj.
  assert (Hst : Shared.object h a = staged (Shared.view self) func).
  { rewrite Hobj. reflexivity. }
  set (st := staged (Shared.view self) func) in *.
  set (pool := Shared.members self ++ Shared.pending self ++ [a]).
  assert (Hwf' : Forall (fun b => b < length h) pool).
  { subst pool. rewrite Hlen, app_assoc. apply Forall_app. split; [exact Hwf|].
    repeat constructor. exact Ha. }
  assert (Hnd' : NoDup pool).
  { subst pool. rewrite app_assoc. now apply NoDup_snoc. }
  assert (Hpe : Shared.load h (Shared.pending self ++ [a])
                = _next_gen_pop (Shared.view self) ++ [st]).
  { unfold Shared.load. rewrite map_app. simpl. fold (Shared.object h a).
    rewrite Hst. fold (Shared.load h (Shared.pending self)).
    now rewrite Hload. }
  assert (Hme : Shared.load h (Shared.members self) = _population (Shared.view self)).
  { now rewrite Hload. }
  assert (Hpool : _population (Shared.view self)
                  ++ _next_gen_pop (Shared.view self) ++ [st]
                  = Shared.load h pool).
  { subst pool. unfold Shared.load at 1. rewrite map_app.
    fold (Shared.load h (Shared.members self)).
    fold (Shared.load h (Shared.pending self ++ [a])).
    now rewrite Hme, Hpe. }
  assert (Hheld : Shared.held self ++ [a] = pool).
  { subst pool. unfold Shared.held. now rewrite app_assoc. }
  unfold Shared.append_and_update, append_and_update.
  cbn [Shared.pending Shared.members Shared.pop_size Shared.heap Shared.generation
       Shared.set_heap].
  change (_pop_size (Shared.view self)) with (Shared.pop_size self).
  change (_generation (Shared.view self)) with (Shared.generation self).
  assert (Elen : length (_next_gen_pop (Shared.view self) ++ [st])
                 = length (Shared.pending self ++ [a])).
  { rewrite <- Hpe. unfold Shared.load. now rewrite length_map. }
  rewrite Elen.
  destruct (Shared.pop_size self <=? length (Shared.pending self ++ [a])).
  - rewrite Hpool. fold pool.
    destruct (@survival_represents pool (Shared.pop_size self) h g Hnd' Hwf')
      as [Hrep Hres].
    pose proof (@shared_survival_distinct pool (Shared.pop_size self) h g) as Hdist.
    pose proof (@confined_survival pool (Shared.pop_size self)
                                   {| objects := h; seed := g |}) as Hconf.
    destruct (@shared_survival_result pool (Shared.pop_size self) h g)
      as (U & Hin & _).
    destruct (survival (Shared.pop_size self)
                       {| objects := Shared.load h pool; seed := g |}) as [sv' rv].
    destruct (Shared_survival pool (Shared.pop_size self)
                              {| objects := h; seed := g |}) as [sh' rh].
    cbn [fst snd objects] in *.
    destruct Hrep as (Hseed & Hobjs & Hbound).
    assert (Hl' : length (objects sh') = length (Shared.heap self))
      by (rewrite (Forall2_updated_length U); exact Hlen).
    assert (Hframe : forall b, ~ In b (Shared.held self ++ [a]) ->
                               Shared.object (objects sh') b
                               = Shared.object (Shared.heap self) b).
    { intros b Hb. rewrite Hheld in Hb.
      rewrite (object_nth_error _ _ _ (Hconf b Hb)).
      apply Hother. intros ->. apply Hb. subst pool.
      apply in_or_app. right. apply in_or_app. right. now left. }
    destruct rh as [addresses|e]; subst rv; cbn [fst snd value rnd].
    + specialize (Hdist sh' addresses Hnd' Hwf' eq_refl).
      specialize (Hin addresses eq_refl).
      split; [reflexivity|]. split; [now rewrite Hseed|].
      split; [|split; [|split; [|split; [exact Hl'|exact Hframe]]]].
      * unfold Shared.well_formed, Shared.held.
        cbn [Shared.heap Shared.members Shared.pending]. rewrite app_nil_r.
        apply Forall_forall. intros b Hb. apply Hin in Hb.
        rewrite Forall_forall in Hbound. now apply Hbound.
      * unfold Shared.held. cbn [Shared.members Shared.pending].
        now rewrite app_nil_r.
      * rewrite Hheld. unfold Shared.held. cbn [Shared.members Shared.pending].
        now rewrite app_nil_r.
    + split.
      { unfold Shared.view. cbn [Shared.heap Shared.members Shared.pending
                                 Shared.pop_size Shared.generation].
        assert (Esv : objects sv'
                      = Shared.load (objects sh') (Shared.members self)
                        ++ Shared.load (objects sh') (Shared.pending self ++ [a])).
        { rewrite Hobjs. subst pool. unfold Shared.load. apply map_app. }
        rewrite Esv. cbn [_population].
        rewrite firstn_app_exact, skipn_app_exact
          by (unfold Shared.load; now rewrite !length_map).
        reflexivity. }
      split; [now rewrite Hseed|].
      split; [|split; [|split; [|split; [exact Hl'|exact Hframe]]]].
      * exact Hbound.
      * exact Hnd'.
      * rewrite Hheld. apply incl_refl.
  - cbn [fst snd value rnd].
    split.
    { unfold Shared.view. cbn [Shared.heap Shared.members Shared.pending
                               Shared.pop_size Shared.generation].
      now rewrite Hme, Hpe. }
    split; [reflexivity|].
    split; [|split; [|split; [|split; [exact Hlen|]]]].
    + exact Hwf'.
    + exact Hnd'.
    + rewrite Hheld. apply incl_refl.
    + intros b Hb. apply Hother. intros ->. apply Hb, in_or_app. right. now left.
Qed.


(** X18: the value model is the shared-object model on objects that are
    not held: when the objects registered one after the other are
    pairwise distinct and none of them is held already, the population
    of shared objects, read through its references, goes through
    exactly the states that [register_function] on values computes,
    with the same generator states; no object is then held twice. *)
Theorem fresh_registration_is_by_value :
  forall (addresses : list nat) (self : Shared.t) (g : rng),
    Shared.well_formed self ->
    NoDup (Shared.held self ++ addresses) ->
    Forall (fun a => a < length (Shared.heap self)) addresses ->
    let out := Shared_register_all self g addresses in
    let run := register_all (Shared.view self) g
                            (Shared.load (Shared.heap self) addresses) in
    Shared.view (fst out) = fst run /\
    snd out = snd run /\
    Shared.well_formed (fst out) /\
    NoDup (Shared.held (fst out)).
Proof.
  induction addresses as [|a rest IH]; intros self g Hwf Hnd Hb out run;
    subst out run.
  - simpl. rewrite app_nil_r in Hnd. auto.
  - inversion Hb as [|? ? Ha Hb']; subst.
    assert (Hheld : NoDup (Shared.held self)) by now apply NoDup_app_remove_r in Hnd.
    assert (Hfresh : ~ In a (Shared.held self)).
    { intros Hin. apply (NoDup_app_disjoint _ _ Hnd a Hin). now left. }
    assert (Hrest : NoDup rest).
    { apply NoDup_app_remove_l in Hnd. now inversion Hnd. }
    assert (Har : ~ In a rest).
    { apply NoDup_app_remove_l in Hnd. now inversion Hnd. }
    destruct (@fresh_registration_step self g a Hwf Hheld Ha Hfresh)
      as (Ev & Er & Hwf1 & Hnd1 & Hincl & Hl & Hframe).
    cbn [Shared.register_all register_all Shared.load map].
    fold (Shared.load (Shared.heap self) rest).
    destruct (Shared_register_function self g a) as [self1 g1].
    cbn [fst snd] in *.
    assert (Hload : Shared.load (Shared.heap self1) rest
                    = Shared.load (Shared.heap self) rest).
    { unfold Shared.load. apply map_ext_in. intros b Hbr. apply Hframe.
      intros Hin. apply in_app_or in Hin as [Hin|[<-|[]]]; [|tauto].
      apply (NoDup_app_disjoint _ _ Hnd b Hin). now right. }
    destruct (IH self1 g1 Hwf1) as (Ev2 & Er2 & Hwf2 & Hnd2).
    + apply NoDup_app; [exact Hnd1|exact Hrest|].
      intros b Hin Hbr. apply Hincl in Hin.
      apply in_app_or in Hin as [Hin|[<-|[]]]; [|tauto].
      apply (NoDup_app_disjoint _ _ Hnd b Hin). now right.
    + now rewrite Hl.
    + rewrite Hload, Ev, Er in *. auto.
Qed.

End Properties.

(** ** The sample routines meet the contracts *)

Lemma sample_permutation_perm (g n : nat) :
  Permutation (fst (Sample.random_permutation g n)) (seq 0 n).
Proof.
  unfold Sample.random_permutation. simpl.
  destruct (Nat.odd g); [symmetry; apply Permutation_rev|reflexivity].
Qed.

Lemma sample_choice_distinct (g n : nat) :
  2 <= n ->
  fst (fst (Sample.random_choice g n)) < n /\
  snd (fst (Sample.random_choice g n)) < n /\
  fst (fst (Sample.random_choice g n)) <> snd (fst (Sample.random_choice g n)).
Proof.
  intros H. unfold Sample.random_choice.
  destruct (Nat.odd g); simpl; repeat split; lia.
Qed.

Lemma sample_insert_perm (A : list pyfloat) (i : nat) (l : list nat) :
  Permutation (Sample.insert_by A i l) (i :: l).
Proof.
  induction l as [|j l IH]; simpl; auto.
  destruct (PyFloat.leb _ _); auto.
  rewrite IH. apply perm_swap.
Qed.

Lemma sample_argsort_perm (A : list pyfloat) :
  Permutation (Sample.argsort A) (seq 0 (length A)).
Proof.
  unfold Sample.argsort.
  induction (seq 0 (length A)) as [|i l IH]; simpl; auto.
  rewrite sample_insert_perm. now constructor.
Qed.

Lemma sample_insert_sorted (A : list pyfloat) (i : nat) (l : list nat) :
  StronglySorted PyFloat.le (map (fun t => nth t A PyFloat.NegInf) l) ->
  StronglySorted PyFloat.le
    (map (fun t => nth t A PyFloat.NegInf) (Sample.insert_by A i l)).
Proof.
  set (key := fun t => nth t A PyFloat.NegInf).
  induction l as [|j l IH]; simpl; intros H.
  - repeat constructor.
  - inversion H as [|? ? Hs Hf]; subst.
    fold (key i). fold (key j).
    destruct (PyFloat.leb (key i) (key j)) eqn:E; simpl.
    + constructor; [exact H|].
      constructor; [exact E|].
      eapply Forall_impl; [|exact Hf].
      intros x Hx. unfold PyFloat.le in *. eauto using pyfloat_leb_trans.
    + constructor; [now apply IH|].
      assert (Hji : PyFloat.le (key j) (key i)).
      { destruct (pyfloat_leb_total (key i) (key j)); [congruence|assumption]. }
      rewrite Forall_map. apply Forall_forall. intros x Hx.
      apply (Permutation_in _ (sample_insert_perm A i l)) in Hx.
      destruct Hx as [<-|Hx]; [exact Hji|].
      rewrite Forall_map, Forall_forall in Hf. now apply Hf.
Qed.

Lemma sample_argsort_sorted (A : list pyfloat) :
  StronglySorted PyFloat.le
    (map (fun i => nth i A PyFloat.NegInf) (Sample.argsort A)).
Proof.
  unfold Sample.argsort.
  induction (seq 0 (length A)) as [|i l IH]; simpl.
  - constructor.
  - now apply sample_insert_sorted.
Qed.

Lemma sample_crowding_length (F : matrix) (n : nat) :
  length (Sample.crowding F n) = length F.
Proof.
  unfold Sample.crowding. destruct (_ <=? _); apply length_map.
Qed.

(** ** The theorems at concrete inputs *)


Lemma members_within_capacity_witness :
  length (_population (fst (Ex.run (init 2) 0 [Ex.a; Ex.b; Ex.c; Ex.d]))) <= 2 /\
  length (_population (value (Ex.register Ex.one_pending 0 Ex.b)))
  = Nat.min 2 (0 + (1 + 1)).
Proof.
  destruct (@members_within_capacity nat Sample.random_permutation Sample.argsort
              Sample.crowding sample_permutation_perm sample_argsort_perm
              sample_argsort_sorted sample_crowding_length) as [H1 H2].
  split.
  - apply H1.
  - apply (H2 Ex.one_pending 0 Ex.b). reflexivity.
Defined.

Lemma front0_of_the_four_candidates :
  neg_array (map score [Ex.a; Ex.b; Ex.c; Ex.d])
  = Ok [[PyFloat.Fin (-3); PyFloat.Fin (-1)];
        [PyFloat.Fin (-1); PyFloat.Fin (-3)];
        [PyFloat.Fin (-2); PyFloat.Fin (-2)];
        [PyFloat.Fin 0; PyFloat.Fin 0]] /\
  exists rest,
    rbind (neg_array (map score [Ex.a; Ex.b; Ex.c; Ex.d]))
          (fun F => Ok (NonDominatedSorting_do F 4))
    = Ok ([0; 1; 2] :: rest).
Proof.
  destruct (proj1 (@front0_is_non_dominated_set nat Sample.random_permutation
                     Sample.argsort Sample.crowding sample_permutation_perm
                     sample_argsort_perm sample_argsort_sorted
                     sample_crowding_length)
                  [Ex.a; Ex.b; Ex.c; Ex.d]
                  [[PyFloat.Fin 3; PyFloat.Fin 1]; [PyFloat.Fin 1; PyFloat.Fin 3];
                   [PyFloat.Fin 2; PyFloat.Fin 2]; [PyFloat.Fin 0; PyFloat.Fin 0]]
                  4 ltac:(discriminate) eq_refl eq_refl)
    as (HF & rest & E).
  split; [exact HF|]. exists rest. exact E.
Defined.

Lemma overflowing_front_witness :
  exists I,
    length I = 2 /\ NoDup I /\
    installed (_population Cases.third_pending ++ _next_gen_pop Cases.third_pending
               ++ [staged Cases.third_pending Ex.d])
              (map (fun t => nth t [0; 1; 2] 0) I)
              (_population (value (Ex.register Cases.third_pending
                                               Cases.third_seed Ex.d))).
Proof.
  destruct (@overflowing_front_truncated_by_crowding nat Sample.random_permutation
              Sample.argsort Sample.crowding sample_permutation_perm
              sample_argsort_perm sample_argsort_sorted sample_crowding_length
              Cases.third_pending Cases.third_seed Ex.d eq_refl)
    as (F & whole & last & HF & Hfr & _ & _ & Hov).
  vm_compute in HF. inversion HF; subst F. clear HF.
  vm_compute in Hfr.
  destruct whole as [|w [|w' whole]]; try discriminate.
  simpl in Hfr. inversion Hfr; subst last. clear Hfr.
  destruct (Hov ltac:(simpl; lia)) as (I & Hin & Hl & HN & _).
  exists I. split; [exact Hl|]. split; [exact HN|]. exact Hin.
Defined.

Lemma duplicate_score_witness :
  (score (Shared.object
            (Shared.heap (fst (Cases.register_object Cases.shared_roomy 0 1))) 1)
   = Some [PyFloat.NegInf; PyFloat.NegInf] /\
   Shared.pending (fst (Cases.register_object Cases.shared_roomy 0 1)) = [0; 1]) /\
  (score (Shared.object
            (Shared.heap (fst (Cases.register_object Cases.shared_roomy 0 0))) 0)
   = Some [PyFloat.NegInf; PyFloat.NegInf] /\
   Shared.pending (fst (Cases.register_object Cases.shared_roomy 0 0)) = [0; 0]).
Proof.
  split.
  - destruct (@duplicates_are_neutralized_not_dropped nat Sample.random_permutation
                Sample.argsort Sample.crowding Cases.shared_roomy 0 1)
      as (_ & _ & Hdup & _ & _ & _ & Hbelow & _).
    + simpl. lia.
    + right. discriminate.
    + split; [apply Hdup; reflexivity|apply Hbelow; simpl; lia].
  - destruct (@duplicates_are_neutralized_not_dropped nat Sample.random_permutation
                Sample.argsort Sample.crowding Cases.shared_roomy 0 0)
      as (_ & Hheld & Hdup & _ & _ & _ & Hbelow & _).
    + simpl. lia.
    + right. discriminate.
    + split; [apply Hdup, Hheld; simpl; auto|apply Hbelow; simpl; lia].
Defined.

Lemma unscored_candidate_witness :
  value (Ex.register (init 2) 0 Ex.u) = init 2 /\
  score (staged Ex.three_objectives Ex.u)
  = Some [PyFloat.NegInf; PyFloat.NegInf].
Proof.
  split.
  - apply (proj1 (@unscored_candidate_discarded_or_invalidated nat
                    Sample.random_permutation Sample.argsort Sample.crowding
                    (init 2) 0 Ex.u eq_refl)).
    reflexivity.
  - apply (proj2 (@unscored_candidate_discarded_or_invalidated nat
                    Sample.random_permutation Sample.argsort Sample.crowding
                    Ex.three_objectives 0 Ex.u eq_refl)).
    vm_compute. discriminate.
Defined.

Lemma failed_survival_witness :
  value (Ex.register Ex.first_generation 1 Ex.u)
  = {| _population := _population Ex.first_generation; _pop_size := 1;
       _next_gen_pop := [set_score Ex.u neg_inf_score]; _generation := 1 |} /\
  under_lock false (trace (Ex.register Ex.first_generation 1 Ex.u)) = true.
Proof.
  apply (@failed_survival_keeps_members_and_pending nat Sample.random_permutation
           Sample.argsort Sample.crowding sample_permutation_perm
           sample_argsort_perm sample_argsort_sorted sample_crowding_length
           Ex.first_generation 1 Ex.u
           {| objects := _population Ex.first_generation
                         ++ [set_score Ex.u neg_inf_score];
              seed := 1 |}
           ValueError).
  - left. vm_compute. discriminate.
  - vm_compute. lia.
  - reflexivity.
Defined.

Lemma pending_bound_witness :
  length (_next_gen_pop Ex.jammed) < 1 \/
  exists e, neg_array (map score (_population Ex.jammed ++ _next_gen_pop Ex.jammed))
            = Raise e.
Proof.
  apply (proj1 (@pending_below_capacity_unless_survival_failed nat
                  Sample.random_permutation Sample.argsort Sample.crowding
                  sample_permutation_perm sample_argsort_perm
                  sample_argsort_sorted sample_crowding_length
                  1 ltac:(lia)) 0 [Ex.x3; Ex.u]).
Defined.



(** ** Where the code departs from the claims *)

(** C5 as stated fails: in a run whose scores have three objectives, an
    unscored candidate registered after generation 0 enters the pending
    list with a sentinel of two entries. *)
Lemma sentinel_has_two_entries_in_three_objective_run :
  _generation Ex.three_objectives = 1 /\
  map (fun f => option_map (@length pyfloat) (score f))
      (_population Ex.three_objectives) = [Some 3; Some 3] /\
  map (fun f => option_map (@length pyfloat) (score f))
      (_next_gen_pop (value (Ex.register Ex.three_objectives 1 Ex.u)))
  = [Some 2].
Proof. repeat split. Qed.

(** C7 as stated fails: after the survival computation has raised, the
    pending list has reached the capacity, and it keeps growing with
    every further registration. *)
Lemma pending_reaches_capacity_after_failed_survival :
  _pop_size Ex.jammed = 1 /\
  length (_next_gen_pop Ex.jammed) = 1 /\
  _generation Ex.jammed = 1 /\
  length (_next_gen_pop (fst (Ex.run (init 1) 0 [Ex.x3; Ex.u; Ex.v; Ex.y3]))) = 3.
Proof. repeat split. Qed.



(** C10 as stated fails: [selection] reads the members and never takes
    the lock. *)
Lemma selection_reads_members_without_lock :
  trace (Ex.select Ex.two_valid 0) = [Read Members] /\
  members_read_under_lock false (trace (Ex.select Ex.two_valid 0)) = false /\
  under_lock false (trace (Ex.register Ex.two_valid 0 Ex.c)) = true.
Proof. repeat split. Qed.

(** ** The further properties at concrete inputs *)

Lemma survivors_are_distinct_pool_candidates_witness :
  exists idx,
    NoDup idx /\
    Forall2 (fun i f' =>
               exists f, nth_error ([] ++ [Ex.a] ++ [staged Ex.one_pending Ex.b]) i
                         = Some f /\ updated f f')
            idx (_population (value (Ex.register Ex.one_pending 0 Ex.b))).
Proof.
  apply (@survivors_are_distinct_pool_candidates nat Sample.random_permutation
           Sample.argsort Sample.crowding sample_permutation_perm
           sample_argsort_perm sample_argsort_sorted sample_crowding_length
           Ex.one_pending 0 Ex.b).
  reflexivity.
Defined.

Lemma survival_is_closed_under_dominance_witness :
  exists g', In g' (_population (value (Ex.register Cases.dominated_pending 0 Ex.a)))
             /\ updated Ex.a g'.
Proof.
  apply (@survival_is_closed_under_dominance nat Sample.random_permutation
           Sample.argsort Sample.crowding sample_permutation_perm
           sample_argsort_perm sample_argsort_sorted sample_crowding_length
           Cases.dominated_pending 0 Ex.a eq_refl
           {| representation := "d";
              score := Some [PyFloat.Fin 0; PyFloat.Fin 0];
              rank := Some 1; crowding := Some PyFloat.PosInf |}
           Ex.a).
  - right. left. reflexivity.
  - right. left. reflexivity.
  - reflexivity.
Defined.

Lemma members_are_listed_by_rank_witness :
  StronglySorted le
    (map rank_index (_population (value (Ex.register Cases.dominated_pending 0 Ex.a)))) /\
  Forall (fun f' => rank f' <> None)
         (_population (value (Ex.register Cases.dominated_pending 0 Ex.a))).
Proof.
  destruct (@members_are_listed_by_rank nat Sample.random_permutation
              Sample.argsort Sample.crowding sample_permutation_perm
              sample_argsort_perm sample_argsort_sorted sample_crowding_length
              Cases.dominated_pending 0 Ex.a eq_refl) as (Hs & Hr & _).
  split; assumption.
Defined.

Lemma neutralized_candidates_only_fill_free_slots_witness :
  Forall (fun f' => neutralized f' = false)
         (_population (value (Ex.register Cases.filler_pending
                                          Cases.filler_seed Ex.v))).
Proof.
  apply (@neutralized_candidates_only_fill_free_slots nat Sample.random_permutation
           Sample.argsort Sample.crowding sample_permutation_perm
           sample_argsort_perm sample_argsort_sorted sample_crowding_length
           Cases.filler_pending Cases.filler_seed Ex.v).
  - reflexivity.
  - vm_compute. lia.
Defined.

Lemma two_objective_run_witness :
  length (_next_gen_pop (fst (Ex.run (init 2) 0 [Ex.a; Ex.u; Ex.b; Ex.c; Ex.v]))) < 2 /\
  Forall two_objectives
         (_population (fst (Ex.run (init 2) 0 [Ex.a; Ex.u; Ex.b; Ex.c; Ex.v]))
          ++ _next_gen_pop (fst (Ex.run (init 2) 0 [Ex.a; Ex.u; Ex.b; Ex.c; Ex.v]))).
Proof.
  apply (@two_objective_run_keeps_pending_below_capacity nat
           Sample.random_permutation Sample.argsort Sample.crowding
           sample_permutation_perm sample_argsort_perm sample_argsort_sorted
           sample_crowding_length 2 0 [Ex.a; Ex.u; Ex.b; Ex.c; Ex.v]).
  - lia.
  - repeat (apply Forall_cons;
            [first [left; reflexivity | right; do 2 eexists; reflexivity]|]).
    apply Forall_nil.
Defined.

Lemma generation_counts_full_batches_witness :
  _generation (fst (Ex.run (init 2) 0 [Ex.a; Ex.b; Ex.c])) = 3 / 2 /\
  length (_next_gen_pop (fst (Ex.run (init 2) 0 [Ex.a; Ex.b; Ex.c]))) = 3 mod 2.
Proof.
  apply (@generation_counts_full_batches nat Sample.random_permutation
           Sample.argsort Sample.crowding sample_permutation_perm
           sample_argsort_perm sample_argsort_sorted sample_crowding_length
           2 0 [Ex.a; Ex.b; Ex.c]).
  - lia.
  - repeat (apply Forall_cons; [do 2 eexists; reflexivity|]).
    apply Forall_nil.
Defined.

Lemma members_are_the_seed_or_fill_the_capacity_witness :
  (_population (fst (Ex.run (__init__ 2 5 (PopList [Ex.a; Ex.b; Ex.c])) 0 [Ex.d]))
   = [Ex.a; Ex.b; Ex.c] /\
   _generation (fst (Ex.run (__init__ 2 5 (PopList [Ex.a; Ex.b; Ex.c])) 0 [Ex.d])) = 5)
  \/
  (5 < _generation (fst (Ex.run (__init__ 2 5 (PopList [Ex.a; Ex.b; Ex.c])) 0 [Ex.d])) /\
   __len__ (fst (Ex.run (__init__ 2 5 (PopList [Ex.a; Ex.b; Ex.c])) 0 [Ex.d])) = 2).
Proof.
  apply (@members_are_the_seed_or_fill_the_capacity nat Sample.random_permutation
           Sample.argsort Sample.crowding sample_permutation_perm
           sample_argsort_perm sample_argsort_sorted sample_crowding_length
           2 5 (PopList [Ex.a; Ex.b; Ex.c]) 0 [Ex.d]).
Defined.

Lemma generation_accounts_for_registrations_witness :
  _generation Ex.one_pending
  <= _generation (value (Ex.register Ex.one_pending 0 Ex.b))
  <= _generation Ex.one_pending + 1 /\
  _generation (fst (Ex.run (__init__ 2 5 PopNone) 0 [Ex.a; Ex.b; Ex.c])) * 2
  + length (_next_gen_pop (fst (Ex.run (__init__ 2 5 PopNone) 0 [Ex.a; Ex.b; Ex.c])))
  <= 5 * 2 + 3.
Proof.
  destruct (@generation_accounts_for_registrations nat Sample.random_permutation
              Sample.argsort Sample.crowding sample_permutation_perm
              sample_argsort_perm sample_argsort_sorted sample_crowding_length)
    as [Hstep Hrun].
  split.
  - apply (Hstep Ex.one_pending 0 Ex.b).
  - apply (Hrun 2 5 PopNone 0 [Ex.a; Ex.b; Ex.c]).
Defined.


Lemma tournament_winner_is_never_worse_witness :
  exists winner loser cw cl,
    tournament Cases.ranked_low Cases.ranked_high = Ok winner /\
    ((winner = Cases.ranked_low /\ loser = Cases.ranked_high) \/
     (winner = Cases.ranked_high /\ loser = Cases.ranked_low)) /\
    crowding winner = Some cw /\ crowding loser = Some cl /\
    rank_index winner <= rank_index loser /\
    (rank_index winner = rank_index loser -> PyFloat.le cl cw).
Proof.
  apply (tournament_winner_is_never_worse (p0 := Cases.ranked_low)
                                          (p1 := Cases.ranked_high)).
  - repeat split; discriminate.
  - repeat split; discriminate.
Defined.

Lemma setitem_then_getitem_witness :
  __getitem__ Cases.last_replaced (-1) = Ok Ex.c /\
  __len__ Cases.last_replaced = __len__ Ex.two_valid.
Proof.
  destruct (@setitem_then_getitem Ex.two_valid Cases.last_replaced (-1) Ex.c eq_refl)
    as (Hget & Hlen & _).
  split; assumption.
Defined.

Lemma pareto_optimal_candidates_survive_witness :
  exists f', In f' (_population (value (Ex.register Ex.one_pending 0 Ex.b))) /\
             updated Ex.a f'.
Proof.
  apply (@pareto_optimal_candidates_survive_while_they_fit nat
           Sample.random_permutation Sample.argsort Sample.crowding
           sample_permutation_perm sample_argsort_perm sample_argsort_sorted
           sample_crowding_length Ex.one_pending 0 Ex.b).
  - reflexivity.
  - vm_compute. lia.
  - left. reflexivity.
  - reflexivity.
Defined.

Lemma failed_survival_is_permanent_witness :
  Shared.members (fst (Cases.register_objects Cases.shared_jammed 2 [2; 3])) = [0] /\
  Shared.generation (fst (Cases.register_objects Cases.shared_jammed 2 [2; 3])) = 1 /\
  exists e',
    neg_array (map score
                   (Shared.load
                      (Shared.heap (fst (Cases.register_objects Cases.shared_jammed 2 [2; 3])))
                      (Shared.held (fst (Cases.register_objects Cases.shared_jammed 2 [2; 3])))))
    = Raise e'.
Proof.
  destruct (@failed_survival_is_permanent nat Sample.random_permutation
              Sample.argsort Sample.crowding [2; 3] Cases.shared_jammed 2 ValueError)
    as (Hm & Hg & _ & _ & He).
  - repeat constructor; simpl; intuition discriminate.
  - repeat constructor; simpl; try lia; intuition discriminate.
  - reflexivity.
  - split; [exact Hm|]. split; [exact Hg|exact He].
Defined.

(** Registering the held member of the same population again is
    another matter: line 56 rewrites its score, the scores form a
    matrix again, and the survival computation completes. *)
Lemma held_member_registered_again :
  Shared.generation (fst (Cases.register_object Cases.shared_jammed 2 0)) = 2 /\
  Shared.pending (fst (Cases.register_object Cases.shared_jammed 2 0)) = [].
Proof. split; reflexivity. Qed.


Lemma selection_succeeds_after_survival_witness :
  exists f,
    value (Ex.select (value (Ex.register Cases.filler_pending Cases.filler_seed Ex.v)) 0)
    = Ok f /\
    In f (_population (value (Ex.register Cases.filler_pending Cases.filler_seed Ex.v))) /\
    valid f = true.
Proof.
  apply (@selection_succeeds_after_survival nat Sample.random_permutation
           Sample.random_choice Sample.argsort Sample.crowding
           sample_permutation_perm sample_choice_distinct sample_argsort_perm
           sample_argsort_sorted sample_crowding_length
           Cases.filler_pending Cases.filler_seed Ex.v 0).
  - reflexivity.
  - vm_compute. lia.
  - vm_compute.
    repeat (apply Forall_cons; [first [left; reflexivity | right; reflexivity]|]).
    apply Forall_nil.
  - vm_compute. apply Exists_cons_hd. reflexivity.
Defined.

Lemma dropped_candidate_is_ranked :
  exists s' members' f',
    survival Sample.random_permutation Sample.argsort Sample.crowding 2
             {| objects := [Ex.a; Ex.b; Ex.c; Ex.d]; seed := 0 |}
    = (s', Ok members') /\
    nth_error (objects s') 2 = Some f' /\ rank f' = Some 0 /\
    score f' = score Ex.c /\
    nth_error (objects s') 3 = Some Ex.d.
Proof.
  destruct (@survival_marks_every_processed_candidate nat Sample.random_permutation
              Sample.argsort Sample.crowding sample_permutation_perm
              sample_argsort_perm sample_argsort_sorted sample_crowding_length
              2 [Ex.a; Ex.b; Ex.c; Ex.d] 0
              [[PyFloat.Fin (-3); PyFloat.Fin (-1)];
               [PyFloat.Fin (-1); PyFloat.Fin (-3)];
               [PyFloat.Fin (-2); PyFloat.Fin (-2)];
               [PyFloat.Fin 0; PyFloat.Fin 0]] eq_refl)
    as (s' & members' & ES & Hmark & Hrest & _).
  destruct (Hmark 0 [0; 1; 2] 2 eq_refl ltac:(simpl; auto))
    as (f & f' & Ef & Ef' & Hr & _ & _ & Hs).
  exists s', members', f'.
  split; [exact ES|]. split; [exact Ef'|]. split; [exact Hr|].
  split; [simpl in Ef; congruence|].
  apply (Hrest 3). vm_compute. intuition discriminate.
Defined.

Lemma valid_candidates_stay_pairwise_distinct_witness :
  str (nth 0 (held (fst (Ex.run (init 3) 0 [Ex.a; Cases.b_again; Ex.b; Ex.c]))) Ex.d)
  <> str (nth 3 (held (fst (Ex.run (init 3) 0 [Ex.a; Cases.b_again; Ex.b; Ex.c]))) Ex.d)
  /\
  score (nth 0 (held (fst (Ex.run (init 3) 0 [Ex.a; Cases.b_again; Ex.b; Ex.c]))) Ex.d)
  <> score (nth 3 (held (fst (Ex.run (init 3) 0 [Ex.a; Cases.b_again; Ex.b; Ex.c]))) Ex.d).
Proof.
  apply (@valid_candidates_stay_pairwise_distinct nat Sample.random_permutation
           Sample.argsort Sample.crowding sample_permutation_perm
           sample_argsort_perm sample_argsort_sorted sample_crowding_length
           [Ex.a; Cases.b_again; Ex.b; Ex.c] (init 3) 0
           ltac:(intros i j f f' _ Ei; destruct i; discriminate Ei)
           0 3).
  - discriminate.
  - reflexivity.
  - reflexivity.
  - reflexivity.
  - reflexivity.
Defined.

Lemma fresh_registration_is_by_value_witness :
  Shared.view (fst (Cases.register_objects Cases.shared_init 0 [0; 1; 2; 3]))
  = fst (Ex.run (init 2) 0 [Ex.a; Ex.b; Ex.c; Ex.d]) /\
  snd (Cases.register_objects Cases.shared_init 0 [0; 1; 2; 3])
  = snd (Ex.run (init 2) 0 [Ex.a; Ex.b; Ex.c; Ex.d]).
Proof.
  destruct (@fresh_registration_is_by_value nat Sample.random_permutation
              Sample.argsort Sample.crowding sample_permutation_perm
              sample_argsort_perm sample_argsort_sorted sample_crowding_length
              [0; 1; 2; 3] Cases.shared_init 0)
    as (Hv & Hr & _).
  - apply Forall_nil.
  - simpl. repeat constructor; simpl; intuition discriminate.
  - simpl. repeat constructor.
  - split; [exact Hv|exact Hr].
Defined.
